(** * smr: the EC2 master (ec2.py), its helpers (shared.py) and the
      map worker (map.py), embedded as a labelled transition system.

    The master is a multi-threaded Python 2 program.  Every thread is
    modelled by a program counter and a transition function; the threads
    communicate through [Queue.Queue] objects and one [threading.Event].
    A label names the thread that moves and records what the environment
    (remote worker, operating system, scheduler) answered, so that a list
    of labels is one execution and can be replayed by [run]. *)

From Stdlib Require Import ZArith Lia Ascii String Permutation.
From stdpp Require Import base option list strings gmap pretty.

(** ** Python primitives used by the sources *)

Module Python.

(** [string.whitespace] of Python 2: space, \t, \n, \v, \f, \r. *)
Definition isspace (c : ascii) : bool :=
  let n := nat_of_ascii c in
  Nat.eqb n 32 || (Nat.leb 9 n && Nat.leb n 13).

Definition is_empty (s : string) : bool :=
  match s with EmptyString => true | String _ _ => false end.

(** [s.rstrip()] *)
Fixpoint rstrip (s : string) : string :=
  match s with
  | EmptyString => EmptyString
  | String c r =>
      let r' := rstrip r in
      if isspace c && is_empty r' then EmptyString else String c r'
  end.

(** [s.startswith(p)] *)
Definition startswith (s p : string) : bool := String.prefix p s.

(** [s[1:]] *)
Definition from1 (s : string) : string :=
  match s with EmptyString => EmptyString | String _ r => r end.

Definition LF : string := String "010"%char EmptyString.

(** ["%s\n" % s] *)
Definition fmt_line (s : string) : string := s +:+ LF.

(** [Queue.Queue(maxsize)]: a FIFO; [maxsize <= 0] means unbounded.
    [task_done] only maintains the counter that [Queue.join] waits for, and
    no code of the repository calls [join] on a queue, so the counter is
    not represented. *)
Record Queue : Type := mkQueue { maxsize : nat; queue : list string }.

Definition Queue_new (maxsize : nat) : Queue := mkQueue maxsize [].

Definition full (q : Queue) : bool :=
  Nat.ltb 0 (maxsize q) && Nat.eqb (length (queue q)) (maxsize q).

(** [q.put(x)] with the default [block=True]: [None] while the caller has to
    wait for a free slot. *)
Definition put (q : Queue) (x : string) : option Queue :=
  if full q then None else Some (mkQueue (maxsize q) (queue q ++ [x])).

(** [q.get(timeout=2)]: [None] is the [Empty] exception, raised when the
    queue is still empty at the end of the wait. *)
Definition get (q : Queue) : option (string * Queue) :=
  match queue q with
  | [] => None
  | x :: r => Some (x, mkQueue (maxsize q) r)
  end.

(** A paramiko [ChannelFile] opened for writing ([chan.makefile("wb")]):
    the lines handed to [write] so far and the [closed] flag. *)
Record ChannelFile : Type := mkFile { written : list string; closed : bool }.

Definition File_new : ChannelFile := mkFile [] false.

(** What the transport does with one [write] followed by [flush]. *)
Inductive io_outcome : Type :=
  | IoOk            (* both succeed *)
  | IoWriteError    (* write raises IOError *)
  | IoFlushError.   (* write succeeds, flush raises IOError *)

Definition File_close (d : ChannelFile) : ChannelFile := mkFile (written d) true.

End Python.
Import Python.

(** ** shared.py *)

Module Shared.

(** [write_file_to_descriptor(input_queue, descriptor)].  The result is the
    returned boolean, the queue and the descriptor afterwards.  Writing to a
    closed [ChannelFile] raises [IOError] whatever the transport would do. *)
Definition write_file_to_descriptor (input_queue : Queue) (descriptor : ChannelFile)
    (io : io_outcome) : bool * Queue * ChannelFile :=
  match get input_queue with
  | Some (file_name, input_queue') =>
      if closed descriptor then (false, input_queue', descriptor)
      else
        match io with
        | IoOk =>
            (true, input_queue',
             mkFile (written descriptor ++ [fmt_line file_name]) (closed descriptor))
        | IoWriteError => (false, input_queue', descriptor)
        | IoFlushError =>
            (false, input_queue',
             mkFile (written descriptor ++ [fmt_line file_name]) (closed descriptor))
        end
  | None =>
      (* no more files in queue *)
      (false, input_queue, File_close descriptor)
  end.

End Shared.
Import Shared.

(** ** map.py: the remote worker *)

Module MapPy.

(** What the environment does to the worker while it handles one line of its
    standard input: the outcome of each call of [k.get_contents_to_filename]
    ([true] = no exception) and of [config.MAP_FUNC]. *)
Inductive exn : Type := Exception | KeyboardInterrupt | SystemExit.

Inductive call_outcome : Type := Returns | Raises (e : exn).

Record file_env : Type := mkFileEnv { downloads : list bool; map_func : call_outcome }.

(** How a run of [main] ends. *)
Inductive worker_end : Type :=
  | EndOfInput     (* stdin exhausted, the for loop ends *)
  | Uncaught       (* an exception leaves [main]: traceback, exit status 1 *)
  | SysExit1       (* KeyboardInterrupt or SystemExit caught: sys.exit(1) *)
  | Downloading.   (* still inside [while True] when the oracle ends *)

(** The [while True] download loop.  The bare [except:] catches everything;
    there is no [break] after the report of a failure.  [None]: the loop has
    not ended when the list of attempts is used up. *)
Fixpoint download_loop (DOWNLOAD_RETRIES : Z) (file_name : string) (tries : Z)
    (attempts : list bool) : list string * option Z :=
  match attempts with
  | [] => ([], None)
  | true :: _ => ([], Some tries)
  | false :: rest =>
      let tries := (tries + 1)%Z in
      let out := if (DOWNLOAD_RETRIES <=? tries)%Z
                 then [fmt_line ("!" +:+ file_name)] else [] in
      let '(more, r) := download_loop DOWNLOAD_RETRIES file_name tries rest in
      (out ++ more, r)
  end.

(** The body of [for file_name in iter(sys.stdin.readline, "")]: the lines
    written to stderr, and [None] when the loop goes on to the next line. *)
Definition process_line (DOWNLOAD_RETRIES : Z) (line : string) (env : file_env)
    : list string * option worker_end :=
  let file_name := rstrip line in
  let '(out, r) := download_loop DOWNLOAD_RETRIES file_name 0 (downloads env) in
  match r with
  | None => (out, Some Downloading)
  | Some _ =>
      match map_func env with
      | Returns => (out ++ [fmt_line ("+" +:+ file_name)], None)
      | Raises Exception => (out, Some Uncaught)
      | Raises _ => (out, Some SysExit1)
      end
  end.

(** [main], from the first [readline] on: [config] is taken as given. *)
Fixpoint main (DOWNLOAD_RETRIES : Z) (stdin : list (string * file_env))
    : list string * worker_end :=
  match stdin with
  | [] => ([], EndOfInput)
  | (line, env) :: rest =>
      if is_empty line then ([], EndOfInput)
      else
        let '(out, r) := process_line DOWNLOAD_RETRIES line env in
        match r with
        | Some e => (out, e)
        | None =>
            let '(more, e) := main DOWNLOAD_RETRIES rest in (out ++ more, e)
        end
  end.

End MapPy.

(** ** ec2.py: the master *)

Module Ec2.

(** The objects every thread of the master holds a reference to. *)
Record shared : Type := mkShared {
  input_queue : Queue;             (* Queue(files_total) *)
  processed_files_queue : Queue;   (* Queue(files_total) *)
  output_queue : Queue;            (* Queue() *)
  abort_event : bool;              (* threading.Event *)
  messages : list string           (* the log fed by add_message *)
}.

Definition set_input_queue (q : Queue) (sh : shared) : shared :=
  mkShared q (processed_files_queue sh) (output_queue sh) (abort_event sh) (messages sh).
Definition set_processed_files_queue (q : Queue) (sh : shared) : shared :=
  mkShared (input_queue sh) q (output_queue sh) (abort_event sh) (messages sh).
Definition set_output_queue (q : Queue) (sh : shared) : shared :=
  mkShared (input_queue sh) (processed_files_queue sh) q (abort_event sh) (messages sh).
(** [abort_event.set()]; the sources never call [clear]. *)
Definition abort_event_set (sh : shared) : shared :=
  mkShared (input_queue sh) (processed_files_queue sh) (output_queue sh) true (messages sh).

(** Modelled from the spec: [add_message] is imported from shared.py by
    ec2.py but shared.py does not define it.  The spec describes a log of
    recent messages polled by the display; every message is appended here
    in the order of the calls. *)
Definition add_message (m : string) (sh : shared) : shared :=
  mkShared (input_queue sh) (processed_files_queue sh) (output_queue sh) (abort_event sh)
           (messages sh ++ [m]).

(** *** worker_stderr_read_thread: one pump per remote worker *)

(** Program points of [worker_stderr_read_thread]. *)
Inductive pump_pc : Type :=
  | NotStarted                        (* start_worker has not created the thread *)
  | PStart                            (* if not abort_event.is_set() ... *)
  | PFirstFile                        (* ... and not write_file_to_descriptor(...) *)
  | PFirstFailed                      (* abort_event.set(); sys.exit(1) *)
  | PReadline                         (* for line in iter(stderr.readline, "") *)
  | PPutProcessed (file_name : string)  (* processed_files_queue.put(file_name) *)
  | PRequeueMsg (file_name : string)    (* add_message("error processing ...") *)
  | PRequeue (file_name : string)       (* input_queue.put(file_name) *)
  | PInvalidMsg (line : string)         (* add_message("invalid message ...") *)
  | PCheckAbort                       (* if abort_event.is_set(): break *)
  | PNextFile                         (* if not write_file_to_descriptor(...) *)
  | PCheckExit                        (* if chan.exit_status_ready(): break *)
  | PAfterLoop                        (* if not abort_event.is_set(): *)
  | PWaitExit                         (* while not chan.exit_status_ready() *)
  | PSshClose                         (* ssh.close() *)
  | PDone                             (* the thread function returned *)
  | PExited.                          (* sys.exit(1) ended the thread *)

(** A pump with its side of the paramiko channel. *)
Record pump : Type := mkPump {
  pc : pump_pc;
  stdin : ChannelFile;          (* chan.makefile("wb") *)
  stderr_read : list string;    (* the lines stderr.readline() has returned *)
  write_shut : bool;            (* chan.shutdown_write() was called *)
  exit_status : option Z;       (* the remote exit status, once it has arrived *)
  ssh_closed : bool             (* ssh.close() was called *)
}.

Definition pump_new : pump := mkPump NotStarted File_new [] false None false.

Definition set_pc (c : pump_pc) (p : pump) : pump :=
  mkPump c (stdin p) (stderr_read p) (write_shut p) (exit_status p) (ssh_closed p).
Definition set_stdin (d : ChannelFile) (p : pump) : pump :=
  mkPump (pc p) d (stderr_read p) (write_shut p) (exit_status p) (ssh_closed p).
Definition got_line (line : string) (p : pump) : pump :=
  mkPump (pc p) (stdin p) (stderr_read p ++ [line]) (write_shut p) (exit_status p) (ssh_closed p).
Definition shutdown_write (p : pump) : pump :=
  mkPump (pc p) (stdin p) (stderr_read p) true (exit_status p) (ssh_closed p).
Definition set_exit_status (c : Z) (p : pump) : pump :=
  mkPump (pc p) (stdin p) (stderr_read p) (write_shut p) (Some c) (ssh_closed p).
Definition ssh_close (p : pump) : pump :=
  mkPump (pc p) (stdin p) (stderr_read p) (write_shut p) (exit_status p) true.

(** What a pump does in one step, with the answer it got. *)
Inductive pump_event : Type :=
  | IsSet (b : bool)                       (* abort_event.is_set() returned b *)
  | Take (file_name : string) (io : io_outcome)
      (* write_file_to_descriptor: get returned file_name, then write and flush *)
  | TakeEmpty                              (* write_file_to_descriptor: get raised Empty *)
  | AbortSetExit                           (* abort_event.set(); sys.exit(1) *)
  | Readline (line : string)               (* stderr.readline(); "" at end of file *)
  | PutProcessed                           (* processed_files_queue.put *)
  | AddMessage                             (* add_message *)
  | Requeue                                (* input_queue.put *)
  | ExitStatusReady (b : bool)             (* chan.exit_status_ready() returned b *)
  | SshClose.                              (* ssh.close() *)

(** The status line after [rstrip], as the loop body tells the cases apart. *)
Inductive status : Type :=
  | Success (file_name : string)
  | Failure (file_name : string)
  | Invalid (line : string).

Definition classify (line : string) : status :=
  let line := rstrip line in
  if startswith line "+" then Success (from1 line)
  else if startswith line "!" then Failure (from1 line)
  else Invalid line.

(** The call [write_file_to_descriptor(input_queue, stdin)] of a pump, when
    the event agrees with the queue. *)
Definition call_wfd (e : pump_event) (sh : shared) (p : pump)
    : option (bool * shared * pump) :=
  match e, get (input_queue sh) with
  | Take f io, Some (f', _) =>
      if String.eqb f f' then
        let '(r, q, d) := write_file_to_descriptor (input_queue sh) (stdin p) io in
        Some (r, set_input_queue q sh, set_stdin d p)
      else None
  | TakeEmpty, None =>
      let '(r, q, d) := write_file_to_descriptor (input_queue sh) (stdin p) IoOk in
      Some (r, set_input_queue q sh, set_stdin d p)
  | _, _ => None
  end.

(** [chan.exit_status_ready()] *)
Definition exit_status_ready (p : pump) : bool :=
  match exit_status p with Some _ => true | None => false end.

Definition pump_step (e : pump_event) (sh : shared) (p : pump)
    : option (shared * pump) :=
  match pc p, e with
  | PStart, IsSet b =>
      if Bool.eqb b (abort_event sh)
      then Some (sh, set_pc (if b then PReadline else PFirstFile) p)
      else None
  | PFirstFile, _ =>
      '(r, sh', p') ← call_wfd e sh p;
      Some (sh', if r : bool then set_pc PReadline p'
                 else set_pc PFirstFailed (shutdown_write p'))
  | PFirstFailed, AbortSetExit => Some (abort_event_set sh, set_pc PExited p)
  | PReadline, Readline line =>
      if is_empty line then Some (sh, set_pc PAfterLoop p)
      else
        Some (sh,
              match classify line with
              | Success file_name => set_pc (PPutProcessed file_name) (got_line line p)
              | Failure file_name => set_pc (PRequeueMsg file_name) (got_line line p)
              | Invalid l => set_pc (PInvalidMsg l) (got_line line p)
              end)
  | PPutProcessed file_name, PutProcessed =>
      q ← put (processed_files_queue sh) file_name;
      Some (set_processed_files_queue q sh, set_pc PCheckAbort p)
  | PRequeueMsg file_name, AddMessage =>
      Some (add_message ("error processing " +:+ file_name +:+ ", requeuing...") sh,
            set_pc (PRequeue file_name) p)
  | PRequeue file_name, Requeue =>
      q ← put (input_queue sh) file_name;
      Some (set_input_queue q sh, set_pc PCheckAbort p)
  | PInvalidMsg line, AddMessage =>
      Some (add_message ("invalid message received from mapper: " +:+ line) sh,
            set_pc PCheckAbort p)
  | PCheckAbort, IsSet b =>
      if Bool.eqb b (abort_event sh)
      then Some (sh, set_pc (if b then PAfterLoop else PNextFile) p)
      else None
  | PNextFile, _ =>
      '(r, sh', p') ← call_wfd e sh p;
      Some (sh', if r : bool then set_pc PCheckExit p'
                 else set_pc PAfterLoop (shutdown_write p'))
  | PCheckExit, ExitStatusReady b =>
      if Bool.eqb b (exit_status_ready p)
      then Some (sh, set_pc (if b then PAfterLoop else PReadline) p)
      else None
  | PAfterLoop, IsSet b =>
      if Bool.eqb b (abort_event sh)
      then Some (sh, set_pc (if b then PSshClose else PWaitExit) p)
      else None
  | PWaitExit, ExitStatusReady b =>
      if Bool.eqb b (exit_status_ready p)
      then Some (sh, set_pc (if b then PSshClose else PWaitExit) p)
      else None
  | PSshClose, SshClose => Some (sh, set_pc PDone (ssh_close p))
  | _, _ => None
  end.

(** *** progress_thread (shared.py) *)

Inductive progress_pc : Type :=
  | GNotStarted
  | GCheck        (* while not abort_event.is_set() *)
  | GGet          (* processed_files_queue.get(timeout=2) *)
  | GDone.

Record progress_state : Type := mkProgress { gpc : progress_pc; files_processed : nat }.

Inductive progress_event : Type :=
  | GIsSet (b : bool)
  | GGot (file_name : string)    (* get returned file_name *)
  | GEmpty.                      (* get raised Empty *)

Definition progress_step (e : progress_event) (sh : shared) (g : progress_state)
    : option (shared * progress_state) :=
  match gpc g, e with
  | GCheck, GIsSet b =>
      if Bool.eqb b (abort_event sh)
      then Some (sh, mkProgress (if b then GDone else GGet) (files_processed g))
      else None
  | GGet, GGot f =>
      match get (processed_files_queue sh) with
      | Some (f', q) =>
          if String.eqb f f'
          then Some (set_processed_files_queue q sh,
                     mkProgress GCheck (files_processed g + 1))
          else None
      | None => None
      end
  | GGet, GEmpty =>
      match get (processed_files_queue sh) with
      | None => Some (sh, mkProgress GCheck (files_processed g))
      | Some _ => None
      end
  | _, _ => None
  end.

(** *** reduce_thread (shared.py) and the smr-reduce process *)

(** The [subprocess.Popen] object of smr-reduce: what was written to its
    standard input, whether that pipe was closed by the master, and the
    return code once the process has terminated ([poll()] returns it). *)
Record Popen : Type := mkPopen {
  popen_stdin : list string;
  popen_stdin_closed : bool;
  returncode : option Z
}.

Definition Popen_new : Popen := mkPopen [] false None.

Inductive reduce_pc : Type :=
  | RNotStarted
  | RCheck                       (* while not abort_event.is_set() *)
  | RGet                         (* output_queue.get(timeout=2) *)
  | RPoll (result : string)      (* if reduce_process.poll() is not None *)
  | RAbort                       (* abort_event.set(); break *)
  | RWrite (result : string)     (* stdin.write(result); stdin.flush(); task_done() *)
  | RClose                       (* reduce_process.stdin.close() *)
  | RDone
  | RCrashed.                    (* IOError left the thread function *)

Record reduce_state : Type := mkReduce { rpc : reduce_pc; reduce_process : Popen }.

Inductive reduce_event : Type :=
  | RIsSet (b : bool)
  | RGot (result : string)
  | REmpty
  | RPolled (r : option Z)       (* the value of reduce_process.poll() *)
  | RAbortSet                    (* logging.error(...); abort_event.set() *)
  | RWritten                     (* write and flush *)
  | RClosed.                     (* stdin.close() *)

Definition set_rpc (c : reduce_pc) (r : reduce_state) : reduce_state :=
  mkReduce c (reduce_process r).

Definition option_Z_eqb (a b : option Z) : bool :=
  match a, b with
  | Some x, Some y => Z.eqb x y
  | None, None => true
  | _, _ => false
  end.

Definition reduce_step (e : reduce_event) (sh : shared) (r : reduce_state)
    : option (shared * reduce_state) :=
  match rpc r, e with
  | RCheck, RIsSet b =>
      if Bool.eqb b (abort_event sh)
      then Some (sh, set_rpc (if b then RClose else RGet) r)
      else None
  | RGet, RGot x =>
      match get (output_queue sh) with
      | Some (x', q) =>
          if String.eqb x x' then Some (set_output_queue q sh, set_rpc (RPoll x) r)
          else None
      | None => None
      end
  | RGet, REmpty =>
      match get (output_queue sh) with
      | None => Some (sh, set_rpc RCheck r)
      | Some _ => None
      end
  | RPoll x, RPolled o =>
      if option_Z_eqb o (returncode (reduce_process r)) then
        match o with
        | Some _ => Some (sh, set_rpc RAbort r)   (* don't want to write *)
        | None => Some (sh, set_rpc (RWrite x) r)
        end
      else None
  | RAbort, RAbortSet => Some (abort_event_set sh, set_rpc RClose r)
  | RWrite x, RWritten =>
      let rp := reduce_process r in
      match returncode rp with
      | Some _ => Some (sh, set_rpc RCrashed r)   (* broken pipe: IOError, not caught *)
      | None =>
          Some (sh, mkReduce RCheck
                      (mkPopen (popen_stdin rp ++ [x]) (popen_stdin_closed rp) (returncode rp)))
      end
  | RClose, RClosed =>
      let rp := reduce_process r in
      Some (sh, mkReduce RDone (mkPopen (popen_stdin rp) true (returncode rp)))
  | _, _ => None
  end.

(** *** main *)

Inductive main_pc : Type :=
  | MInit                   (* the initialization threads run and are joined *)
  | MStartWorkers (k : nat) (* the loop of start_worker calls, k done *)
  | MJoin                   (* for _, w in workers: w.join() *)
  | MTeardown               (* endwin; terminate_instances; abort_event.set() *)
  | MExitCodes (k : nat)    (* for chan, _ in workers: chan.recv_exit_status() *)
  | MReduceJoin             (* reduce_worker.join(); reduce_process.wait() *)
  | MExited (code : Z).     (* sys.exit(code), or the return at the end: 0 *)

Inductive main_event : Type :=
  | InitJoined                 (* all initialization threads joined *)
  | StartWorker (connected : bool)  (* start_worker; ssh.connect raised or not *)
  | StartThreads               (* Popen smr-reduce; start reduce and progress threads *)
  | KeyboardInterrupt          (* raised while joining the pumps *)
  | Joined                     (* every pump thread has ended *)
  | Teardown                   (* terminate_instances; abort_event.set() *)
  | RecvExitStatus (code : Z)  (* chan.recv_exit_status() returned code *)
  | ExitCodesChecked           (* the loop over workers is over *)
  | ReduceJoined (code : Z).   (* reduce thread joined, reduce_process.wait() *)

(** What the world outside the master's threads does. *)
Inductive env_event : Type :=
  | InstanceNotRunning         (* initialize_instance_thread: wait_for_instance
                                  returned False; abort_event.set() *)
  | WorkerExit (i : nat) (code : Z)       (* the exit status of worker i arrives *)
  | WorkerStdout (i : nat) (line : string)
      (* worker_stdout_read_thread of worker i: output_queue.put(line) *)
  | ReducerExit (code : Z).    (* smr-reduce terminates *)

Inductive label : Type :=
  | Pump (i : nat) (e : pump_event)
  | Progress (e : progress_event)
  | Reduce (e : reduce_event)
  | Main (e : main_event)
  | Env (e : env_event).

Record state : Type := mkState {
  sh : shared;
  pumps : list pump;
  progress : progress_state;
  reduce : reduce_state;
  mpc : main_pc;
  files_total : nat
}.

Definition set_sh (x : shared) (s : state) : state :=
  mkState x (pumps s) (progress s) (reduce s) (mpc s) (files_total s).
Definition set_pumps (x : list pump) (s : state) : state :=
  mkState (sh s) x (progress s) (reduce s) (mpc s) (files_total s).
Definition set_progress (x : progress_state) (s : state) : state :=
  mkState (sh s) (pumps s) x (reduce s) (mpc s) (files_total s).
Definition set_reduce (x : reduce_state) (s : state) : state :=
  mkState (sh s) (pumps s) (progress s) x (mpc s) (files_total s).
Definition set_mpc (x : main_pc) (s : state) : state :=
  mkState (sh s) (pumps s) (progress s) (reduce s) x (files_total s).

(** [for file_name in file_names: input_queue.put(file_name)] *)
Fixpoint put_all (q : Queue) (file_names : list string) : option Queue :=
  match file_names with
  | [] => Some q
  | f :: r => q' ← put q f; put_all q' r
  end.

(** The state of [main] once the queues exist and the instances have been
    requested: [workers] is the number of (instance, worker) pairs. *)
Definition init (file_names : list string) (workers : nat) : state :=
  let files_total := length file_names in
  mkState
    (mkShared (default (Queue_new files_total) (put_all (Queue_new files_total) file_names))
              (Queue_new files_total) (Queue_new 0) false [])
    (replicate workers pump_new)
    (mkProgress GNotStarted 0)
    (mkReduce RNotStarted Popen_new)
    MInit files_total.

Definition pump_ended (p : pump) : bool :=
  match pc p with PDone | PExited => true | _ => false end.

Definition reduce_ended (r : reduce_state) : bool :=
  match rpc r with RDone | RCrashed => true | _ => false end.

Definition main_step (e : main_event) (s : state) : option state :=
  match mpc s, e with
  | MInit, InitJoined =>
      Some (set_mpc (if abort_event (sh s) then MExited 1 else MStartWorkers 0) s)
  | MStartWorkers k, StartWorker connected =>
      p ← pumps s !! k;
      if connected
      then Some (set_mpc (MStartWorkers (S k)) (set_pumps (<[k := set_pc PStart p]> (pumps s)) s))
      else Some (set_mpc (MExited 1) (set_sh (abort_event_set (sh s)) s))
  | MStartWorkers k, StartThreads =>
      match pumps s !! k with
      | Some _ => None
      | None =>
          Some (set_mpc MJoin
                  (set_reduce (set_rpc RCheck (reduce s))
                     (set_progress (mkProgress GCheck (files_processed (progress s))) s)))
      end
  | MJoin, KeyboardInterrupt =>
      Some (set_mpc (MExited 1) (set_sh (abort_event_set (sh s)) s))
  | MJoin, Joined =>
      if forallb pump_ended (pumps s) then Some (set_mpc MTeardown s) else None
  | MTeardown, Teardown =>
      Some (set_mpc (MExitCodes 0) (set_sh (abort_event_set (sh s)) s))
  | MExitCodes k, RecvExitStatus code =>
      p ← pumps s !! k;
      if option_Z_eqb (exit_status p) (Some code)
      then Some (set_mpc (if Z.eqb code 0 then MExitCodes (S k) else MExited 1) s)
      else None
  | MExitCodes k, ExitCodesChecked =>
      match pumps s !! k with
      | Some _ => None
      | None => Some (set_mpc MReduceJoin s)
      end
  | MReduceJoin, ReduceJoined code =>
      if reduce_ended (reduce s)
         && option_Z_eqb (returncode (reduce_process (reduce s))) (Some code)
      then Some (set_mpc (MExited (if Z.eqb code 0 then 0 else 1)) s)
      else None
  | _, _ => None
  end.

Definition env_step (e : env_event) (s : state) : option state :=
  match e with
  | InstanceNotRunning =>
      match mpc s with
      | MInit => Some (set_sh (abort_event_set (sh s)) s)
      | _ => None
      end
  | WorkerExit i code =>
      p ← pumps s !! i;
      match pc p, exit_status p with
      | NotStarted, _ => None
      | _, Some _ => None
      | _, None => Some (set_pumps (<[i := set_exit_status code p]> (pumps s)) s)
      end
  | WorkerStdout i line =>
      p ← pumps s !! i;
      match pc p with
      | NotStarted => None
      | _ =>
          if is_empty line then None
          else q ← put (output_queue (sh s)) line;
               Some (set_sh (set_output_queue q (sh s)) s)
      end
  | ReducerExit code =>
      let r := reduce s in
      match rpc r, returncode (reduce_process r) with
      | RNotStarted, _ => None
      | _, Some _ => None
      | _, None =>
          Some (set_reduce
                  (mkReduce (rpc r)
                     (mkPopen (popen_stdin (reduce_process r))
                              (popen_stdin_closed (reduce_process r)) (Some code))) s)
      end
  end.

(** One step of the whole master. *)
Definition step (l : label) (s : state) : option state :=
  match l with
  | Pump i e =>
      p ← pumps s !! i;
      '(sh', p') ← pump_step e (sh s) p;
      Some (set_pumps (<[i := p']> (pumps s)) (set_sh sh' s))
  | Progress e =>
      '(sh', g) ← progress_step e (sh s) (progress s);
      Some (set_progress g (set_sh sh' s))
  | Reduce e =>
      '(sh', r) ← reduce_step e (sh s) (reduce s);
      Some (set_reduce r (set_sh sh' s))
  | Main e => main_step e s
  | Env e => env_step e s
  end.

(** An execution: the labels are replayed from left to right. *)
Fixpoint run (tr : list label) (s : state) : option state :=
  match tr with
  | [] => Some s
  | l :: tr' => s' ← step l s; run tr' s'
  end.

End Ec2.
Import Ec2.

(** ** What is observed of an execution *)

Module Observe.

(** Pump [i] takes an item and hands it to [write]: an assignment. *)
Definition is_take (i : nat) (l : label) : bool :=
  match l with
  | Pump j (Take _ _) => Nat.eqb i j
  | _ => false
  end.

(** Pump [i] reads one status line (the empty string is the end of file). *)
Definition is_status (i : nat) (l : label) : bool :=
  match l with
  | Pump j (Readline line) => Nat.eqb i j && negb (is_empty line)
  | _ => false
  end.

(** Pump [i] finds the abort flag set. *)
Definition sees_abort (i : nat) (l : label) : bool :=
  match l with
  | Pump j (IsSet true) => Nat.eqb i j
  | _ => false
  end.

(** Assignments and status lines of pump [i] alternate along the labels:
    [outstanding] tells whether an assignment is waiting for its status. *)
Fixpoint alternates (i : nat) (outstanding : bool) (tr : list label) : bool :=
  match tr with
  | [] => true
  | l :: tr' =>
      if is_take i l then negb outstanding && alternates i true tr'
      else if is_status i l then alternates i false tr'
      else alternates i outstanding tr'
  end.

(** The item of a line written by [write_file_to_descriptor]. *)
Definition unfmt_line (w : string) : string :=
  substring 0 (String.length w - 1) w.

(** The assignment of a session that has not been answered: more lines were
    written to the assignment endpoint than status lines were read. *)
Definition outstanding (p : pump) : option string :=
  if Nat.ltb (length (stderr_read p)) (length (written (stdin p)))
  then unfmt_line <$> last (written (stdin p))
  else None.

(** The items a session holds: its unanswered assignment and the failed
    item it is about to put back. *)
Definition held (p : pump) : list string :=
  match pc p with
  | PRequeueMsg f | PRequeue f => [f]
  | _ => match outstanding p with Some f => [f] | None => [] end
  end.

Definition success_name (line : string) : list string :=
  match classify line with Success f => [f] | _ => [] end.

(** The items a session has seen acknowledged. *)
Definition retired (p : pump) : list string :=
  concat (success_name <$> stderr_read p).

(** Everything a session accounts for. *)
Definition owned (p : pump) : list string := held p ++ retired p.

Definition queued (s : state) : list string := queue (input_queue (sh s)).
Definition all_held (s : state) : list string := concat (held <$> pumps s).
Definition all_retired (s : state) : list string := concat (retired <$> pumps s).

(** A step in which the worker and the transport behave: a status line is
    [+f] or [!f] for the unanswered assignment [f] of that session, and no
    write to an assignment endpoint fails. *)
Definition answers (f : string) (line : string) : bool :=
  match classify line with
  | Success g | Failure g => String.eqb f g
  | Invalid _ => false
  end.

Definition well_behaved (s : state) (l : label) : bool :=
  match l with
  | Pump i (Readline line) =>
      is_empty line ||
      match pumps s !! i with
      | Some p =>
          match outstanding p with
          | Some f => answers f line
          | None => false
          end
      | None => true
      end
  | Pump _ (Take _ io) => match io with IoOk => true | _ => false end
  | _ => true
  end.

Fixpoint wb_run (tr : list label) (s : state) : bool :=
  match tr with
  | [] => true
  | l :: tr' =>
      well_behaved s l &&
      match step l s with
      | Some s' => wb_run tr' s'
      | None => true
      end
  end.

(** Bookkeeping for the processed counter.  [credit]: the session has taken
    an item and the status line it then read, if any, is not yet accounted
    for in a queue.  [unsolicited]: the session has read a status line
    although it never wrote an assignment. *)
Definition credit (p : pump) : nat :=
  match pc p with
  | PReadline | PCheckExit =>
      match written (stdin p) with [] => 0 | _ :: _ => 1 end
  | PPutProcessed _ | PRequeueMsg _ | PRequeue _ => 1
  | _ => 0
  end.

Definition unsolicited (p : pump) : nat :=
  match written (stdin p), stderr_read p with
  | [], _ :: _ => 1
  | _, _ => 0
  end.

Definition total_unsolicited (s : state) : nat := sum_list (unsolicited <$> pumps s).

(** The places of the sources that call [abort_event.set()]. *)
Inductive abort_cause : Type :=
  | InstanceBootstrap     (* initialize_instance_thread *)
  | ConnectFailure        (* start_worker *)
  | FirstFileFailure      (* worker_stderr_read_thread, before the loop *)
  | ReducerTerminated     (* reduce_thread *)
  | UserInterrupt         (* main, except KeyboardInterrupt *)
  | EndOfJob.             (* main, after the pumps are joined *)

Definition sets_abort (l : label) : option abort_cause :=
  match l with
  | Env InstanceNotRunning => Some InstanceBootstrap
  | Main (StartWorker false) => Some ConnectFailure
  | Pump _ AbortSetExit => Some FirstFileFailure
  | Reduce RAbortSet => Some ReducerTerminated
  | Main KeyboardInterrupt => Some UserInterrupt
  | Main Teardown => Some EndOfJob
  | _ => None
  end.

(** A failure to establish a connection (to an instance or to its ssh
    server), and a request to tear the job down (by the user, or by [main]
    at the end of the job). *)
Definition connection_failure (c : abort_cause) : bool :=
  match c with InstanceBootstrap | ConnectFailure => true | _ => false end.

Definition teardown_request (c : abort_cause) : bool :=
  match c with UserInterrupt | EndOfJob => true | _ => false end.

(** The counter of [progress_thread] replaced by [n]. *)
Definition with_files_processed (n : nat) (s : state) : state :=
  set_progress (mkProgress (gpc (progress s)) n) s.

(** The labels that bring [main] to the point where all [workers] pumps,
    the reduce thread and the progress thread have been started. *)
Definition boot (workers : nat) : list label :=
  Main InitJoined :: replicate workers (Main (StartWorker true)) ++ [Main StartThreads].

(** Consecutive steps of one pump, no other thread moving in between. *)
Fixpoint pump_run (es : list pump_event) (sh0 : shared) (p : pump)
    : option (shared * pump) :=
  match es with
  | [] => Some (sh0, p)
  | e :: es' => '(sh', p') ← pump_step e sh0 p; pump_run es' sh' p'
  end.

(** The label is neither a connection failure nor a request to tear the job
    down. *)
Definition other_than_connection_or_teardown (l : label) : bool :=
  match sets_abort l with
  | Some c => negb (connection_failure c || teardown_request c)
  | None => true
  end.

End Observe.
Import Observe.

(** ** Invariants of the reachable states *)

Module Invariants.

(** While [main] has not created them, the threads have not moved. *)
Definition unstarted_from (k : nat) (s : state) : Prop :=
  (∀ j p, k ≤ j → pumps s !! j = Some p → p = pump_new)
  ∧ rpc (reduce s) = RNotStarted ∧ gpc (progress s) = GNotStarted.

Definition started_ok (s : state) : Prop :=
  match mpc s with
  | MInit => unstarted_from 0 s
  | MStartWorkers k => unstarted_from k s
  | _ => True
  end.

(** Program points between the reading of a status line and the next call
    of [write_file_to_descriptor], and those before the first call. *)
Definition quiet (c : pump_pc) : bool :=
  match c with
  | NotStarted | PStart | PFirstFile | PPutProcessed _ | PRequeueMsg _
  | PRequeue _ | PInvalidMsg _ | PCheckAbort | PNextFile => true
  | _ => false
  end.

(** Program points from which no item is taken before a status line has
    been read. *)
Definition awaiting (c : pump_pc) : bool :=
  match c with
  | PReadline | PCheckExit | PFirstFailed | PAfterLoop | PWaitExit
  | PSshClose | PDone | PExited => true
  | _ => false
  end.

(** Program points a pump can be at once it has found the flag set. *)
Definition stopping (c : pump_pc) : bool :=
  match c with
  | PReadline | PPutProcessed _ | PRequeueMsg _ | PRequeue _ | PInvalidMsg _
  | PCheckAbort | PAfterLoop | PWaitExit | PSshClose | PDone => true
  | _ => false
  end.

(** How the two streams of a session relate to its program point. *)
Definition pump_ok (p : pump) : Prop :=
  (match pc p with
   | NotStarted | PStart | PFirstFile =>
       written (stdin p) = [] ∧ stderr_read p = []
   | PReadline => written (stdin p) = [] → stderr_read p = []
   | PCheckExit => written (stdin p) ≠ []
   | PFirstFailed | PExited => stderr_read p = []
   | _ => True
   end)
  ∧ (quiet (pc p) = true → length (written (stdin p)) ≤ length (stderr_read p))
  ∧ length (written (stdin p)) ≤ length (stderr_read p) + 1.

(** Every session has read at most as many status lines as it has written
    assignments: true as long as the workers behave. *)
Definition answered_ok (p : pump) : Prop :=
  length (stderr_read p) ≤ length (written (stdin p)).

(** The counter of [progress_thread], the entries of the two bounded queues
    and the credits of the sessions never exceed the number of input files
    by more than the unsolicited status lines. *)
Definition counted (s : state) : Prop :=
  files_processed (progress s)
  + length (queue (processed_files_queue (sh s)))
  + length (queue (input_queue (sh s)))
  + sum_list (credit <$> pumps s)
  ≤ files_total s + total_unsolicited s.

(** After the reduce thread has found smr-reduce terminated. *)
Definition reduce_halted (w : list string) (s : state) : Prop :=
  popen_stdin (reduce_process (reduce s)) = w
  ∧ match mpc s with MInit | MStartWorkers _ => False | _ => True end
  ∧ match rpc (reduce s) with
    | RPoll _ => returncode (reduce_process (reduce s)) ≠ None
    | RAbort => True
    | RClose | RDone => abort_event (sh s) = true
    | _ => False
    end.

(** A session reads a status line without having written an assignment
    only if it found the flag set before its first assignment; it is then
    on its way out of the loop. *)
Definition unsolicited_ok (abort : bool) (p : pump) : Prop :=
  written (stdin p) = [] → pc p = PReadline ∨ stderr_read p ≠ [] →
  abort = true ∧ stopping (pc p) = true.

(** Program points after the loop of a pump, and the failure of its first
    assignment: the pump touches no queue any more. *)
Definition leaving (c : pump_pc) : bool :=
  match c with
  | PFirstFailed | PAfterLoop | PWaitExit | PSshClose | PDone | PExited => true
  | _ => false
  end.

(** [main] looks at the exit statuses only after it has set the flag. *)
Definition teardown_done (s : state) : Prop :=
  match mpc s with
  | MExitCodes _ | MReduceJoin => abort_event (sh s) = true
  | _ => True
  end.

(** The assignment endpoint is closed only by a pump that leaves its loop. *)
Definition open_ok (p : pump) : Prop :=
  leaving (pc p) = false → closed (stdin p) = false.

(** Every input item is in the task queue, held by a session or retired. *)
Definition conserved (file_names : list string) (s : state) : Prop :=
  queued s ++ concat (owned <$> pumps s) ≡ₚ file_names.

End Invariants.
Import Invariants.

(** ** What else is observed of an execution *)

Module Ledger.


(** The lines the [worker_stdout_read_thread]s put into the output queue
    along an execution, in the order of the puts. *)
Definition stdout_line (l : label) : list string :=
  match l with Env (WorkerStdout _ line) => [line] | _ => [] end.

Definition stdout_lines (tr : list label) : list string := concat (stdout_line <$> tr).

(** The result the reduce thread has taken from the queue and not yet
    written or dropped. *)
Definition in_flight (r : reduce_state) : list string :=
  match rpc r with RPoll x | RWrite x => [x] | _ => [] end.

(** The number of items pump [i] takes along an execution. *)
Definition takes (i : nat) (tr : list label) : nat :=
  length (filter (λ l, is_take i l = true) tr).

End Ledger.
Import Ledger.

(** ** More invariants of the reachable states *)

Module MoreInvariants.

(** Both bounded queues are created with room for every input file. *)
Definition sized (s : state) : Prop :=
  maxsize (input_queue (sh s)) = files_total s
  ∧ maxsize (processed_files_queue (sh s)) = files_total s.

(** What [main] knows when it has got past the join of the pumps. *)
Definition exited_ok (p : pump) : Prop :=
  pump_ended p = true ∧ exit_status p = Some 0%Z.

Definition exit_codes_ok (s : state) : Prop :=
  match mpc s with
  | MTeardown => Forall (λ p, pump_ended p = true) (pumps s)
  | MExitCodes k =>
      abort_event (sh s) = true
      ∧ Forall (λ p, pump_ended p = true) (pumps s)
      ∧ Forall (λ p, exit_status p = Some 0%Z) (take k (pumps s))
  | MReduceJoin => abort_event (sh s) = true ∧ Forall exited_ok (pumps s)
  | MExited code =>
      code = 0%Z →
      abort_event (sh s) = true ∧ Forall exited_ok (pumps s)
      ∧ reduce_ended (reduce s) = true
      ∧ returncode (reduce_process (reduce s)) = Some 0%Z
  | _ => True
  end.

(** What smr-reduce has been given, against the lines [L] put into the
    output queue so far. *)
Definition reduce_fed (L : list string) (s : state) : Prop :=
  match rpc (reduce s) with
  | RAbort | RClose | RDone | RCrashed =>
      popen_stdin (reduce_process (reduce s)) `prefix_of` L
  | _ =>
      L = popen_stdin (reduce_process (reduce s)) ++ in_flight (reduce s)
          ++ queue (output_queue (sh s))
  end.

(** A pump closes its ssh connection at the very end, and only when the
    flag is set or the exit status of its worker has arrived. *)
Definition closing_ok (abort : bool) (p : pump) : Prop :=
  (ssh_closed p = true → pc p = PDone)
  ∧ match pc p with
    | PSshClose | PDone => abort = true ∨ exit_status p ≠ None
    | _ => True
    end.

(** The reduce thread is past its loop only when the flag is set. *)
Definition reduce_left_loop (s : state) : Prop :=
  match rpc (reduce s) with
  | RClose | RDone => abort_event (sh s) = true
  | _ => True
  end.

(** Nothing has been started and the flag is set: the job is over before
    any session exists. *)
Definition never_started (file_names : list string) (workers : nat) (s : state) : Prop :=
  (mpc s = MInit ∨ mpc s = MExited 1)
  ∧ abort_event (sh s) = true
  ∧ pumps s = replicate workers pump_new
  ∧ queue (input_queue (sh s)) = file_names
  ∧ rpc (reduce s) = RNotStarted ∧ gpc (progress s) = GNotStarted.

(** While [main] waits for the initialization threads nothing has moved. *)
Definition initializing (file_names : list string) (workers : nat) (s : state) : Prop :=
  mpc s = MInit →
  pumps s = replicate workers pump_new
  ∧ queue (input_queue (sh s)) = file_names
  ∧ rpc (reduce s) = RNotStarted ∧ gpc (progress s) = GNotStarted.

(** The progress thread is past its loop only when the flag is set, and
    [main] has started it by then. *)
Definition progress_left_loop (s : state) : Prop :=
  gpc (progress s) = GDone →
  abort_event (sh s) = true
  ∧ match mpc s with MInit | MStartWorkers _ => False | _ => True end.

(** A pump shuts its channel down for writing, or closes its assignment
    endpoint, only on its way out of the loop. *)
Definition shut_ok (p : pump) : Prop :=
  write_shut p = true ∨ closed (stdin p) = true → leaving (pc p) = true.

End MoreInvariants.
Import MoreInvariants.

(** ** The lines exchanged with a worker *)

Module Wire.

(** [f.readline()] on what is left of a stream: the first line with its
    line break and what is left after it; at the end of the stream the
    line is the empty string. *)
Fixpoint readline (s : string) : string * string :=
  match s with
  | EmptyString => (EmptyString, EmptyString)
  | String c r =>
      if Ascii.eqb c "010" then (String c EmptyString, r)
      else let '(l, rest) := readline r in (String c l, rest)
  end.

(** [iter(f.readline, "")], for at most [fuel] calls of [readline]. *)
Fixpoint iter_readline (fuel : nat) (s : string) : list string :=
  match fuel with
  | 0 => []
  | S n =>
      let '(l, rest) := readline s in
      if is_empty l then [] else l :: iter_readline n rest
  end.

(** The bytes a pump has handed to [write] on an assignment endpoint. *)
Definition stream (lines : list string) : string := String.concat "" lines.

Fixpoint no_linebreak (s : string) : bool :=
  match s with
  | EmptyString => true
  | String c r => negb (Ascii.eqb c "010") && no_linebreak r
  end.

(** The number of failure reports of the download loop that starts with
    [n] failed attempts. *)
Definition reports (DOWNLOAD_RETRIES : Z) (n : nat) : nat :=
  Z.to_nat (Z.of_nat n + 1 - Z.max DOWNLOAD_RETRIES 1).

(** A line of the worker's input for which the download succeeds before
    [DOWNLOAD_RETRIES] failures and [MAP_FUNC] returns. *)
Definition well_served (DOWNLOAD_RETRIES : Z) (x : string * MapPy.file_env) : Prop :=
  is_empty (fst x) = false ∧ MapPy.map_func (snd x) = MapPy.Returns
  ∧ ∃ n rest, MapPy.downloads (snd x) = replicate n false ++ true :: rest
              ∧ (Z.of_nat n < DOWNLOAD_RETRIES)%Z.

End Wire.
Import Wire.

(** ** ec2.py: the set-up of an instance and the start of a worker *)

Module Setup.

(** A boto instance, as far as the sources read it. *)
Record ec2_instance : Type := mkInstance { instance_id : string; ip_address : string }.

(** ["{0}".format(status)] *)
Definition format_status (status : option string) : string := default "None" status.

Definition is_pending (status : option string) : bool :=
  match status with Some st => String.eqb st "pending" | None => false end.

Definition is_running (status : option string) : bool :=
  match status with Some st => String.eqb st "running" | None => false end.

(** [while status is None: status = instance.update()].  [updates] holds the
    values the calls of [instance.update()] return, in the order of the
    calls; the waits of two seconds between the calls are left out.  [None]:
    the loop has not ended when [updates] is used up. *)
Fixpoint first_status (updates : list (option string))
    : option (string * list (option string)) :=
  match updates with
  | [] => None
  | None :: rest => first_status rest
  | Some status :: rest => Some (status, rest)
  end.

(** [while status == "pending": status = instance.update()] *)
Fixpoint while_pending (status : option string) (updates : list (option string))
    : option (option string * list (option string)) :=
  if is_pending status then
    match updates with
    | [] => None
    | status' :: rest => while_pending status' rest
    end
  else Some (status, updates).

(** [wait_for_instance(instance)]: the lines printed, and the value returned
    with the updates that were not read, if the function returns. *)
Definition wait_for_instance (instance : ec2_instance) (updates : list (option string))
    : list string * option (bool * list (option string)) :=
  let getting := "getting status for instance " +:+ instance_id instance +:+ " ..." in
  let waiting := "waiting for instance " +:+ instance_id instance +:+ " ..." in
  match first_status updates with
  | None => ([getting], None)
  | Some (status, updates) =>
      match while_pending (Some status) updates with
      | None => ([getting; waiting], None)
      | Some (status, updates) =>
          if is_running status
          then ([getting; waiting;
                 "New instance " +:+ instance_id instance +:+ " started: "
                 +:+ ip_address instance],
                Some (true, updates))
          else ([getting; waiting;
                 "Invalid status when starting instance " +:+ instance_id instance
                 +:+ ": " +:+ format_status status],
                Some (false, updates))
      end
  end.

(** How a call ends: it returns a value, or an exception leaves it. *)
Inductive outcome (A : Type) : Type :=
  | Returned (a : A)
  | Raised.
Arguments Returned {A} a.
Arguments Raised {A}.

(** A command with what the remote side does with it: the lines of its
    standard error and its exit status. *)
Record command_run : Type :=
  mkCommandRun { command : string; stderr_lines : list string; exit_code : Z }.

(** [iter(stderr.readline, "")] *)
Fixpoint until_eof (lines : list string) : list string :=
  match lines with
  | [] => []
  | line :: rest => if is_empty line then [] else line :: until_eof rest
  end.

(** [run_command(ssh, instance, command)].  [ssh_open] tells whether the
    client has a transport: after [ssh.close()] the call [ssh.get_transport()]
    returns [None], and [open_session] on it raises [AttributeError].  The
    result is the lines printed, whether the client still has its transport,
    and the value returned: [None] is Python's [None], [Some false] is
    [False]. *)
Definition run_command (ssh_open : bool) (instance : ec2_instance) (c : command_run)
    : list string * bool * outcome (option bool) :=
  if ssh_open then
    let printed :=
      (λ line, "instance " +:+ instance_id instance +:+ " stderr: " +:+ rstrip line)
        <$> until_eof (stderr_lines c) in
    if Z.eqb (exit_code c) 0
    then (printed ++ ["instance " +:+ instance_id instance +:+ " successfully ran "
                      +:+ command c],
          true, Returned None)
    else (printed ++ ["instance " +:+ instance_id instance +:+ " invalid exit code of "
                      +:+ command c +:+ ": " +:+ pretty (exit_code c)],
          false, Returned (Some false))
  else ([], false, Raised).

(** [for command in ...: run_command(ssh, instance, command)]: the value
    [run_command] returns is not looked at.  The last component tells
    whether an exception has left the loop. *)
Fixpoint run_commands (ssh_open : bool) (instance : ec2_instance) (cs : list command_run)
    : list string * bool * bool :=
  match cs with
  | [] => ([], ssh_open, false)
  | c :: rest =>
      let '(printed, ssh_open', r) := run_command ssh_open instance c in
      match r with
      | Raised => (printed, ssh_open', true)
      | Returned _ =>
          let '(more, ssh_open'', raised) := run_commands ssh_open' instance rest in
          (printed ++ more, ssh_open'', raised)
      end
  end.

(** How [initialize_instance_thread] ends. *)
Inductive init_end : Type :=
  | NotRunning     (* wait_for_instance returned False: abort_event.set(); return *)
  | Initialized    (* the last line of the function was reached *)
  | Died           (* an exception left the thread function *)
  | StillWaiting.  (* still in wait_for_instance or in the ssh.connect loop *)

(** What [initialize_instance_thread] meets: the updates of the instance,
    the outcomes of the calls of [ssh.connect] ([true]: no exception), the
    commands of [config.AWS_EC2_INITIALIZE_SMR_COMMANDS] and the packages of
    [config.pip_requirements] with what the instance does with them, and
    whether [sftp.put] succeeds. *)
Record init_env : Type := mkInitEnv {
  updates : list (option string);
  connects : list bool;
  AWS_EC2_INITIALIZE_SMR_COMMANDS : list command_run;
  pip_requirements : option (list command_run);
  sftp_put_ok : bool
}.

(** ["sudo pip install {0}".format(package)] *)
Definition pip_install (package : command_run) : command_run :=
  mkCommandRun ("sudo pip install " +:+ command package)
               (stderr_lines package) (exit_code package).

(** [if config.pip_requirements is not None and len(...) > 0: for package in ...] *)
Definition pip_commands (env : init_env) : list command_run :=
  match pip_requirements env with
  | Some (p :: ps) => pip_install <$> (p :: ps)
  | _ => []
  end.

(** [initialize_instance_thread(config, instance, abort_event)]: the lines
    printed, whether [abort_event.set()] was called, and how the thread
    ends. *)
Definition initialize_instance_thread (instance : ec2_instance) (env : init_env)
    : list string * bool * init_end :=
  let '(printed, w) := wait_for_instance instance (updates env) in
  match w with
  | None => (printed, false, StillWaiting)
  | Some (false, _) => (printed, true, NotRunning)
  | Some (true, _) =>
      let printed :=
        printed ++ ["waiting for ssh on instance " +:+ instance_id instance +:+ " "
                    +:+ ip_address instance +:+ " ..."] in
      if existsb (λ ok : bool, ok) (connects env) then
        let '(p1, open1, raised1) :=
          run_commands true instance (AWS_EC2_INITIALIZE_SMR_COMMANDS env) in
        if raised1 : bool then (printed ++ p1, false, Died)
        else
          let '(p2, open2, raised2) := run_commands open1 instance (pip_commands env) in
          if raised2 : bool then (printed ++ p1 ++ p2, false, Died)
          else if open2 && sftp_put_ok env
          then (printed ++ p1 ++ p2
                ++ ["instance " +:+ instance_id instance +:+ " successfully initialized"],
                false, Initialized)
          else (printed ++ p1 ++ p2, false, Died)
      else (printed, false, StillWaiting)
  end.

(** [l[1:-1]] *)
Definition slice_1_m1 {A} (l : list A) : list A := drop 1 (take (length l - 1) l).

(** The arguments of smr-map on the instance:
    [sys.argv[1:-1] + [config.aws_ec2_remote_config_path]]. *)
Definition worker_argv (argv : list string) (aws_ec2_remote_config_path : string)
    : list string :=
  slice_1_m1 argv ++ [aws_ec2_remote_config_path].

(** ["smr-map {0}".format(" ".join(...))] *)
Definition worker_command (argv : list string) (aws_ec2_remote_config_path : string)
    : string :=
  "smr-map " +:+ String.concat " " (worker_argv argv aws_ec2_remote_config_path).

(** Every command the thread runs exits with status 0. *)
Definition all_succeed (cs : list command_run) : Prop :=
  Forall (λ c, exit_code c = 0%Z) cs.

End Setup.
Import Setup.

(** ** shared.py: the configuration module *)

Module Config.

(** [s.endswith(suffix)] *)
Definition endswith (s suffix : string) : bool :=
  Nat.leb (String.length suffix) (String.length s)
  && String.eqb (substring (String.length s - String.length suffix)
                           (String.length suffix) s) suffix.

(** [s[:-n]] for [n > 0] *)
Definition drop_last (n : nat) (s : string) : string :=
  substring 0 (String.length s - n) s.

(** The first lines of [get_config_module]: the name of the configuration
    file without its suffix. *)
Definition module_path (config_name : string) : string :=
  if endswith config_name ".py" then drop_last 3 config_name
  else if endswith config_name ".pyc" then drop_last 4 config_name
  else config_name.

(** The loop of [get_config_module] over [default_config.__dict__]: the
    settings the configuration module does not define are set to their
    defaults.  A module is the finite map of its attributes. *)
Definition set_default {V} (k : string) (v : V) (config : gmap string V) : gmap string V :=
  if startswith k "_" then config
  else match config !! k with
       | Some _ => config            (* hasattr(config, k) *)
       | None => <[k := v]> config   (* setattr(config, k, v) *)
       end.

Definition fill_defaults {V} (default_config config : gmap string V) : gmap string V :=
  map_fold set_default config default_config.

End Config.
Import Config.

(** ** Status lines and the assignments they answer *)

Module Solicited.

(** What a session can read from a worker that runs map.py.  [main] writes
    [+file] and [!file] only inside its loop over the lines of its standard
    input (map.py, lines 37 and 43); as long as it has read no assignment
    its standard error carries at most the usage message or a traceback.  So
    a session that has written no assignment reads no line that the master
    takes for a success or a failure; other lines may arrive at any time. *)
Definition solicited_line (p : pump) (line : string) : bool :=
  match written (stdin p), classify line with
  | [], Success _ | [], Failure _ => false
  | _, _ => true
  end.

Definition solicited (s : state) (l : label) : bool :=
  match l with
  | Pump i (Readline line) =>
      match pumps s !! i with
      | Some p => solicited_line p line
      | None => true
      end
  | _ => true
  end.

Fixpoint solicited_run (tr : list label) (s : state) : bool :=
  match tr with
  | [] => true
  | l :: tr' =>
      solicited s l &&
      match step l s with
      | Some s' => solicited_run tr' s'
      | None => true
      end
  end.

(** The counter of [progress_thread], the entries of the two bounded queues
    and the credits of the sessions never exceed the number of input
    files. *)
Definition counted_exactly (s : state) : Prop :=
  files_processed (progress s)
  + length (queue (processed_files_queue (sh s)))
  + length (queue (input_queue (sh s)))
  + sum_list (credit <$> pumps s)
  ≤ files_total s.

End Solicited.
Import Solicited.

(** ** The reduce thread at a broken pipe *)

Module Broken.

(** After smr-reduce has terminated between the test [poll()] of the reduce
    thread and its write: the thread is about to write the result [x] to a
    broken pipe, or the [IOError] has ended it. *)
Definition reduce_broken (w : list string) (x : string) (s : state) : Prop :=
  popen_stdin (reduce_process (reduce s)) = w
  ∧ match mpc s with MInit | MStartWorkers _ => False | _ => True end
  ∧ match rpc (reduce s) with
    | RWrite y => y = x ∧ returncode (reduce_process (reduce s)) ≠ None
    | RCrashed => True
    | _ => False
    end.

End Broken.
Import Broken.

(** * Properties *)

(** ** Strings *)

Section Strings.







End Strings.

(** ** Executions and single steps *)

Section Runs.

Lemma run_app (t1 t2 : list label) (s : state) :
  run (t1 ++ t2) s = run t1 s ≫= run t2.
Proof.
  revert s. induction t1 as [|l t1 IH]; intros s; simpl; [reflexivity|].
  destruct (step l s) as [s1|]; simpl; [apply IH | reflexivity].
Qed.

Lemma run_cons_inv l tr s s' :
  run (l :: tr) s = Some s' → ∃ s1, step l s = Some s1 ∧ run tr s1 = Some s'.
Proof. simpl. destruct (step l s) as [s1|]; simpl; [eauto | discriminate]. Qed.

Lemma run_app_inv t1 t2 s s' :
  run (t1 ++ t2) s = Some s' → ∃ s1, run t1 s = Some s1 ∧ run t2 s1 = Some s'.
Proof. rewrite run_app. destruct (run t1 s) as [s1|]; simpl; [eauto | discriminate]. Qed.

(** A property kept by every step holds along every execution. *)
Lemma run_invariant (P : state → Prop) :
  (∀ l s s', P s → step l s = Some s' → P s') →
  ∀ tr s s', P s → run tr s = Some s' → P s'.
Proof.
  intros Hstep tr. induction tr as [|l tr IH]; intros s s' HP Hrun.
  - simpl in Hrun. congruence.
  - apply run_cons_inv in Hrun as (s1 & H1 & H2). eauto.
Qed.

End Runs.

(** Case analysis of one step. *)
Ltac inv_pump H :=
  unfold pump_step, call_wfd, write_file_to_descriptor in H;
  repeat (simplify_option_eq; try case_match); simplify_option_eq.

Ltac inv_thread H :=
  unfold progress_step, reduce_step, main_step, env_step in H;
  repeat (simplify_option_eq; try case_match); simplify_option_eq.

Section Steps.

Lemma step_pump_inv i e s s' :
  step (Pump i e) s = Some s' →
  ∃ p sh' p', pumps s !! i = Some p ∧ pump_step e (sh s) p = Some (sh', p')
              ∧ s' = set_pumps (<[i := p']> (pumps s)) (set_sh sh' s).
Proof.
  unfold step. intros H. simplify_option_eq.
  destruct (pump_step e (sh s) _) as [[sh' p']|] eqn:E; simplify_option_eq. eauto 10.
Qed.

Lemma init_put_all (file_names : list string) (q : Queue) :
  maxsize q = length (queue q) + length file_names →
  put_all q file_names = Some (mkQueue (maxsize q) (queue q ++ file_names)).
Proof.
  revert q. induction file_names as [|f r IH]; intros [m l] Hm; simpl in *.
  - rewrite app_nil_r. reflexivity.
  - unfold put, full. simpl.
    destruct (Nat.eqb_spec (length l) m) as [E|E]; [lia|].
    rewrite andb_false_r. simpl. rewrite IH; simpl.
    + rewrite <- app_assoc. reflexivity.
    + rewrite length_app. simpl. lia.
Qed.

Lemma init_input_queue file_names workers :
  input_queue (sh (init file_names workers)) = mkQueue (length file_names) file_names.
Proof.
  unfold init. cbn [sh input_queue].
  rewrite init_put_all; [reflexivity|]. simpl. reflexivity.
Qed.

(** The flag is never reset. *)
Lemma step_abort_mono l s s' :
  step l s = Some s' → abort_event (sh s) = true → abort_event (sh s') = true.
Proof.
  intros H Ha. destruct l as [i e|e|e|e|e]; simpl in H.
  - simplify_option_eq. destruct (pump_step e (sh s) _) as [[sh' p']|] eqn:E; simplify_option_eq.
    inv_pump E; done.
  - destruct (progress_step e (sh s) _) as [[sh' g]|] eqn:E; simplify_option_eq.
    inv_thread E; done.
  - destruct (reduce_step e (sh s) _) as [[sh' g]|] eqn:E; simplify_option_eq.
    inv_thread E; done.
  - inv_thread H; done.
  - inv_thread H; done.
Qed.

End Steps.

Section Inversion.

Lemma step_progress_inv e s s' :
  step (Progress e) s = Some s' →
  ∃ sh' g, progress_step e (sh s) (progress s) = Some (sh', g)
           ∧ s' = set_progress g (set_sh sh' s).
Proof.
  simpl. destruct (progress_step e (sh s) _) as [[sh' g]|]; intros; simplify_option_eq; eauto.
Qed.

Lemma step_reduce_inv e s s' :
  step (Reduce e) s = Some s' →
  ∃ sh' r, reduce_step e (sh s) (reduce s) = Some (sh', r)
           ∧ s' = set_reduce r (set_sh sh' s).
Proof.
  simpl. destruct (reduce_step e (sh s) _) as [[sh' g]|]; intros; simplify_option_eq; eauto.
Qed.

(** The steps of [main]: it starts threads, sets the flag, or only moves on. *)
Lemma step_main_inv e s s' :
  step (Main e) s = Some s' →
  (∃ k p, e = StartWorker true ∧ mpc s = MStartWorkers k ∧ pumps s !! k = Some p
          ∧ s' = set_mpc (MStartWorkers (S k))
                   (set_pumps (<[k := set_pc PStart p]> (pumps s)) s))
  ∨ (∃ k, e = StartThreads ∧ mpc s = MStartWorkers k ∧ pumps s !! k = None
          ∧ s' = set_mpc MJoin
                   (set_reduce (set_rpc RCheck (reduce s))
                      (set_progress (mkProgress GCheck (files_processed (progress s))) s)))
  ∨ (∃ c m, sets_abort (Main e) = Some c ∧ m ≠ MInit ∧ (∀ k, m ≠ MStartWorkers k)
          ∧ s' = set_mpc m (set_sh (abort_event_set (sh s)) s))
  ∨ (∃ m, sets_abort (Main e) = None ∧ m ≠ MInit
     ∧ (∀ k, m = MStartWorkers k → mpc s = MInit ∧ k = 0)
     ∧ s' = set_mpc m s).
Proof.
  simpl. unfold main_step. intros H.
  destruct (mpc s) eqn:Em, e; simplify_option_eq; try done.
  - right; right; right. eexists. split_and!; [| | |reflexivity]; [done| |].
    + destruct (abort_event (sh s)); done.
    + intros k Hk. destruct (abort_event (sh s)); by simplify_eq.
  - destruct connected; simplify_option_eq.
    + left. eauto 10.
    + right; right; left. exists ConnectFailure. eexists.
      split_and!; [| | |reflexivity]; done.
  - destruct (pumps s !! k) eqn:E; simplify_option_eq. right; left. eauto.
  - right; right; left. exists UserInterrupt. eexists.
    split_and!; [| | |reflexivity]; done.
  - right; right; right. destruct (forallb _ _); simplify_option_eq.
    eexists. split_and!; [| | |reflexivity]; done.
  - right; right; left. exists EndOfJob. eexists.
    split_and!; [| | |reflexivity]; done.
  - right; right; right. destruct (option_Z_eqb _ _); simplify_option_eq.
    eexists. split_and!; [| | |reflexivity]; destruct (Z.eqb code 0); done.
  - right; right; right. destruct (pumps s !! k); simplify_option_eq.
    eexists. split_and!; [| | |reflexivity]; done.
  - right; right; right. destruct (_ && _); simplify_option_eq.
    eexists. split_and!; [| | |reflexivity]; done.
Qed.

(** The steps of the environment. *)
Lemma step_env_inv e s s' :
  step (Env e) s = Some s' →
  (e = InstanceNotRunning ∧ mpc s = MInit ∧ s' = set_sh (abort_event_set (sh s)) s)
  ∨ (∃ i code p, e = WorkerExit i code ∧ pumps s !! i = Some p ∧ pc p ≠ NotStarted
       ∧ exit_status p = None
       ∧ s' = set_pumps (<[i := set_exit_status code p]> (pumps s)) s)
  ∨ (∃ i line q, e = WorkerStdout i line ∧ put (output_queue (sh s)) line = Some q
       ∧ s' = set_sh (set_output_queue q (sh s)) s)
  ∨ (∃ code, e = ReducerExit code ∧ rpc (reduce s) ≠ RNotStarted
       ∧ returncode (reduce_process (reduce s)) = None
       ∧ s' = set_reduce
                (mkReduce (rpc (reduce s))
                   (mkPopen (popen_stdin (reduce_process (reduce s)))
                      (popen_stdin_closed (reduce_process (reduce s))) (Some code))) s).
Proof.
  simpl. unfold env_step. intros H. destruct e; simplify_option_eq.
  - destruct (mpc s) eqn:Em; simplify_option_eq. left. done.
  - right; left. exists i, code.
    match goal with Hp : pumps s !! i = Some ?p |- _ => exists p end.
    destruct (pc _) eqn:Ep, (exit_status _) eqn:Ex; simplify_option_eq; repeat split; done.
  - right; right; left.
    destruct (pc _) eqn:Ep; simplify_option_eq;
      destruct (is_empty line); simplify_option_eq; eauto 10.
  - right; right; right. exists code.
    destruct (rpc (reduce s)) eqn:Er, (returncode _) eqn:Ex; simplify_option_eq;
      repeat split; done.
Qed.

End Inversion.

Section Started.

Lemma pump_new_stuck e sh0 : pump_step e sh0 pump_new = None.
Proof. destruct e; reflexivity. Qed.

Lemma init_started_ok file_names workers : started_ok (init file_names workers).
Proof.
  unfold started_ok, init, unstarted_from; simpl. split; [|done].
  intros j p _ H. apply lookup_replicate in H as [-> _]. reflexivity.
Qed.

Lemma started_ok_phase s s' :
  mpc s' = mpc s → rpc (reduce s') = rpc (reduce s) → gpc (progress s') = gpc (progress s) →
  (∀ k, mpc s = MInit ∨ (∃ k', mpc s = MStartWorkers k' ∧ k' ≤ k) →
        ∀ j q, k ≤ j → pumps s' !! j = Some q → q = pump_new) →
  started_ok s → started_ok s'.
Proof.
  unfold started_ok, unstarted_from. intros -> -> -> Hp.
  destruct (mpc s) eqn:Em; try done; intros (Hun & ? & ?).
  - split; [|done]. apply Hp. by left.
  - split; [|done]. apply Hp. right. eauto.
Qed.

Lemma started_ok_unstarted s k :
  started_ok s → mpc s = MInit ∨ (∃ k', mpc s = MStartWorkers k' ∧ k' ≤ k) →
  (∀ j q, k ≤ j → pumps s !! j = Some q → q = pump_new)
  ∧ rpc (reduce s) = RNotStarted ∧ gpc (progress s) = GNotStarted.
Proof.
  unfold started_ok, unstarted_from.
  intros Hok [Em|(k' & Em & Hk)]; rewrite Em in Hok; destruct Hok as (Hun & ? & ?);
    (split; [|done]); intros j q Hj; apply Hun; lia.
Qed.

Lemma step_started_ok l s s' : started_ok s → step l s = Some s' → started_ok s'.
Proof.
  intros Hok H. destruct l as [i e|e|e|e|e].
  - apply step_pump_inv in H as (p & sh' & p' & Hp & Hstep & ->).
    eapply (started_ok_phase s); [reflexivity|reflexivity|reflexivity| |exact Hok].
      simpl. intros k Hph j q Hj Hq.
    destruct (started_ok_unstarted s k Hok Hph) as (Hun & _).
    destruct (decide (i = j)) as [->|Hne].
    + rewrite (Hun _ _ Hj Hp) in Hstep. rewrite pump_new_stuck in Hstep. discriminate.
    + rewrite list_lookup_insert_ne in Hq by done. eauto.
  - apply step_progress_inv in H as (sh' & g & Hstep & ->).
    unfold started_ok in *. simpl.
    destruct (mpc s); try done; destruct Hok as (_ & _ & Hg);
      unfold progress_step in Hstep; rewrite Hg in Hstep; discriminate.
  - apply step_reduce_inv in H as (sh' & r & Hstep & ->).
    unfold started_ok in *. simpl.
    destruct (mpc s); try done; destruct Hok as (_ & Hr & _);
      unfold reduce_step in Hstep; rewrite Hr in Hstep; discriminate.
  - apply step_main_inv in H
      as [(k & p & -> & Em & Hp & ->)|[(k & -> & Em & Hp & ->)
         |[(c & m & _ & Hm & Hk & ->)|(m & _ & Hm & Hk & ->)]]].
    + unfold started_ok, unstarted_from in *. simpl. rewrite Em in Hok.
      destruct Hok as (Hun & ? & ?). split; [|done].
      intros j q Hj Hq. rewrite list_lookup_insert_ne in Hq by lia.
      apply (Hun j q); [lia|done].
    + done.
    + unfold started_ok. simpl. destruct m; try done. by destruct (Hk k).
    + unfold started_ok in *. simpl. destruct m; try done.
      destruct (Hk k eq_refl) as [Em ->]. rewrite Em in Hok. exact Hok.
  - apply step_env_inv in H
      as [(-> & Em & ->)|[(i & code & p & -> & Hp & Hpc & _ & ->)
         |[(i & line & q & -> & Hq & ->)|(code & -> & Hr & _ & ->)]]].
    + exact Hok.
    + eapply (started_ok_phase s); [reflexivity|reflexivity|reflexivity| |exact Hok].
      simpl. intros k Hph j q Hj Hq.
      destruct (started_ok_unstarted s k Hok Hph) as (Hun & _).
      destruct (decide (i = j)) as [->|Hne].
      * rewrite (Hun _ _ Hj Hp) in Hpc. done.
      * rewrite list_lookup_insert_ne in Hq by done. eauto.
    + exact Hok.
    + unfold started_ok, unstarted_from in *. simpl.
      destruct (mpc s); try done; destruct Hok as (_ & ? & _); done.
Qed.

Lemma run_started_ok tr file_names workers s :
  run tr (init file_names workers) = Some s → started_ok s.
Proof.
  apply (run_invariant started_ok); [intros; eapply step_started_ok; eauto|].
  apply init_started_ok.
Qed.

(** [start_worker] creates a thread that has not run. *)
Lemma started_ok_next_worker s k p :
  started_ok s → mpc s = MStartWorkers k → pumps s !! k = Some p → p = pump_new.
Proof.
  intros Hok Em Hp. unfold started_ok in Hok. rewrite Em in Hok.
  destruct Hok as (Hun & _). eauto.
Qed.

End Started.

Section Streams.

Lemma pump_step_ok e sh0 p sh' p' :
  pump_ok p → pump_step e sh0 p = Some (sh', p') → pump_ok p'.
Proof.
  unfold pump_ok. intros (Ha & Hq & Hle) H.
  inv_pump H; simpl in *; rewrite ?length_app in *; simpl in *;
    repeat match goal with
           | Hx : _ ∧ _ |- _ => destruct Hx
           | Hx : ?w = [] |- _ => rewrite Hx in *; simpl in *
           end;
    repeat split; intros; try done; try lia;
    try (specialize (Hq eq_refl)); try lia;
    try (destruct (written _); simpl in *; done).
Qed.

Lemma set_exit_status_ok c p : pump_ok p → pump_ok (set_exit_status c p).
Proof. intros H. exact H. Qed.

Lemma init_pumps_ok file_names workers :
  Forall pump_ok (pumps (init file_names workers)).
Proof.
  simpl. apply Forall_replicate. unfold pump_ok. simpl. repeat split; intros; lia.
Qed.

Lemma step_pumps_ok l s s' :
  started_ok s → Forall pump_ok (pumps s) → step l s = Some s' → Forall pump_ok (pumps s').
Proof.
  intros Hst Hok H. destruct l as [i e|e|e|e|e].
  - apply step_pump_inv in H as (p & sh' & p' & Hp & Hstep & ->). simpl.
    apply Forall_insert; [done|].
    eapply pump_step_ok; [|exact Hstep]. eapply Forall_lookup_1; eauto.
  - apply step_progress_inv in H as (sh' & g & Hstep & ->). done.
  - apply step_reduce_inv in H as (sh' & r & Hstep & ->). done.
  - apply step_main_inv in H
      as [(k & p & -> & Em & Hp & ->)|[(k & -> & Em & Hp & ->)
         |[(c & m & _ & Hm & Hk & ->)|(m & _ & Hm & Hk & ->)]]]; try done.
    simpl. apply Forall_insert; [done|].
    rewrite (started_ok_next_worker s k p Hst Em Hp).
    unfold pump_ok. simpl. repeat split; intros; lia.
  - apply step_env_inv in H
      as [(-> & Em & ->)|[(i & code & p & -> & Hp & Hpc & _ & ->)
         |[(i & line & q & -> & Hq & ->)|(code & -> & Hr & _ & ->)]]]; try done.
    simpl. apply Forall_insert; [done|]. apply set_exit_status_ok.
    eapply Forall_lookup_1; eauto.
Qed.

(** Both invariants hold in every reachable state. *)
Lemma run_pumps_ok tr file_names workers s :
  run tr (init file_names workers) = Some s → started_ok s ∧ Forall pump_ok (pumps s).
Proof.
  apply (run_invariant (λ s, started_ok s ∧ Forall pump_ok (pumps s))).
  - intros l s0 s1 [H1 H2] Hs. split; [eapply step_started_ok | eapply step_pumps_ok]; eauto.
  - split; [apply init_started_ok | apply init_pumps_ok].
Qed.

End Streams.

Section Alternation.

Lemma pump_step_take f io sh0 p sh' p' :
  pump_step (Take f io) sh0 p = Some (sh', p') →
  awaiting (pc p) = false ∧ awaiting (pc p') = true.
Proof. intros H. inv_pump H; simpl; done. Qed.

Lemma pump_step_awaiting e sh0 p sh' p' :
  pump_step e sh0 p = Some (sh', p') → awaiting (pc p) = true →
  (∀ line, e = Readline line → is_empty line = true) →
  awaiting (pc p') = true.
Proof.
  intros H Ha He. inv_pump H; simpl in *; try done;
    specialize (He _ eq_refl); congruence.
Qed.

(** What a step that is neither a take nor a status line of pump [i] does to
    pump [i]: nothing, or a move within the program points that wait for a
    status line. *)
Lemma step_keeps_awaiting i l s s' :
  started_ok s → step l s = Some s' →
  is_take i l = false → is_status i l = false →
  (∀ p, pumps s !! i = Some p → awaiting (pc p) = true) →
  ∀ p, pumps s' !! i = Some p → awaiting (pc p) = true.
Proof.
  intros Hst H Ht Hs Haw p' Hp'. destruct l as [j e|e|e|e|e].
  - apply step_pump_inv in H as (p & sh' & q & Hp & Hstep & ->). simpl in Hp'.
    destruct (decide (j = i)) as [->|Hne].
    + rewrite list_lookup_insert_eq in Hp' by (eapply lookup_lt_Some; eauto).
      simplify_eq. eapply pump_step_awaiting; eauto.
      intros line ->. simpl in Hs. rewrite Nat.eqb_refl in Hs.
      destruct (is_empty line); done.
    + rewrite list_lookup_insert_ne in Hp' by done. eauto.
  - apply step_progress_inv in H as (sh' & g & Hstep & ->). eauto.
  - apply step_reduce_inv in H as (sh' & r & Hstep & ->). eauto.
  - apply step_main_inv in H
      as [(k & p & -> & Em & Hp & ->)|[(k & -> & Em & Hp & ->)
         |[(c & m & _ & Hm & Hk & ->)|(m & _ & Hm & Hk & ->)]]]; eauto.
    simpl in Hp'. destruct (decide (k = i)) as [->|Hne].
    + specialize (Haw _ Hp). rewrite (started_ok_next_worker s i p Hst Em Hp) in Haw. done.
    + rewrite list_lookup_insert_ne in Hp' by done. eauto.
  - apply step_env_inv in H
      as [(-> & Em & ->)|[(j & code & p & -> & Hp & Hpc & _ & ->)
         |[(j & line & q & -> & Hq & ->)|(code & -> & Hr & _ & ->)]]]; eauto.
    simpl in Hp'. destruct (decide (j = i)) as [->|Hne].
    + rewrite list_lookup_insert_eq in Hp' by (eapply lookup_lt_Some; eauto).
      simplify_eq. simpl. eauto.
    + rewrite list_lookup_insert_ne in Hp' by done. eauto.
Qed.

Lemma alternates_run i tr :
  ∀ s s' o, started_ok s → run tr s = Some s' →
    (o = true → ∀ p, pumps s !! i = Some p → awaiting (pc p) = true) →
    alternates i o tr = true.
Proof.
  induction tr as [|l tr IH]; intros s s' o Hst Hrun Ho; [reflexivity|].
  apply run_cons_inv in Hrun as (s1 & Hstep & Hrun).
  pose proof (step_started_ok _ _ _ Hst Hstep) as Hst1.
  cbn [alternates]. destruct (is_take i l) eqn:Ht.
  - destruct l as [j e| | | |]; try done. destruct e; try done.
    apply Nat.eqb_eq in Ht as <-.
    apply step_pump_inv in Hstep as (p & sh' & p' & Hp & Hps & ->).
    apply pump_step_take in Hps as [Hno Haw].
    destruct o.
    + rewrite (Ho eq_refl _ Hp) in Hno. done.
    + simpl. eapply IH; [exact Hst1|exact Hrun|]. intros _ q Hq. simpl in Hq.
      rewrite list_lookup_insert_eq in Hq by (eapply lookup_lt_Some; eauto). by simplify_eq.
  - destruct (is_status i l) eqn:Hs.
    + eapply IH; [exact Hst1|exact Hrun|]. done.
    + eapply IH; [exact Hst1|exact Hrun|]. intros Hot.
      exact (step_keeps_awaiting i l s s1 Hst Hstep Ht Hs (Ho Hot)).
Qed.

End Alternation.

(** C2: within one session, assignments and status lines alternate.  In
    every execution, once pump [i] has taken an item and handed it to the
    assignment endpoint, it does so again only after it has read a status
    line, whatever the status lines contain; hence a session never has
    written more than one assignment beyond the status lines it has read. *)
Theorem C2_assignments_alternate (file_names : list string) (workers : nat)
    (tr : list label) (s : state) (i : nat) :
  run tr (init file_names workers) = Some s →
  alternates i false tr = true
  ∧ ∀ p, pumps s !! i = Some p →
         length (written (stdin p)) ≤ length (stderr_read p) + 1.
Proof.
  intros Hrun. split.
  - eapply alternates_run; [apply init_started_ok|exact Hrun|done].
  - intros p Hp. destruct (run_pumps_ok _ _ _ _ Hrun) as [_ Hok].
    pose proof (Forall_lookup_1 _ _ _ _ Hok Hp) as (_ & _ & Hle). exact Hle.
Qed.


Lemma C2_witness :
  let tr := boot 1 ++ [Pump 0 (IsSet false); Pump 0 (Take "a" IoOk);
                       Pump 0 (Readline (fmt_line "+a")); Pump 0 PutProcessed;
                       Pump 0 (IsSet false); Pump 0 (Take "b" IoOk)] in
  ∃ s, run tr (init ["a"; "b"] 1) = Some s
       ∧ alternates 0 false tr = true
       ∧ ∀ p, pumps s !! 0 = Some p →
              length (written (stdin p)) ≤ length (stderr_read p) + 1.
Proof.
  intros tr. eexists. split; [vm_compute; reflexivity|].
  apply (C2_assignments_alternate ["a"; "b"] 1 tr). vm_compute; reflexivity.
Defined.

Section Suppression.

Lemma pump_step_sees_abort sh0 p sh' p' :
  pump_step (IsSet true) sh0 p = Some (sh', p') →
  abort_event sh' = true ∧ stopping (pc p') = true.
Proof.
  intros H. inv_pump H; simpl;
    repeat match goal with Hx : Bool.eqb true _ = true |- _ =>
             apply Bool.eqb_prop in Hx; symmetry in Hx end; done.
Qed.

Lemma pump_step_stopping e sh0 p sh' p' :
  pump_step e sh0 p = Some (sh', p') → abort_event sh0 = true →
  stopping (pc p) = true →
  stopping (pc p') = true ∧ (∀ f io, e ≠ Take f io).
Proof.
  intros H Ha Hs. inv_pump H; simpl in *; try done;
    repeat match goal with
           | Hx : Bool.eqb _ _ = true |- _ => apply Bool.eqb_prop in Hx
           end; try congruence; done.
Qed.

Lemma step_keeps_stopping i l s s' :
  started_ok s → step l s = Some s' → abort_event (sh s) = true →
  (∀ p, pumps s !! i = Some p → stopping (pc p) = true) →
  is_take i l = false ∧ ∀ p, pumps s' !! i = Some p → stopping (pc p) = true.
Proof.
  intros Hst H Ha Hstop. destruct l as [j e|e|e|e|e].
  - apply step_pump_inv in H as (p & sh' & q & Hp & Hstep & ->). simpl.
    destruct (decide (j = i)) as [->|Hne].
    + destruct (pump_step_stopping _ _ _ _ _ Hstep Ha (Hstop _ Hp)) as [Hq Hne].
      split.
      * destruct e; try done. by destruct (Hne file_name io).
      * intros p' Hp'.
        rewrite list_lookup_insert_eq in Hp' by (eapply lookup_lt_Some; eauto).
        by simplify_eq.
    + split.
      * destruct e; try done. apply Nat.eqb_neq. done.
      * intros p' Hp'. rewrite list_lookup_insert_ne in Hp' by done. eauto.
  - apply step_progress_inv in H as (sh' & g & Hstep & ->). eauto.
  - apply step_reduce_inv in H as (sh' & r & Hstep & ->). eauto.
  - split; [done|].
    apply step_main_inv in H
      as [(k & p & -> & Em & Hp & ->)|[(k & -> & Em & Hp & ->)
         |[(c & m & _ & Hm & Hk & ->)|(m & _ & Hm & Hk & ->)]]]; eauto.
    simpl. intros p' Hp'. destruct (decide (k = i)) as [->|Hne].
    + specialize (Hstop _ Hp).
      rewrite (started_ok_next_worker s i p Hst Em Hp) in Hstop. done.
    + rewrite list_lookup_insert_ne in Hp' by done. eauto.
  - split; [done|].
    apply step_env_inv in H
      as [(-> & Em & ->)|[(j & code & p & -> & Hp & Hpc & _ & ->)
         |[(j & line & q & -> & Hq & ->)|(code & -> & Hr & _ & ->)]]]; eauto.
    simpl. intros p' Hp'. destruct (decide (j = i)) as [->|Hne].
    + rewrite list_lookup_insert_eq in Hp' by (eapply lookup_lt_Some; eauto).
      simplify_eq. simpl. eauto.
    + rewrite list_lookup_insert_ne in Hp' by done. eauto.
Qed.

Lemma no_take_while_stopping i tr :
  ∀ s s', started_ok s → run tr s = Some s' → abort_event (sh s) = true →
    (∀ p, pumps s !! i = Some p → stopping (pc p) = true) →
    forallb (λ l, negb (is_take i l)) tr = true.
Proof.
  induction tr as [|l tr IH]; intros s s' Hst Hrun Ha Hstop; [reflexivity|].
  apply run_cons_inv in Hrun as (s1 & Hstep & Hrun).
  destruct (step_keeps_stopping i l s s1 Hst Hstep Ha Hstop) as [Hl Hstop1].
  cbn [forallb]. rewrite Hl. simpl.
  eapply IH; [eapply step_started_ok; eauto|exact Hrun| |exact Hstop1].
  eapply step_abort_mono; eauto.
Qed.

End Suppression.

(** C3: once a pump has found the abort flag set, at its first test before
    the loop or at the test that follows a status line, it never again takes
    an item from the task queue, so no take of that pump is followed by a
    write to its assignment endpoint.  This holds for a pump that was in the
    middle of an exchange when the flag was set: it finds the flag set at
    its next test. *)
Theorem C3_no_take_after_abort_seen (file_names : list string) (workers : nat)
    (before after : list label) (i : nat) (s : state) :
  run (before ++ Pump i (IsSet true) :: after) (init file_names workers) = Some s →
  forallb (λ l, negb (is_take i l)) after = true.
Proof.
  intros Hrun. apply run_app_inv in Hrun as (s1 & H1 & Hrun).
  apply run_cons_inv in Hrun as (s2 & Hstep & H2).
  pose proof (run_started_ok _ _ _ _ H1) as Hst1.
  pose proof (step_started_ok _ _ _ Hst1 Hstep) as Hst2.
  apply step_pump_inv in Hstep as (p & sh' & p' & Hp & Hps & ->).
  apply pump_step_sees_abort in Hps as [Ha Hs].
  eapply no_take_while_stopping; [exact Hst2|exact H2|exact Ha|].
  simpl. intros q Hq.
  rewrite list_lookup_insert_eq in Hq by (eapply lookup_lt_Some; eauto). by simplify_eq.
Qed.

Lemma C3_witness :
  let before := boot 2 ++ [Pump 0 (IsSet false); Pump 0 (Take "a" IoOk);
                           Pump 1 (IsSet false); Pump 1 (Take "b" IoOk);
                           Reduce (RIsSet false); Env (WorkerStdout 0 "x");
                           Reduce (RGot "x"); Env (ReducerExit 1);
                           Reduce (RPolled (Some 1%Z)); Reduce RAbortSet;
                           Pump 0 (Readline (fmt_line "+a")); Pump 0 PutProcessed] in
  let after := [Pump 1 (Readline (fmt_line "!b")); Pump 1 AddMessage; Pump 1 Requeue;
                Pump 1 (IsSet true); Pump 0 (IsSet true); Pump 0 SshClose] in
  ∃ s, run (before ++ Pump 0 (IsSet true) :: after) (init ["a"; "b"; "c"] 2) = Some s
       ∧ queue (input_queue (sh s)) = ["c"; "b"]
       ∧ forallb (λ l, negb (is_take 0 l)) after = true.
Proof.
  intros before after. eexists. split; [vm_compute; reflexivity|].
  split; [reflexivity|].
  eapply (C3_no_take_after_abort_seen ["a"; "b"; "c"] 2 before after 0).
  vm_compute; reflexivity.
Defined.

Section Counting.

Lemma sum_list_insert {A} (f : A → nat) (l : list A) (i : nat) (x y : A) :
  l !! i = Some x →
  sum_list (f <$> <[i := y]> l) + f x = sum_list (f <$> l) + f y.
Proof.
  revert i. induction l as [|a l IH]; intros [|i] H; simplify_eq/=; [lia|].
  specialize (IH _ H). lia.
Qed.

Lemma pump_step_unsolicited_ok e sh0 p sh' p' :
  pump_ok p → unsolicited_ok (abort_event sh0) p →
  pump_step e sh0 p = Some (sh', p') → unsolicited_ok (abort_event sh') p'.
Proof.
  unfold unsolicited_ok. intros (Ha & _ & _) Hu H Hw Hpre.
  assert (written (stdin p) = [] → pc p = PReadline ∨ stderr_read p ≠ [] →
          abort_event sh' = true ∧ stopping (pc p') = true) as Hold.
  { intros Hw0 Hpre0. destruct (Hu Hw0 Hpre0) as [Hab Hst].
    destruct (pump_step_stopping _ _ _ _ _ H Hab Hst) as [Hst' _].
    split; [|exact Hst'].
    clear -H Hab. inv_pump H; done. }
  inv_pump H; simpl in *;
    repeat match goal with
           | Hx : Bool.eqb _ _ = true |- _ => apply Bool.eqb_prop in Hx
           | Hx : _ ∧ _ |- _ => destruct Hx
           end;
    try (by destruct (written _));
    try (split; done);
    destruct Hpre as [Hpre|Hpre]; try done;
    try (apply Hold; [done|]; first [by left | by right]);
    try (split; done).
Qed.


Lemma init_unsolicited_ok file_names workers :
  Forall (unsolicited_ok (abort_event (sh (init file_names workers))))
         (pumps (init file_names workers)).
Proof.
  simpl. apply Forall_replicate. unfold unsolicited_ok. simpl.
  intros _ [?|?]; done.
Qed.

Lemma unsolicited_ok_mono (a a' : bool) p :
  (a = true → a' = true) → unsolicited_ok a p → unsolicited_ok a' p.
Proof. unfold unsolicited_ok. intros Hm Hu Hw Hpre. destruct (Hu Hw Hpre). auto. Qed.

Lemma step_unsolicited_ok l s s' :
  started_ok s → Forall pump_ok (pumps s) →
  Forall (unsolicited_ok (abort_event (sh s))) (pumps s) →
  step l s = Some s' →
  Forall (unsolicited_ok (abort_event (sh s'))) (pumps s').
Proof.
  intros Hst Hok Hu H.
  pose proof (step_abort_mono _ _ _ H) as Hmono.
  assert (Forall (unsolicited_ok (abort_event (sh s'))) (pumps s)) as Hu'.
  { eapply Forall_impl; [exact Hu|]. intros p. by apply unsolicited_ok_mono. }
  destruct l as [i e|e|e|e|e].
  - apply step_pump_inv in H as (p & sh' & p' & Hp & Hstep & ->). simpl in *.
    apply Forall_insert; [done|].
    eapply pump_step_unsolicited_ok; [| |exact Hstep]; eapply Forall_lookup_1; eauto.
  - apply step_progress_inv in H as (sh' & g & Hstep & ->). done.
  - apply step_reduce_inv in H as (sh' & r & Hstep & ->). done.
  - apply step_main_inv in H
      as [(k & p & -> & Em & Hp & ->)|[(k & -> & Em & Hp & ->)
         |[(c & m & _ & Hm & Hk & ->)|(m & _ & Hm & Hk & ->)]]]; try done.
    simpl in *. apply Forall_insert; [done|].
    rewrite (started_ok_next_worker s k p Hst Em Hp).
    unfold unsolicited_ok. simpl. intros _ [?|?]; done.
  - apply step_env_inv in H
      as [(-> & Em & ->)|[(i & code & p & -> & Hp & Hpc & _ & ->)
         |[(i & line & q & -> & Hq & ->)|(code & -> & Hr & _ & ->)]]]; try done.
    simpl in *. apply Forall_insert; [done|].
    pose proof (Forall_lookup_1 _ _ _ _ Hu' Hp) as Hup. exact Hup.
Qed.

Lemma get_length q f q' : get q = Some (f, q') → length (queue q) = S (length (queue q')).
Proof. unfold get. destruct (queue q) eqn:E; intros; simplify_eq. reflexivity. Qed.

Lemma put_length q f q' : put q f = Some q' → length (queue q') = S (length (queue q)).
Proof.
  unfold put. destruct (full q); intros; simplify_eq. simpl.
  rewrite length_app. simpl. lia.
Qed.

(** What one step of a pump does to the quantities added up in [counted]. *)
Lemma pump_step_counted e sh0 p sh' p' :
  pump_ok p → unsolicited_ok (abort_event sh0) p →
  pump_step e sh0 p = Some (sh', p') →
  length (queue (processed_files_queue sh')) + length (queue (input_queue sh'))
  + credit p' + unsolicited p
  ≤ length (queue (processed_files_queue sh0)) + length (queue (input_queue sh0))
    + credit p + unsolicited p'.
Proof.
  unfold pump_ok, unsolicited_ok, credit, unsolicited.
  intros (Ha & _ & _) Hu H.
  inv_pump H; simpl in *;
    repeat match goal with
           | Hx : get _ = Some _ |- _ => apply get_length in Hx
           | Hx : put _ _ = Some _ |- _ => apply put_length in Hx
           | Hx : _ ∧ _ |- _ => destruct Hx
           end;
    simpl in *;
    destruct (written (stdin p)) eqn:Ew, (stderr_read p) eqn:Er; simpl in *;
    try lia; try done;
    try (specialize (Ha eq_refl); done);
    try (destruct (Hu eq_refl) as [? ?]; [first [by left|by right]|done]);
    try (destruct l; simpl; lia);
    try (destruct l0; simpl; lia).
Qed.

Lemma init_counted file_names workers : counted (init file_names workers).
Proof.
  unfold counted, total_unsolicited. rewrite init_input_queue. simpl.
  assert (sum_list (credit <$> replicate workers pump_new) = 0) as ->.
  { induction workers; simpl; [reflexivity|assumption]. }
  lia.
Qed.

Lemma step_counted l s s' :
  started_ok s → Forall pump_ok (pumps s) →
  Forall (unsolicited_ok (abort_event (sh s))) (pumps s) →
  counted s → step l s = Some s' → counted s'.
Proof.
  unfold counted, total_unsolicited. intros Hst Hok Hu Hc H.
  destruct l as [i e|e|e|e|e].
  - apply step_pump_inv in H as (p & sh' & p' & Hp & Hstep & ->). simpl.
    pose proof (sum_list_insert credit _ _ _ p' Hp).
    pose proof (sum_list_insert unsolicited _ _ _ p' Hp).
    pose proof (pump_step_counted _ _ _ _ _ (Forall_lookup_1 _ _ _ _ Hok Hp)
                  (Forall_lookup_1 _ _ _ _ Hu Hp) Hstep).
    lia.
  - apply step_progress_inv in H as (sh' & g & Hstep & ->). simpl.
    inv_thread Hstep; simpl;
      repeat match goal with Hx : get _ = Some _ |- _ => apply get_length in Hx end; lia.
  - apply step_reduce_inv in H as (sh' & r & Hstep & ->). simpl.
    inv_thread Hstep; simpl; lia.
  - apply step_main_inv in H
      as [(k & p & -> & Em & Hp & ->)|[(k & -> & Em & Hp & ->)
         |[(c & m & _ & Hm & Hk & ->)|(m & _ & Hm & Hk & ->)]]]; simpl; try lia.
    pose proof (started_ok_next_worker s k p Hst Em Hp) as ->.
    pose proof (sum_list_insert credit _ _ _ (set_pc PStart pump_new) Hp) as H1.
    pose proof (sum_list_insert unsolicited _ _ _ (set_pc PStart pump_new) Hp) as H2.
    change (credit (set_pc PStart pump_new)) with 0 in H1.
    change (credit pump_new) with 0 in H1.
    change (unsolicited (set_pc PStart pump_new)) with 0 in H2.
    change (unsolicited pump_new) with 0 in H2.
    lia.
  - apply step_env_inv in H
      as [(-> & Em & ->)|[(i & code & p & -> & Hp & Hpc & _ & ->)
         |[(i & line & q & -> & Hq & ->)|(code & -> & Hr & _ & ->)]]]; simpl; try lia.
    pose proof (sum_list_insert credit _ _ _ (set_exit_status code p) Hp) as H1.
    pose proof (sum_list_insert unsolicited _ _ _ (set_exit_status code p) Hp) as H2.
    change (credit (set_exit_status code p)) with (credit p) in H1.
    change (unsolicited (set_exit_status code p)) with (unsolicited p) in H2.
    lia.
Qed.

Lemma step_files_total l s s' : step l s = Some s' → files_total s' = files_total s.
Proof.
  intros H. destruct l as [i e|e|e|e|e].
  - apply step_pump_inv in H as (p & sh' & p' & Hp & Hstep & ->). done.
  - apply step_progress_inv in H as (sh' & g & Hstep & ->). done.
  - apply step_reduce_inv in H as (sh' & r & Hstep & ->). done.
  - apply step_main_inv in H
      as [(k & p & -> & Em & Hp & ->)|[(k & -> & Em & Hp & ->)
         |[(c & m & _ & Hm & Hk & ->)|(m & _ & Hm & Hk & ->)]]]; done.
  - apply step_env_inv in H
      as [(-> & Em & ->)|[(i & code & p & -> & Hp & Hpc & _ & ->)
         |[(i & line & q & -> & Hq & ->)|(code & -> & Hr & _ & ->)]]]; done.
Qed.

(** The invariants of this section in every reachable state. *)
Lemma run_counted tr file_names workers s :
  run tr (init file_names workers) = Some s →
  files_total s = length file_names
  ∧ Forall (unsolicited_ok (abort_event (sh s))) (pumps s)
  ∧ counted s.
Proof.
  intros Hrun.
  cut (started_ok s ∧ Forall pump_ok (pumps s) ∧ files_total s = length file_names
       ∧ Forall (unsolicited_ok (abort_event (sh s))) (pumps s) ∧ counted s); [tauto|].
  revert Hrun. apply (run_invariant (λ s, started_ok s ∧ Forall pump_ok (pumps s)
       ∧ files_total s = length file_names
       ∧ Forall (unsolicited_ok (abort_event (sh s))) (pumps s) ∧ counted s)).
  - intros l s0 s1 (H1 & H2 & H3 & H4 & H5) Hs. split_and!.
    + eapply step_started_ok; eauto.
    + eapply step_pumps_ok; eauto.
    + rewrite (step_files_total _ _ _ Hs). done.
    + eapply step_unsolicited_ok; eauto.
    + eapply step_counted; eauto.
  - split_and!; [apply init_started_ok|apply init_pumps_ok|reflexivity
                 |apply init_unsolicited_ok|apply init_counted].
Qed.

(** The counter never decreases. *)
Lemma step_files_processed_mono l s s' :
  step l s = Some s' → files_processed (progress s) ≤ files_processed (progress s').
Proof.
  intros H. destruct l as [i e|e|e|e|e].
  - apply step_pump_inv in H as (p & sh' & p' & Hp & Hstep & ->). done.
  - apply step_progress_inv in H as (sh' & g & Hstep & ->). simpl.
    inv_thread Hstep; simpl; lia.
  - apply step_reduce_inv in H as (sh' & r & Hstep & ->). done.
  - apply step_main_inv in H
      as [(k & p & -> & Em & Hp & ->)|[(k & -> & Em & Hp & ->)
         |[(c & m & _ & Hm & Hk & ->)|(m & _ & Hm & Hk & ->)]]]; done.
  - apply step_env_inv in H
      as [(-> & Em & ->)|[(i & code & p & -> & Hp & Hpc & _ & ->)
         |[(i & line & q & -> & Hq & ->)|(code & -> & Hr & _ & ->)]]]; done.
Qed.

Lemma run_files_processed_mono tr s s' :
  run tr s = Some s' → files_processed (progress s) ≤ files_processed (progress s').
Proof.
  revert s. induction tr as [|l tr IH]; intros s H.
  - simpl in H. by simplify_eq.
  - apply run_cons_inv in H as (s1 & H1 & H2).
    pose proof (step_files_processed_mono _ _ _ H1). specialize (IH _ H2). lia.
Qed.

(** No step reads the counter: the steps of two states that differ in the
    counter only differ in the counter only. *)
Lemma step_ignores_files_processed l n s :
  with_files_processed 0 <$> step l (with_files_processed n s)
  = with_files_processed 0 <$> step l s.
Proof.
  destruct l as [i e|e|e|e|e]; simpl.
  - destruct (pumps s !! i) as [p|]; simpl; [|done].
    destruct (pump_step e (sh s) p) as [[sh' p']|]; done.
  - unfold progress_step. simpl.
    destruct (gpc (progress s)), e; simpl; try done;
      repeat (case_match; simpl; try done).
  - destruct (reduce_step e (sh s) (reduce s)) as [[sh' r]|]; done.
  - unfold main_step. simpl.
    destruct (mpc s), e; simpl; try done;
      try (destruct (pumps s !! _); simpl; try done);
      repeat (case_match; simpl; try done).
  - unfold env_step. simpl.
    destruct e; simpl; try done;
      try (destruct (pumps s !! _); simpl; try done);
      repeat (case_match; simpl; try done);
      destruct (put _ _); done.
Qed.

Lemma total_unsolicited_abort s :
  Forall (unsolicited_ok (abort_event (sh s))) (pumps s) →
  total_unsolicited s ≠ 0 → abort_event (sh s) = true.
Proof.
  unfold total_unsolicited. intros Hu Hn.
  induction Hu as [|p l Hp Hl IH]; simpl in *; [done|].
  destruct (unsolicited p) eqn:E; [auto|].
  unfold unsolicited in E. unfold unsolicited_ok in Hp.
  destruct (written (stdin p)); [|done]. destruct (stderr_read p) eqn:Er; [done|].
  destruct Hp as [? _]; [done|by right|done].
Qed.

End Counting.

(** For workers of which nothing is known: in every reachable state the
    counter is at most the number of input files plus the number of sessions
    that have read a status line without ever having written an assignment;
    there are such sessions only once the abort flag is set. *)
Lemma processed_counter_bound_any_worker (file_names : list string) (workers : nat)
    (tr : list label) (s : state) :
  run tr (init file_names workers) = Some s →
  files_processed (progress s) ≤ length file_names + total_unsolicited s
  ∧ (abort_event (sh s) = false → files_processed (progress s) ≤ length file_names).
Proof.
  intros Hrun.
  destruct (run_counted _ _ _ _ Hrun) as (Hft & Hu & Hc).
  unfold counted in Hc. rewrite Hft in Hc.
  split; [lia|].
  intros Ha. destruct (decide (total_unsolicited s = 0)) as [E|E]; [lia|].
  rewrite (total_unsolicited_abort s Hu E) in Ha. done.
Qed.

Section SolicitedLines.

Lemma pump_step_counted_exactly e sh0 p sh' p' :
  pump_ok p →
  (∀ line, e = Readline line → solicited_line p line = true) →
  pump_step e sh0 p = Some (sh', p') →
  length (queue (processed_files_queue sh')) + length (queue (input_queue sh'))
  + credit p'
  ≤ length (queue (processed_files_queue sh0)) + length (queue (input_queue sh0))
    + credit p.
Proof.
  unfold pump_ok, solicited_line, credit.
  intros (Ha & _ & _) Hs H.
  inv_pump H; simpl in *;
    repeat match goal with
           | Hx : get _ = Some _ |- _ => apply get_length in Hx
           | Hx : put _ _ = Some _ |- _ => apply put_length in Hx
           | Hx : _ ∧ _ |- _ => destruct Hx
           end;
    simpl in *;
    try (specialize (Hs _ eq_refl));
    destruct (written (stdin p)) eqn:Ew; simpl in *;
    try lia; try done;
    repeat case_match; simpl in *; try lia; try done.
Qed.

Lemma init_counted_exactly file_names workers : counted_exactly (init file_names workers).
Proof.
  unfold counted_exactly. rewrite init_input_queue. simpl.
  assert (sum_list (credit <$> replicate workers pump_new) = 0) as ->.
  { induction workers; simpl; [reflexivity|assumption]. }
  lia.
Qed.

Lemma step_counted_exactly l s s' :
  started_ok s → Forall pump_ok (pumps s) → counted_exactly s →
  solicited s l = true → step l s = Some s' → counted_exactly s'.
Proof.
  unfold counted_exactly. intros Hst Hok Hc Hsol H.
  destruct l as [i e|e|e|e|e].
  - apply step_pump_inv in H as (p & sh' & p' & Hp & Hstep & ->). simpl.
    pose proof (sum_list_insert credit _ _ _ p' Hp).
    assert (∀ line, e = Readline line → solicited_line p line = true) as Hline.
    { intros line ->. simpl in Hsol. rewrite Hp in Hsol. exact Hsol. }
    pose proof (pump_step_counted_exactly _ _ _ _ _
                  (Forall_lookup_1 _ _ _ _ Hok Hp) Hline Hstep).
    lia.
  - apply step_progress_inv in H as (sh' & g & Hstep & ->). simpl.
    inv_thread Hstep; simpl;
      repeat match goal with Hx : get _ = Some _ |- _ => apply get_length in Hx end; lia.
  - apply step_reduce_inv in H as (sh' & r & Hstep & ->). simpl.
    inv_thread Hstep; simpl; lia.
  - apply step_main_inv in H
      as [(k & p & -> & Em & Hp & ->)|[(k & -> & Em & Hp & ->)
         |[(c & m & _ & Hm & Hk & ->)|(m & _ & Hm & Hk & ->)]]]; simpl; try lia.
    pose proof (started_ok_next_worker s k p Hst Em Hp) as ->.
    pose proof (sum_list_insert credit _ _ _ (set_pc PStart pump_new) Hp) as H1.
    change (credit (set_pc PStart pump_new)) with 0 in H1.
    change (credit pump_new) with 0 in H1.
    lia.
  - apply step_env_inv in H
      as [(-> & Em & ->)|[(i & code & p & -> & Hp & Hpc & _ & ->)
         |[(i & line & q & -> & Hq & ->)|(code & -> & Hr & _ & ->)]]]; simpl; try lia.
    pose proof (sum_list_insert credit _ _ _ (set_exit_status code p) Hp) as H1.
    change (credit (set_exit_status code p)) with (credit p) in H1.
    lia.
Qed.

(** Along an execution in which every status line is solicited, the
    invariant holds in every state. *)
Lemma run_counted_exactly tr s s' :
  started_ok s → Forall pump_ok (pumps s) → counted_exactly s →
  solicited_run tr s = true → run tr s = Some s' →
  counted_exactly s' ∧ files_total s' = files_total s.
Proof.
  revert s. induction tr as [|l tr IH]; intros s Hst Hok Hc Hsol Hrun.
  - simpl in Hrun. by simplify_eq.
  - apply run_cons_inv in Hrun as (s1 & H1 & H2).
    simpl in Hsol. rewrite H1 in Hsol. apply andb_true_iff in Hsol as [Hl Hsol].
    destruct (IH s1) as [Hc' Hft]; eauto using step_started_ok, step_pumps_ok,
      step_counted_exactly.
    split; [done|]. rewrite Hft. eapply step_files_total; eauto.
Qed.

(** The lines a session reads from a worker that runs [main] of map.py on
    the assignments written to it are solicited: without an assignment
    [main] has written nothing. *)
Lemma map_py_lines_solicited DOWNLOAD_RETRIES (p : pump) (line : string)
    (envs : list MapPy.file_env) :
  stderr_read p ++ [line]
    `prefix_of` fst (MapPy.main DOWNLOAD_RETRIES (zip (written (stdin p)) envs)) →
  solicited_line p line = true.
Proof.
  unfold solicited_line. destruct (written (stdin p)) as [|w ws].
  - simpl. intros [k Hk]. destruct (stderr_read p); discriminate.
  - intros _. by destruct (classify line).
Qed.

End SolicitedLines.

(** With one input file and three sessions, the second session finds the
    queue empty and sets the flag, the third one starts after that, skips
    its first assignment and reads a line [+f] although it has written no
    assignment; the progress thread, which tested the flag before it was
    set, counts it.  The execution is not [solicited_run]: a worker that
    runs map.py does not write that line. *)
Lemma unsolicited_status_line_overcounts :
  let tr := boot 3 ++
            [Pump 0 (IsSet false); Pump 0 (Take "f" IoOk);
             Pump 0 (Readline (fmt_line "+f")); Pump 0 PutProcessed;
             Progress (GIsSet false); Progress (GGot "f"); Progress (GIsSet false);
             Pump 1 (IsSet false); Pump 1 TakeEmpty; Pump 1 AbortSetExit;
             Pump 2 (IsSet true); Pump 2 (Readline (fmt_line "+f"));
             Pump 2 PutProcessed; Progress (GGot "f")] in
  ∃ s, run tr (init ["f"] 3) = Some s
       ∧ length ["f"] < files_processed (progress s)
       ∧ solicited_run tr (init ["f"] 3) = false.
Proof.
  eexists. split; [vm_compute; reflexivity|]. split; [simpl; lia|].
  vm_compute; reflexivity.
Qed.

(** C9: along every execution of the master with workers that write a
    [+file] or [!file] line only after they have read an assignment line,
    the counter of [progress_thread] never decreases and is at most the
    number of input files (it is a natural number, so at least 0); no step
    of the master reads it.  The workers of the repository are such
    workers: every line read from a worker that runs [main] of map.py on
    the assignments written to it is solicited. *)
Theorem C9_processed_counter_bound (file_names : list string) (workers : nat)
    (tr1 tr2 : list label) (s1 s2 : state) :
  run tr1 (init file_names workers) = Some s1 → run tr2 s1 = Some s2 →
  solicited_run (tr1 ++ tr2) (init file_names workers) = true →
  files_processed (progress s1) ≤ files_processed (progress s2)
  ∧ 0 ≤ files_processed (progress s2) ≤ length file_names
  ∧ (∀ l n, with_files_processed 0 <$> step l (with_files_processed n s2)
            = with_files_processed 0 <$> step l s2)
  ∧ ∀ DOWNLOAD_RETRIES p line envs,
      stderr_read p ++ [line]
        `prefix_of` fst (MapPy.main DOWNLOAD_RETRIES (zip (written (stdin p)) envs)) →
      solicited_line p line = true.
Proof.
  intros H1 H2 Hsol.
  assert (run (tr1 ++ tr2) (init file_names workers) = Some s2) as H12.
  { rewrite run_app, H1. exact H2. }
  destruct (run_counted_exactly _ _ _ (init_started_ok _ _) (init_pumps_ok _ _)
              (init_counted_exactly _ _) Hsol H12) as [Hc Hft].
  unfold counted_exactly in Hc. rewrite Hft in Hc. simpl in Hc.
  split_and!.
  - eapply run_files_processed_mono; eauto.
  - lia.
  - lia.
  - intros l n. apply step_ignores_files_processed.
  - apply map_py_lines_solicited.
Qed.

Lemma C9_witness :
  let tr1 := boot 3 ++ [Pump 0 (IsSet false); Pump 0 (Take "f" IoOk);
                        Pump 0 (Readline (fmt_line "+f")); Pump 0 PutProcessed;
                        Progress (GIsSet false)] in
  let tr2 := [Progress (GGot "f"); Pump 1 (IsSet false); Pump 1 TakeEmpty;
              Pump 1 AbortSetExit;
              Pump 2 (IsSet true); Pump 2 (Readline "Traceback (most recent call last):");
              Pump 2 AddMessage; Pump 2 (IsSet true)] in
  ∃ s1 s2, run tr1 (init ["f"] 3) = Some s1 ∧ run tr2 s1 = Some s2
    ∧ files_processed (progress s1) = 0 ∧ files_processed (progress s2) = 1
    ∧ files_processed (progress s1) ≤ files_processed (progress s2)
    ∧ 0 ≤ files_processed (progress s2) ≤ length ["f"].
Proof.
  intros tr1 tr2. eexists. eexists.
  split; [vm_compute; reflexivity|]. split; [vm_compute; reflexivity|].
  split; [reflexivity|]. split; [reflexivity|].
  edestruct (C9_processed_counter_bound ["f"] 3 tr1 tr2) as (Hm & Hb & _);
    [vm_compute; reflexivity|vm_compute; reflexivity|vm_compute; reflexivity|].
  split; [exact Hm|exact Hb].
Defined.

Section WriteFile.

Lemma pump_step_leaving e sh0 p sh' p' :
  pump_step e sh0 p = Some (sh', p') → leaving (pc p) = true →
  leaving (pc p') = true ∧ input_queue sh' = input_queue sh0
  ∧ stdin p' = stdin p.
Proof. intros H Hl. inv_pump H; simpl in *; done. Qed.

Lemma pump_run_leaving es : ∀ sh0 p sh' p',
  pump_run es sh0 p = Some (sh', p') → leaving (pc p) = true →
  input_queue sh' = input_queue sh0 ∧ stdin p' = stdin p.
Proof.
  induction es as [|e es IH]; intros sh0 p sh' p' H Hl; simpl in H.
  - by simplify_eq.
  - destruct (pump_step e sh0 p) as [[sh1 p1]|] eqn:E; simplify_option_eq.
    destruct (pump_step_leaving _ _ _ _ _ E Hl) as (Hl1 & E1 & E2).
    destruct (IH _ _ _ _ H Hl1) as [E3 E4]. split; congruence.
Qed.

End WriteFile.

(** C10: when [write_file_to_descriptor] has taken an item from the queue
    and the write or the flush raises an I/O error, it returns [False], the
    queue is left without the item, and the descriptor is not closed.  The
    pump that called it only shuts the channel down and leaves: whatever it
    does afterwards, it puts nothing back into the queue. *)
Theorem C10_io_error_loses_item (q q' : Queue) (d : ChannelFile) (io : io_outcome)
    (file_name : string) :
  get q = Some (file_name, q') → closed d = false → io ≠ IoOk →
  (∃ d', write_file_to_descriptor q d io = (false, q', d')
         ∧ closed d' = false
         ∧ (io = IoWriteError → d' = d))
  ∧ queue q = file_name :: queue q'
  ∧ ∀ sh0 p sh1 p1 es sh2 p2,
      input_queue sh0 = q → stdin p = d →
      pump_step (Take file_name io) sh0 p = Some (sh1, p1) →
      pump_run es sh1 p1 = Some (sh2, p2) →
      input_queue sh1 = q' ∧ leaving (pc p1) = true
      ∧ input_queue sh2 = q' ∧ closed (stdin p2) = false.
Proof.
  intros Hget Hcl Hio. split_and!.
  - unfold write_file_to_descriptor. rewrite Hget, Hcl.
    destruct io; [done| |]; eexists; split_and!; try done.
  - unfold get in Hget. destruct (queue q) eqn:E; simplify_eq. reflexivity.
  - intros sh0 p sh1 p1 es sh2 p2 <- <- Hstep Hrun.
    assert (input_queue sh1 = q' ∧ leaving (pc p1) = true ∧ closed (stdin p1) = false)
      as (H1 & H2 & H3).
    { unfold pump_step, call_wfd, write_file_to_descriptor in Hstep.
      rewrite Hget, Hcl, String.eqb_refl in Hstep.
      destruct (pc p) eqn:Ep; simplify_option_eq;
        destruct io; simplify_option_eq; done. }
    destruct (pump_run_leaving _ _ _ _ _ Hrun H2) as [E1 E2].
    rewrite E1, E2. done.
Qed.

Lemma C10_witness :
  let q := mkQueue 2 ["a"; "b"] in
  let q' := mkQueue 2 ["b"] in
  get q = Some ("a", q')
  ∧ (∃ d', write_file_to_descriptor q File_new IoFlushError = (false, q', d')
           ∧ closed d' = false
           ∧ (IoFlushError = IoWriteError → d' = File_new))
  ∧ queue q = "a" :: queue q'
  ∧ ∀ sh0 p sh1 p1 es sh2 p2,
      input_queue sh0 = q → stdin p = File_new →
      pump_step (Take "a" IoFlushError) sh0 p = Some (sh1, p1) →
      pump_run es sh1 p1 = Some (sh2, p2) →
      input_queue sh1 = q' ∧ leaving (pc p1) = true
      ∧ input_queue sh2 = q' ∧ closed (stdin p2) = false.
Proof.
  intros q q'. split; [reflexivity|].
  apply (C10_io_error_loses_item q q' File_new IoFlushError "a");
    [reflexivity|reflexivity|discriminate].
Defined.

(** C7, as the spec states it, fails: with two sessions and the items [a]
    and [b], the first session gets [+a], finds the queue empty and closes
    its assignment endpoint while [b] is still assigned to the second
    session; the second worker then reports [!b] and [b] is queued again. *)
Lemma C7_counterexample :
  ∃ s1 s2 p0 p1,
    run (boot 2 ++
         [Pump 0 (IsSet false); Pump 0 (Take "a" IoOk);
          Pump 1 (IsSet false); Pump 1 (Take "b" IoOk);
          Pump 0 (Readline (fmt_line "+a")); Pump 0 PutProcessed;
          Pump 0 (IsSet false); Pump 0 TakeEmpty])
        (init ["a"; "b"] 2) = Some s1
    ∧ pumps s1 !! 0 = Some p0 ∧ closed (stdin p0) = true ∧ write_shut p0 = true
    ∧ pumps s1 !! 1 = Some p1 ∧ outstanding p1 = Some "b"
    ∧ run [Pump 1 (Readline (fmt_line "!b")); Pump 1 AddMessage; Pump 1 Requeue] s1
      = Some s2
    ∧ queue (input_queue (sh s2)) = ["b"].
Proof.
  eexists. eexists. eexists. eexists.
  split; [vm_compute; reflexivity|].
  split; [reflexivity|]. split; [reflexivity|]. split; [reflexivity|].
  split; [reflexivity|]. split; [reflexivity|].
  split; [vm_compute; reflexivity|]. reflexivity.
Qed.

(** C7, amended: a pump closes its assignment endpoint exactly when the
    bounded wait of [write_file_to_descriptor] ends on an empty queue, which
    only says that the queue is empty at that moment; the channel is then
    shut down for writing as well.  The channel is also shut down, without
    the endpoint being closed, when the write or the flush fails. *)
Theorem C7_close_on_empty_queue (e : pump_event) (sh0 sh' : shared) (p p' : pump) :
  pump_step e sh0 p = Some (sh', p') →
  closed (stdin p) = false → write_shut p = false →
  (closed (stdin p') = true ↔ e = TakeEmpty)
  ∧ (e = TakeEmpty → queue (input_queue sh0) = [] ∧ sh' = sh0)
  ∧ (write_shut p' = true ↔
     e = TakeEmpty ∨ ∃ f io, e = Take f io ∧ io ≠ IoOk)
  ∧ (pc p = PFirstFile ∨ pc p = PNextFile →
     queue (input_queue sh0) = [] → e = TakeEmpty).
Proof.
  intros H Hc Hw. unfold get in *.
  inv_pump H; simpl in *; rewrite ?Hc, ?Hw in *.
  all: split_and!; try (split; intros; try done); try done.
  all: try (match goal with Hx : _ ∨ _ |- _ =>
              destruct Hx as [?|(? & ? & ? & ?)]; [done|simplify_eq; done] end).
  all: try (by left).
  all: try (right; eexists; eexists; split; [reflexivity|done]).
  all: try (match goal with Hx : get _ = None |- _ =>
              unfold get in Hx; destruct (queue _); done end).
  all: try (destruct sh0; reflexivity).
  all: try congruence.
  all: try (intros [?|?] Hq; try congruence;
            match goal with Hx : get _ = Some _ |- _ =>
              unfold get in Hx; rewrite Hq in Hx; done end).
Qed.

Lemma C7_witness :
  let sh0 := mkShared (Queue_new 2) (Queue_new 2) (Queue_new 0) false [] in
  let p := set_pc PNextFile pump_new in
  ∃ p', pump_step TakeEmpty sh0 p = Some (sh0, p')
    ∧ (closed (stdin p') = true ↔ TakeEmpty = TakeEmpty)
    ∧ (TakeEmpty = TakeEmpty → queue (input_queue sh0) = [] ∧ sh0 = sh0)
    ∧ (write_shut p' = true ↔
       TakeEmpty = TakeEmpty ∨ ∃ f io, TakeEmpty = Take f io ∧ io ≠ IoOk)
    ∧ (pc p = PFirstFile ∨ pc p = PNextFile →
       queue (input_queue sh0) = [] → TakeEmpty = TakeEmpty).
Proof.
  intros sh0 p. eexists. split; [reflexivity|].
  apply (C7_close_on_empty_queue TakeEmpty sh0 sh0 p); reflexivity.
Defined.


Section StatusLines.

Lemma put_queue q f q' : put q f = Some q' → queue q' = queue q ++ [f].
Proof. unfold put. destruct (full q); intros; by simplify_eq. Qed.

End StatusLines.




Import MapPy.

Section Worker.








End Worker.




Section Reducer.

Lemma step_reduce_halted w l s s' :
  reduce_halted w s → step l s = Some s' → reduce_halted w s'.
Proof.
  unfold reduce_halted. intros (Hw & Hm & Hr) H.
  pose proof (step_abort_mono _ _ _ H) as Hmono.
  destruct l as [i e|e|e|e|e].
  - apply step_pump_inv in H as (p & sh' & p' & Hp & Hstep & ->). simpl in *.
    split_and!; [done|done|]. destruct (rpc (reduce s)); auto.
  - apply step_progress_inv in H as (sh' & g & Hstep & ->). simpl in *.
    split_and!; [done|done|]. destruct (rpc (reduce s)); auto.
  - apply step_reduce_inv in H as (sh' & r & Hstep & ->). simpl in *.
    inv_thread Hstep; simpl in *;
      repeat match goal with
             | Hx : rpc _ = _ |- _ => rewrite Hx in *
             | Hx : Bool.eqb _ _ = true |- _ => apply Bool.eqb_prop in Hx
             end; simpl in *; split_and!; try done; try congruence.
  - apply step_main_inv in H
      as [(k & p & -> & Em & Hp & ->)|[(k & -> & Em & Hp & ->)
         |[(c & m & _ & Hm' & Hk & ->)|(m & _ & Hm' & Hk & ->)]]]; simpl in *.
    + rewrite Em in Hm. done.
    + rewrite Em in Hm. done.
    + split_and!; [done| |].
      * destruct m; try done. by destruct (Hk k).
      * destruct (rpc (reduce s)); auto.
    + split_and!; [done| |done].
      destruct m; try done. destruct (Hk k eq_refl) as [Em _]. rewrite Em in Hm. done.
  - apply step_env_inv in H
      as [(-> & Em & ->)|[(i & code & p & -> & Hp & Hpc & _ & ->)
         |[(i & line & q & -> & Hq & ->)|(code & -> & Hr' & Hn & ->)]]]; simpl in *.
    + rewrite Em in Hm. done.
    + done.
    + done.
    + split_and!; [done|done|]. destruct (rpc (reduce s)); try done.
Qed.

Lemma started_ok_reduce_running s :
  started_ok s → rpc (reduce s) ≠ RNotStarted →
  match mpc s with MInit | MStartWorkers _ => False | _ => True end.
Proof.
  unfold started_ok, unstarted_from. destruct (mpc s); try done; intros (_ & ? & _); done.
Qed.

Lemma step_after_poll result w l s s' :
  reduce_halted w s →
  abort_event (sh s) = true ∨ rpc (reduce s) = RPoll result ∨ rpc (reduce s) = RAbort →
  step l s = Some s' →
  abort_event (sh s') = true ∨ rpc (reduce s') = RPoll result ∨ rpc (reduce s') = RAbort.
Proof.
  intros (_ & Hm & Hr) [Ha|Hpc] H; [left; eapply step_abort_mono; eauto|].
  destruct l as [i e|e|e|e|e].
  - apply step_pump_inv in H as (p & sh' & p' & Hp & Hstep & ->). simpl. auto.
  - apply step_progress_inv in H as (sh' & g & Hstep & ->). simpl. auto.
  - apply step_reduce_inv in H as (sh' & r & Hstep & ->). simpl.
    destruct Hpc as [Hpc|Hpc]; rewrite Hpc in Hr;
      unfold reduce_step in Hstep; rewrite Hpc in Hstep;
      destruct e; simplify_option_eq.
    + repeat case_match; simplify_option_eq; simpl; auto;
        destruct (returncode (reduce_process (reduce s))); done.
    + left. done.
  - apply step_main_inv in H
      as [(k & p & -> & Em & Hp & ->)|[(k & -> & Em & Hp & ->)
         |[(c & m & _ & Hm' & Hk & ->)|(m & _ & Hm' & Hk & ->)]]]; simpl; auto.
    rewrite Em in Hm. done.
  - apply step_env_inv in H
      as [(-> & Em & ->)|[(i & c & p & -> & Hp & Hpc' & _ & ->)
         |[(i & line & q & -> & Hq & ->)|(c & -> & Hr'' & Hn & ->)]]]; simpl; auto.
Qed.

End Reducer.

Section ReducerBroken.

Lemma step_reduce_broken w x l s s' :
  reduce_broken w x s → step l s = Some s' →
  reduce_broken w x s' ∧ l ≠ Reduce RAbortSet.
Proof.
  unfold reduce_broken. intros (Hw & Hm & Hr) H.
  destruct l as [i e|e|e|e|e].
  - apply step_pump_inv in H as (p & sh' & p' & Hp & Hstep & ->). simpl in *. done.
  - apply step_progress_inv in H as (sh' & g & Hstep & ->). simpl in *. done.
  - apply step_reduce_inv in H as (sh' & r & Hstep & ->). simpl in *.
    unfold reduce_step in Hstep.
    destruct (rpc (reduce s)) eqn:Er; try done; destruct e; simplify_option_eq.
    destruct Hr as [-> Hn].
    destruct (returncode (reduce_process (reduce s))) eqn:Ec; [|done].
    simplify_eq. simpl. done.
  - apply step_main_inv in H
      as [(k & p & -> & Em & Hp & ->)|[(k & -> & Em & Hp & ->)
         |[(c & m & _ & Hm' & Hk & ->)|(m & _ & Hm' & Hk & ->)]]]; simpl in *.
    + rewrite Em in Hm. done.
    + rewrite Em in Hm. done.
    + split; [|done]. split_and!; [done| |done].
      destruct m; try done. by destruct (Hk k).
    + split; [|done]. split_and!; [done| |done].
      destruct m; try done. destruct (Hk k eq_refl) as [Em _]. rewrite Em in Hm. done.
  - apply step_env_inv in H
      as [(-> & Em & ->)|[(i & code & p & -> & Hp & Hpc & _ & ->)
         |[(i & line & q & -> & Hq & ->)|(code & -> & Hr' & Hn & ->)]]]; simpl in *;
      try done.
    split; [|done]. split_and!; [done|done|].
    destruct (rpc (reduce s)); try done. destruct Hr as [_ Hr]. done.
Qed.

Lemma run_reduce_broken w x tr s s' :
  reduce_broken w x s → run tr s = Some s' →
  reduce_broken w x s' ∧ Reduce RAbortSet ∉ tr.
Proof.
  revert s. induction tr as [|l tr IH]; intros s Hb Hrun.
  - simpl in Hrun. simplify_eq. split; [done|]. apply not_elem_of_nil.
  - apply run_cons_inv in Hrun as (s1 & H1 & H2).
    destruct (step_reduce_broken _ _ _ _ _ Hb H1) as [Hb1 Hl].
    destruct (IH _ Hb1 H2) as [Hb' Hn]. split; [done|].
    intros Hin. apply elem_of_cons in Hin as [Hin|Hin]; [by symmetry in Hin|done].
Qed.

End ReducerBroken.

(** C5: the reduce thread has taken a result from the output queue and
    smr-reduce has terminated.
    - When the test [reduce_process.poll()] has yet to come, it finds the
      return code: the result is not written, the only step the thread can
      take leads to [abort_event.set()], which it can always take, and in
      every continuation of the execution the input stream of smr-reduce
      holds exactly what it held before, and the flag is set as soon as the
      thread has left these two program points.
    - When smr-reduce has terminated after that test, the thread is at the
      write: the write raises [IOError], which [except Empty] does not
      catch.  The result is not written and nothing is written afterwards
      either, but the thread ends without [abort_event.set()]: it never
      performs that call, and the flag and the rest of the shared objects
      are as they were. *)
Theorem C5_reducer_terminated (file_names : list string) (workers : nat)
    (tr : list label) (s : state) (result : string) (code : Z) :
  run tr (init file_names workers) = Some s →
  returncode (reduce_process (reduce s)) = Some code →
  (rpc (reduce s) = RPoll result →
     (∃ s1, step (Reduce (RPolled (Some code))) s = Some s1 ∧ rpc (reduce s1) = RAbort)
     ∧ (∀ e s1, step (Reduce e) s = Some s1 → e = RPolled (Some code))
     ∧ ∀ tr' s', run tr' s = Some s' →
         popen_stdin (reduce_process (reduce s')) = popen_stdin (reduce_process (reduce s))
         ∧ (rpc (reduce s') = RAbort →
            ∃ s'', step (Reduce RAbortSet) s' = Some s'' ∧ abort_event (sh s'') = true)
         ∧ (abort_event (sh s') = true
            ∨ rpc (reduce s') = RPoll result ∨ rpc (reduce s') = RAbort))
  ∧ (rpc (reduce s) = RWrite result →
     (∃ s1, step (Reduce RWritten) s = Some s1 ∧ rpc (reduce s1) = RCrashed
            ∧ sh s1 = sh s ∧ reduce_process (reduce s1) = reduce_process (reduce s))
     ∧ (∀ e s1, step (Reduce e) s = Some s1 → e = RWritten)
     ∧ ∀ tr' s', run tr' s = Some s' →
         popen_stdin (reduce_process (reduce s')) = popen_stdin (reduce_process (reduce s))
         ∧ (rpc (reduce s') = RWrite result ∨ rpc (reduce s') = RCrashed)
         ∧ (rpc (reduce s') = RCrashed → ∀ e, step (Reduce e) s' = None)
         ∧ Reduce RAbortSet ∉ tr').
Proof.
  intros Hrun Hc. split; intros Hr; split_and!.
  - eexists. simpl. unfold reduce_step. rewrite Hr, Hc. simpl.
    rewrite Z.eqb_refl. simpl. split; reflexivity.
  - intros e s1 H. apply step_reduce_inv in H as (sh' & r & Hstep & ->).
    unfold reduce_step in Hstep. rewrite Hr, Hc in Hstep.
    destruct e; simplify_option_eq.
    destruct r0 as [c|]; simpl in *; [|done].
    destruct (Z.eqb_spec c code); simplify_option_eq. done.
  - intros tr' s' Hrun'.
    assert (reduce_halted (popen_stdin (reduce_process (reduce s))) s) as Hh.
    { unfold reduce_halted. split_and!; [done| |].
      - apply started_ok_reduce_running; [eapply run_started_ok; eauto|]. by rewrite Hr.
      - rewrite Hr, Hc. done. }
    assert (reduce_halted (popen_stdin (reduce_process (reduce s))) s'
            ∧ (abort_event (sh s') = true
               ∨ rpc (reduce s') = RPoll result ∨ rpc (reduce s') = RAbort))
      as [(Hw & _ & Hr') Hor].
    { revert Hrun'.
      apply (run_invariant (λ s0, reduce_halted (popen_stdin (reduce_process (reduce s))) s0
               ∧ (abort_event (sh s0) = true
                  ∨ rpc (reduce s0) = RPoll result ∨ rpc (reduce s0) = RAbort))).
      - intros l s0 s1 [Hh0 Hor0] Hs.
        split; [eapply step_reduce_halted; eauto|eapply step_after_poll; eauto].
      - split; [exact Hh|]. right. by left. }
    split_and!; [done| |done].
    intros Ha. eexists. simpl. unfold reduce_step. rewrite Ha. simpl. done.
  - eexists. simpl. unfold reduce_step. rewrite Hr, Hc. simpl. done.
  - intros e s1 H. apply step_reduce_inv in H as (sh' & r & Hstep & ->).
    unfold reduce_step in Hstep. rewrite Hr in Hstep.
    destruct e; simplify_option_eq. done.
  - intros tr' s' Hrun'.
    assert (reduce_broken (popen_stdin (reduce_process (reduce s))) result s) as Hb.
    { unfold reduce_broken. split_and!; [done| |].
      - apply started_ok_reduce_running; [eapply run_started_ok; eauto|]. by rewrite Hr.
      - rewrite Hr, Hc. done. }
    destruct (run_reduce_broken _ _ _ _ _ Hb Hrun') as [(Hw & _ & Hr') Hn].
    split_and!; [done| | |done].
    + destruct (rpc (reduce s')); try done. destruct Hr' as [-> _]. by left. by right.
    + intros Hcr e. simpl. unfold reduce_step. rewrite Hcr. by destruct e.
Qed.

Lemma C5_witness :
  let tr := boot 1 ++ [Reduce (RIsSet false); Env (WorkerStdout 0 "x");
                       Reduce (RGot "x"); Reduce (RPolled None);
                       Env (ReducerExit 1)] in
  let tr' := [Reduce RWritten; Pump 0 (IsSet false); Pump 0 (Take "a" IoOk)] in
  ∃ s s', run tr (init ["a"] 1) = Some s
    ∧ rpc (reduce s) = RWrite "x"
    ∧ returncode (reduce_process (reduce s)) = Some 1%Z
    ∧ run tr' s = Some s'
    ∧ abort_event (sh s') = false
    ∧ (λ p, written (stdin p)) <$> pumps s' = [[fmt_line "a"]]
    ∧ popen_stdin (reduce_process (reduce s')) = popen_stdin (reduce_process (reduce s))
    ∧ (rpc (reduce s') = RWrite "x" ∨ rpc (reduce s') = RCrashed)
    ∧ (rpc (reduce s') = RCrashed → ∀ e, step (Reduce e) s' = None)
    ∧ Reduce RAbortSet ∉ tr'.
Proof.
  intros tr tr'. eexists. eexists. split; [vm_compute; reflexivity|].
  split; [reflexivity|]. split; [reflexivity|].
  split; [vm_compute; reflexivity|]. split; [reflexivity|]. split; [reflexivity|].
  refine (proj2 (proj2 (proj2 (C5_reducer_terminated ["a"] 1 tr _ "x" 1%Z _ _) _))
            tr' _ _);
    vm_compute; reflexivity.
Defined.

Section Abort.

(** The flag goes from unset to set only at a call of [abort_event.set()]. *)
Lemma step_sets_abort l s s' :
  step l s = Some s' → abort_event (sh s) = false → abort_event (sh s') = true →
  ∃ c, sets_abort l = Some c.
Proof.
  intros H Hf Ht. destruct l as [i e|e|e|e|e].
  - apply step_pump_inv in H as (p & sh' & p' & Hp & Hstep & ->). simpl in *.
    inv_pump Hstep; simpl in *; try congruence; eauto.
  - apply step_progress_inv in H as (sh' & g & Hstep & ->). simpl in *.
    inv_thread Hstep; simpl in *; congruence.
  - apply step_reduce_inv in H as (sh' & r & Hstep & ->). simpl in *.
    inv_thread Hstep; simpl in *; try congruence; eauto.
  - apply step_main_inv in H
      as [(k & p & -> & Em & Hp & ->)|[(k & -> & Em & Hp & ->)
         |[(c & m & Hc & Hm' & Hk & ->)|(m & _ & Hm' & Hk & ->)]]]; simpl in *;
      try congruence; eauto.
  - apply step_env_inv in H
      as [(-> & Em & ->)|[(i & c & p & -> & Hp & Hpc' & _ & ->)
         |[(i & line & q & -> & Hq & ->)|(c & -> & Hr'' & Hn & ->)]]]; simpl in *;
      try congruence; eauto.
Qed.

Lemma step_teardown_done l s s' :
  teardown_done s → step l s = Some s' → teardown_done s'.
Proof.
  unfold teardown_done. intros Ht H.
  pose proof (step_abort_mono _ _ _ H) as Hmono.
  destruct l as [i e|e|e|e|e].
  - apply step_pump_inv in H as (p & sh' & p' & Hp & Hstep & ->). simpl in *.
    destruct (mpc s); auto.
  - apply step_progress_inv in H as (sh' & g & Hstep & ->). simpl in *.
    destruct (mpc s); auto.
  - apply step_reduce_inv in H as (sh' & r & Hstep & ->). simpl in *.
    destruct (mpc s); auto.
  - simpl in H. unfold main_step in H.
    destruct (mpc s) eqn:Em, e; simplify_option_eq; simpl; try done;
      repeat case_match; simplify_option_eq; simpl; done.
  - apply step_env_inv in H
      as [(-> & Em & ->)|[(i & c & p & -> & Hp & Hpc' & _ & ->)
         |[(i & line & q & -> & Hq & ->)|(c & -> & Hr'' & Hn & ->)]]]; simpl in *;
      destruct (mpc s); auto; done.
Qed.

Lemma run_teardown_done tr file_names workers s :
  run tr (init file_names workers) = Some s → teardown_done s.
Proof.
  apply (run_invariant teardown_done); [intros; eapply step_teardown_done; eauto|done].
Qed.

End Abort.

(** C4, as the spec states it, fails in its second half: with one input
    file and two sessions, the second pump finds the queue empty before its
    first assignment and sets the flag; no connection failed and nobody
    asked for a teardown. *)
Lemma C4_counterexample :
  let tr := boot 2 ++ [Pump 0 (IsSet false); Pump 0 (Take "f" IoOk);
                       Pump 1 (IsSet false); Pump 1 TakeEmpty; Pump 1 AbortSetExit] in
  ∃ s, run tr (init ["f"] 2) = Some s
    ∧ abort_event (sh (init ["f"] 2)) = false
    ∧ abort_event (sh s) = true
    ∧ forallb other_than_connection_or_teardown tr = true.
Proof.
  intros tr. eexists. split; [vm_compute; reflexivity|].
  split; [reflexivity|]. split; reflexivity.
Qed.

(** C4, amended: when [main] observes a non-zero exit status of a worker it
    reports failure (exit status 1) and leaves the abort flag as it is; the
    flag is already set then, because [main] sets it before it looks at the
    exit statuses.  The flag goes from unset to set only at one of the calls
    of [abort_event.set()]: an instance that does not reach the running
    state, a failed ssh connection in [start_worker], a pump whose first
    assignment fails, the reduce thread that finds smr-reduce terminated, a
    keyboard interrupt, and [main] after it has joined the pumps. *)
Theorem C4_exit_status_and_abort (file_names : list string) (workers : nat)
    (tr : list label) (s : state) :
  run tr (init file_names workers) = Some s →
  (∀ code s', step (Main (RecvExitStatus code)) s = Some s' → code ≠ 0%Z →
     mpc s' = MExited 1 ∧ sh s' = sh s ∧ abort_event (sh s) = true)
  ∧ (∀ l s', step l s = Some s' →
       abort_event (sh s) = false → abort_event (sh s') = true →
       ∃ c, sets_abort l = Some c).
Proof.
  intros Hrun. split.
  - intros code s' H Hne.
    pose proof (run_teardown_done _ _ _ _ Hrun) as Ht. unfold teardown_done in Ht.
    simpl in H. unfold main_step in H.
    destruct (mpc s) eqn:Em; simplify_option_eq.
    destruct (option_Z_eqb _ _); simplify_option_eq.
    destruct (Z.eqb_spec code 0); [done|]. simpl. done.
  - intros l s'. apply step_sets_abort.
Qed.

Lemma C4_witness :
  let tr := boot 1 ++ [Pump 0 (IsSet false); Pump 0 (Take "f" IoOk);
                       Env (WorkerExit 0 1); Pump 0 (Readline "");
                       Pump 0 (IsSet false); Pump 0 (ExitStatusReady true);
                       Pump 0 SshClose; Main Joined; Main Teardown] in
  ∃ s s', run tr (init ["f"] 1) = Some s
    ∧ step (Main (RecvExitStatus 1)) s = Some s'
    ∧ mpc s' = MExited 1 ∧ sh s' = sh s ∧ abort_event (sh s) = true.
Proof.
  intros tr. eexists. eexists. split; [vm_compute; reflexivity|].
  split; [vm_compute; reflexivity|].
  eapply (proj1 (C4_exit_status_and_abort ["f"] 1 tr _ _) 1%Z);
    [vm_compute; reflexivity|discriminate].
  Unshelve. vm_compute; reflexivity.
Defined.

Section Conservation.

Lemma unfmt_fmt_line f : unfmt_line (fmt_line f) = f.
Proof.
  unfold unfmt_line, fmt_line.
  induction f as [|c r IH]; [reflexivity|].
  change (String c r +:+ LF) with (String c (r +:+ LF)).
  cbn [String.length]. rewrite Nat.sub_1_r. cbn [Nat.pred].
  assert (String.length (r +:+ LF) = S (String.length (r +:+ LF) - 1)) as E.
  { clear. induction r; simpl; lia. }
  rewrite E. cbn [substring]. rewrite IH. reflexivity.
Qed.

Lemma concat_owned_insert (l : list pump) i p p' :
  l !! i = Some p →
  ∃ rest, concat (owned <$> l) ≡ₚ owned p ++ rest
          ∧ concat (owned <$> <[i := p']> l) ≡ₚ owned p' ++ rest.
Proof.
  revert i. induction l as [|a l IH]; intros [|i] H; simplify_eq/=.
  - exists (concat (owned <$> l)). done.
  - destruct (IH _ H) as (rest & H1 & H2). exists (owned a ++ rest). split.
    + rewrite H1. rewrite !app_assoc. apply Permutation_app_tail, Permutation_app_comm.
    + rewrite H2. rewrite !app_assoc. apply Permutation_app_tail, Permutation_app_comm.
Qed.

Lemma retired_got_line line p :
  retired (got_line line p) = retired p ++ success_name line.
Proof.
  unfold retired. simpl. rewrite fmap_app, concat_app. simpl.
  rewrite app_nil_r. reflexivity.
Qed.


Lemma outstanding_none p :
  length (written (stdin p)) ≤ length (stderr_read p) → outstanding p = None.
Proof.
  intros H. unfold outstanding.
  destruct (Nat.ltb_spec (length (stderr_read p)) (length (written (stdin p)))); [lia|done].
Qed.

Lemma outstanding_some p f :
  outstanding p = Some f →
  length (stderr_read p) < length (written (stdin p)).
Proof.
  unfold outstanding.
  destruct (Nat.ltb_spec (length (stderr_read p)) (length (written (stdin p)))); done.
Qed.

Lemma answers_classify f line :
  answers f line = true → classify line = Success f ∨ classify line = Failure f.
Proof.
  unfold answers. destruct (classify line) as [g|g|g]; [| |done];
    intros H; apply String.eqb_eq in H as ->; auto.
Qed.

Lemma get_queue q f q' : get q = Some (f, q') → queue q = f :: queue q'.
Proof. unfold get. destruct (queue q) eqn:E; intros; by simplify_eq. Qed.

Lemma pump_step_open_ok e sh0 p sh' p' :
  open_ok p → pump_step e sh0 p = Some (sh', p') → open_ok p'.
Proof.
  unfold open_ok. intros Ho H.
  inv_pump H; simpl in *; intros; try done;
    try (apply Ho; match goal with Hx : pc p = _ |- _ => rewrite Hx end; done);
    try (apply Ho; reflexivity).
Qed.

Lemma held_quiet p :
  length (written (stdin p)) ≤ length (stderr_read p) →
  held p = match pc p with PRequeueMsg f | PRequeue f => [f] | _ => [] end.
Proof. intros H. unfold held. rewrite (outstanding_none _ H). by destruct (pc p). Qed.

(** What one step of a pump does to the items it accounts for, when the
    worker and the transport behave. *)
Lemma pump_step_conserved e sh0 p sh' p' :
  pump_ok p → answered_ok p → open_ok p →
  (∀ line, e = Readline line → is_empty line = false →
     ∃ f, outstanding p = Some f ∧ answers f line = true) →
  (∀ f io, e = Take f io → io = IoOk) →
  pump_step e sh0 p = Some (sh', p') →
  queue (input_queue sh') ++ owned p' ≡ₚ queue (input_queue sh0) ++ owned p
  ∧ answered_ok p'.
Proof.
  intros (Ha & Hq & Hle) Han Hop Hline Hio H.
  destruct e.
  - (* IsSet *)
    inv_pump H; (split; [|exact Han]);
      unfold owned, held, outstanding; simpl;
      repeat match goal with Hx : pc _ = _ |- _ => rewrite Hx end; done.
  - (* Take *)
    pose proof (Hio _ _ eq_refl) as ->.
    assert (quiet (pc p) = true ∧ leaving (pc p) = false) as [Hquiet Hl]
      by (inv_pump H; done).
    specialize (Hq Hquiet). specialize (Hop Hl).
    assert (queue (input_queue sh0) = file_name :: queue (input_queue sh')
            ∧ written (stdin p') = written (stdin p) ++ [fmt_line file_name]
            ∧ stderr_read p' = stderr_read p
            ∧ (pc p' = PReadline ∨ pc p' = PCheckExit)
            ∧ (pc p = PFirstFile ∨ pc p = PNextFile)) as (Hqu & Hs & Hr & Hpc' & Hpc).
    { inv_pump H; simpl;
        repeat match goal with
               | Hx : String.eqb _ _ = true |- _ => apply String.eqb_eq in Hx; subst
               | Hx : get _ = Some _ |- _ => apply get_queue in Hx
               end;
        try congruence; split_and!; auto. }
    split.
    + rewrite Hqu. unfold owned.
      rewrite (held_quiet p Hq).
      assert (held p' = [file_name]) as ->.
      { unfold held, outstanding. rewrite Hs, Hr, length_app, last_snoc. simpl.
        destruct (Nat.ltb_spec (length (stderr_read p))
                    (length (written (stdin p)) + 1)); [|unfold answered_ok in Han; lia].
        rewrite unfmt_fmt_line. destruct Hpc' as [->| ->]; reflexivity. }
      assert (retired p' = retired p) as -> by (unfold retired; by rewrite Hr).
      destruct Hpc as [->| ->]; simpl; symmetry; apply Permutation_middle.
    + unfold answered_ok in *. rewrite Hs, Hr, length_app. simpl. lia.
  - (* TakeEmpty *)
    inv_pump H; (split; [|exact Han]);
      unfold owned, held, outstanding, retired; simpl;
      repeat match goal with Hx : pc _ = _ |- _ => rewrite Hx end; done.
  - (* AbortSetExit *)
    inv_pump H; (split; [|exact Han]);
      unfold owned, held, outstanding, retired; simpl;
      repeat match goal with Hx : pc _ = _ |- _ => rewrite Hx end; done.
  - (* Readline *)
    destruct (is_empty line) eqn:Hne.
    + unfold pump_step in H. destruct (pc p) eqn:Hpc; simplify_option_eq.
      rewrite Hne in H. simplify_eq.
      split; [|exact Han].
      unfold owned, held, outstanding, retired; simpl. rewrite Hpc. done.
    + destruct (Hline _ eq_refl Hne) as (f & Hout & Hans).
      pose proof (outstanding_some _ _ Hout) as Hlt.
      unfold pump_step in H. destruct (pc p) eqn:Hpc; simplify_option_eq.
      rewrite Hne in H. simplify_eq.
      assert (length (written (stdin p)) ≤ length (stderr_read p ++ [line])) as Hfull
        by (rewrite length_app; simpl; lia).
      split.
      * apply Permutation_app_head. unfold owned.
        assert (held p = [f]) as -> by (unfold held; rewrite Hpc, Hout; done).
        destruct (answers_classify _ _ Hans) as [Hc|Hc]; rewrite Hc.
        -- rewrite held_quiet by exact Hfull. simpl.
           change (retired (set_pc (PPutProcessed f) (got_line line p)))
             with (retired (got_line line p)).
           rewrite retired_got_line. unfold success_name. rewrite Hc.
           simpl. symmetry. apply Permutation_cons_append.
        -- rewrite held_quiet by exact Hfull. simpl.
           change (retired (set_pc (PRequeueMsg f) (got_line line p)))
             with (retired (got_line line p)).
           rewrite retired_got_line. unfold success_name. rewrite Hc.
           rewrite app_nil_r. done.
      * unfold answered_ok.
        destruct (classify line); simpl; rewrite length_app; simpl; lia.
  - (* PutProcessed *)
    inv_pump H; (split; [|exact Han]).
    unfold owned, held, outstanding, retired; simpl.
    repeat match goal with Hx : pc _ = _ |- _ => rewrite Hx end. done.
  - (* AddMessage *)
    inv_pump H; (split; [|exact Han]);
      unfold owned, held, outstanding, retired; simpl;
      repeat match goal with Hx : pc _ = _ |- _ => rewrite Hx end; try done.
  - (* Requeue *)
    unfold pump_step in H. destruct (pc p) eqn:Hpc; simplify_option_eq.
    split; [|exact Han]. specialize (Hq eq_refl).
    match goal with Hx : put _ _ = Some _ |- _ => apply put_queue in Hx; rewrite Hx end.
    unfold owned.
    rewrite (held_quiet p Hq), Hpc.
    rewrite (held_quiet (set_pc PCheckAbort p)) by exact Hq. simpl.
    change (retired (set_pc PCheckAbort p)) with (retired p).
    rewrite <- app_assoc. done.
  - (* ExitStatusReady *)
    inv_pump H; (split; [|exact Han]);
      unfold owned, held, outstanding, retired; simpl;
      repeat match goal with Hx : pc _ = _ |- _ => rewrite Hx end; done.
  - (* SshClose *)
    inv_pump H; (split; [|exact Han]);
      unfold owned, held, outstanding, retired; simpl;
      repeat match goal with Hx : pc _ = _ |- _ => rewrite Hx end; done.
Qed.

Lemma well_behaved_pump s i e p :
  well_behaved s (Pump i e) = true → pumps s !! i = Some p →
  (∀ line, e = Readline line → is_empty line = false →
     ∃ f, outstanding p = Some f ∧ answers f line = true)
  ∧ (∀ f io, e = Take f io → io = IoOk).
Proof.
  intros Hwb Hp. split.
  - intros line -> Hne. simpl in Hwb. rewrite Hne, Hp in Hwb. simpl in Hwb.
    destruct (outstanding p) as [f|]; [eauto|done].
  - intros f io ->. simpl in Hwb. by destruct io.
Qed.

Lemma concat_owned_replicate n : concat (owned <$> replicate n pump_new) = [].
Proof. induction n; simpl; [reflexivity|assumption]. Qed.

Lemma concat_owned_split (l : list pump) :
  concat (owned <$> l) ≡ₚ concat (held <$> l) ++ concat (retired <$> l).
Proof.
  induction l as [|p l IH]; [reflexivity|]. simpl. rewrite IH. unfold owned.
  rewrite <- !app_assoc. apply Permutation_app_head.
  rewrite !app_assoc. apply Permutation_app_tail, Permutation_app_comm.
Qed.

Lemma init_conserved file_names workers :
  conserved file_names (init file_names workers).
Proof.
  unfold conserved, queued. rewrite init_input_queue. simpl.
  rewrite concat_owned_replicate, app_nil_r. reflexivity.
Qed.

Lemma step_conserved file_names l s s' :
  started_ok s → Forall pump_ok (pumps s) →
  Forall answered_ok (pumps s) → Forall open_ok (pumps s) →
  conserved file_names s →
  well_behaved s l = true → step l s = Some s' →
  Forall answered_ok (pumps s') ∧ Forall open_ok (pumps s')
  ∧ conserved file_names s'.
Proof.
  unfold conserved, queued. intros Hst Hok Han Hop Hc Hwb H.
  destruct l as [i e|e|e|e|e].
  - apply step_pump_inv in H as (p & sh' & p' & Hp & Hstep & ->). simpl.
    destruct (well_behaved_pump _ _ _ _ Hwb Hp) as [Hline Hio].
    destruct (pump_step_conserved _ _ _ _ _ (Forall_lookup_1 _ _ _ _ Hok Hp)
                (Forall_lookup_1 _ _ _ _ Han Hp) (Forall_lookup_1 _ _ _ _ Hop Hp)
                Hline Hio Hstep) as [Hperm Han'].
    split_and!.
    + apply Forall_insert; done.
    + apply Forall_insert; [done|].
      eapply pump_step_open_ok; [|exact Hstep]. eapply Forall_lookup_1; eauto.
    + destruct (concat_owned_insert _ _ _ p' Hp) as (rest & H1 & H2).
      rewrite H2, app_assoc, Hperm, <- app_assoc, <- H1. exact Hc.
  - apply step_progress_inv in H as (sh' & g & Hstep & ->). simpl.
    split_and!; [done|done|]. inv_thread Hstep; done.
  - apply step_reduce_inv in H as (sh' & r & Hstep & ->). simpl.
    split_and!; [done|done|]. inv_thread Hstep; done.
  - apply step_main_inv in H
      as [(k & p & -> & Em & Hp & ->)|[(k & -> & Em & Hp & ->)
         |[(c & m & _ & Hm' & Hk & ->)|(m & _ & Hm' & Hk & ->)]]]; simpl; try done.
    pose proof (started_ok_next_worker s k p Hst Em Hp) as ->.
    split_and!.
    + apply Forall_insert; [done|]. unfold answered_ok. simpl. lia.
    + apply Forall_insert; [done|]. unfold open_ok. done.
    + destruct (concat_owned_insert _ _ _ (set_pc PStart pump_new) Hp)
        as (rest & H1 & H2).
      rewrite H2. change (owned (set_pc PStart pump_new)) with (owned pump_new).
      rewrite <- H1. exact Hc.
  - apply step_env_inv in H
      as [(-> & Em & ->)|[(i & code & p & -> & Hp & Hpc & _ & ->)
         |[(i & line & q & -> & Hq & ->)|(code & -> & Hr & _ & ->)]]]; simpl; try done.
    split_and!.
    + apply Forall_insert; [done|].
      exact (Forall_lookup_1 _ _ _ _ Han Hp).
    + apply Forall_insert; [done|].
      exact (Forall_lookup_1 _ _ _ _ Hop Hp).
    + destruct (concat_owned_insert _ _ _ (set_exit_status code p) Hp)
        as (rest & H1 & H2).
      rewrite H2. change (owned (set_exit_status code p)) with (owned p).
      rewrite <- H1. exact Hc.
Qed.

Lemma run_conserved file_names tr : ∀ s s',
  started_ok s → Forall pump_ok (pumps s) →
  Forall answered_ok (pumps s) → Forall open_ok (pumps s) →
  conserved file_names s →
  wb_run tr s = true → run tr s = Some s' →
  conserved file_names s'.
Proof.
  induction tr as [|l tr IH]; intros s s' Hst Hok Han Hop Hc Hwb Hrun.
  - simpl in Hrun. by simplify_eq.
  - apply run_cons_inv in Hrun as (s1 & Hstep & Hrun).
    cbn [wb_run] in Hwb. rewrite Hstep in Hwb.
    apply andb_true_iff in Hwb as [Hwb1 Hwb2].
    destruct (step_conserved _ _ _ _ Hst Hok Han Hop Hc Hwb1 Hstep) as (Han1 & Hop1 & Hc1).
    eapply (IH s1); eauto.
    + eapply step_started_ok; eauto.
    + eapply step_pumps_ok; eauto.
Qed.

End Conservation.

(** C1, as the spec states it, fails.  The worker of map.py reports [!f]
    after every failed download once [DOWNLOAD_RETRIES] is reached, so twice
    when the download of [f] fails twice with [DOWNLOAD_RETRIES = 1]; the
    pump puts [f] back for each report, and [f] is in the task queue twice
    while the worker is still busy with it. *)
Lemma C1_counterexample :
  ∃ s, run (boot 1 ++
            [Pump 0 (IsSet false); Pump 0 (Take "f" IoOk);
             Pump 0 (Readline (fmt_line "!f")); Pump 0 AddMessage; Pump 0 Requeue;
             Pump 0 (IsSet false); Pump 0 (Take "g" IoOk);
             Pump 0 (ExitStatusReady false);
             Pump 0 (Readline (fmt_line "!f")); Pump 0 AddMessage; Pump 0 Requeue])
           (init ["f"; "g"; "h"] 1) = Some s
    ∧ queued s = ["h"; "f"; "f"]
    ∧ ¬ NoDup (queued s ++ all_held s ++ all_retired s)
    ∧ MapPy.main 1 [(fmt_line "f", mkFileEnv [false; false; true] Returns)]
      = ([fmt_line "!f"; fmt_line "!f"; fmt_line "+f"], EndOfInput).
Proof.
  eexists. split; [vm_compute; reflexivity|]. split; [reflexivity|].
  split; [|reflexivity].
  intros H. apply NoDup_cons in H as [_ H]. apply NoDup_cons in H as [H _].
  apply H. vm_compute. left.
Qed.

(** C1, amended: as long as the input items are pairwise distinct, every
    status line read on a session is [+f] or [!f] for the assignment [f] of
    that session that is still unanswered, and no write to an assignment
    endpoint fails, every input item is at every instant in exactly one of
    the three states queued, held by a session, retired, and nowhere twice. *)
Theorem C1_items_conserved (file_names : list string) (workers : nat)
    (tr : list label) (s : state) :
  NoDup file_names →
  wb_run tr (init file_names workers) = true →
  run tr (init file_names workers) = Some s →
  queued s ++ all_held s ++ all_retired s ≡ₚ file_names
  ∧ NoDup (queued s ++ all_held s ++ all_retired s)
  ∧ ∀ f, f ∈ file_names →
      (f ∈ queued s ∧ (f ∉ all_held s) ∧ (f ∉ all_retired s))
      ∨ ((f ∉ queued s) ∧ f ∈ all_held s ∧ (f ∉ all_retired s))
      ∨ ((f ∉ queued s) ∧ (f ∉ all_held s) ∧ f ∈ all_retired s).
Proof.
  intros Hnd Hwb Hrun.
  assert (queued s ++ all_held s ++ all_retired s ≡ₚ file_names) as Hperm.
  { unfold all_held, all_retired. rewrite <- concat_owned_split.
    eapply (run_conserved file_names tr (init file_names workers)); eauto.
    - apply init_started_ok.
    - apply init_pumps_ok.
    - simpl. apply Forall_replicate. unfold answered_ok. simpl. lia.
    - simpl. apply Forall_replicate. unfold open_ok. done.
    - apply init_conserved. }
  assert (NoDup (queued s ++ all_held s ++ all_retired s)) as Hnd'
    by (by rewrite Hperm).
  split_and!; [exact Hperm|exact Hnd'|].
  intros f Hf. rewrite <- Hperm in Hf.
  apply NoDup_app in Hnd' as (_ & Hq & Hhr).
  apply NoDup_app in Hhr as (_ & Hh & _).
  apply elem_of_app in Hf as [Hf|Hf].
  - left. specialize (Hq f Hf). rewrite elem_of_app in Hq. tauto.
  - apply elem_of_app in Hf as [Hf|Hf].
    + right; left. split_and!; [|done|by apply Hh].
      intros Hin. apply (Hq f Hin). apply elem_of_app. by left.
    + right; right. split_and!; [| |done].
      * intros Hin. apply (Hq f Hin). apply elem_of_app. by right.
      * intros Hin. by apply (Hh f Hin).
Qed.

Lemma C1_witness :
  let tr := boot 2 ++
            [Pump 0 (IsSet false); Pump 0 (Take "f" IoOk);
             Pump 1 (IsSet false); Pump 1 (Take "g" IoOk);
             Pump 0 (Readline (fmt_line "!f")); Pump 0 AddMessage; Pump 0 Requeue;
             Pump 1 (Readline (fmt_line "+g")); Pump 1 PutProcessed;
             Pump 1 (IsSet false); Pump 1 (Take "h" IoOk)] in
  ∃ s, run tr (init ["f"; "g"; "h"] 2) = Some s
    ∧ queued s = ["f"] ∧ all_held s = ["h"] ∧ all_retired s = ["g"]
    ∧ queued s ++ all_held s ++ all_retired s ≡ₚ ["f"; "g"; "h"]
    ∧ NoDup (queued s ++ all_held s ++ all_retired s).
Proof.
  intros tr. eexists. split; [vm_compute; reflexivity|].
  split; [reflexivity|]. split; [vm_compute; reflexivity|].
  split; [vm_compute; reflexivity|].
  edestruct (C1_items_conserved ["f"; "g"; "h"] 2 tr) as (H1 & H2 & _);
    [| |vm_compute; reflexivity|split; [exact H1|exact H2]].
  - apply (bool_decide_unpack _). vm_compute. exact I.
  - vm_compute; reflexivity.
Defined.

(** * Further properties of the sources *)

Section SuccessLines.




End SuccessLines.




Section BoundedQueues.

Lemma put_maxsize q f q' : put q f = Some q' → maxsize q' = maxsize q.
Proof. unfold put. destruct (full q); intros; by simplify_eq. Qed.

Lemma get_maxsize q f q' : get q = Some (f, q') → maxsize q' = maxsize q.
Proof. unfold get. destruct (queue q); intros; by simplify_eq. Qed.

Lemma put_is_Some q f :
  (maxsize q = 0 ∨ length (queue q) < maxsize q) → is_Some (put q f).
Proof.
  intros H. unfold put, full.
  destruct (Nat.ltb_spec 0 (maxsize q)), (Nat.eqb_spec (length (queue q)) (maxsize q));
    simpl; eauto; lia.
Qed.

Lemma step_sized l s s' : sized s → step l s = Some s' → sized s'.
Proof.
  unfold sized. intros [H1 H2] H. destruct l as [i e|e|e|e|e].
  - apply step_pump_inv in H as (p & sh' & p' & Hp & Hstep & ->). simpl.
    inv_pump Hstep; simpl;
      repeat match goal with
             | Hx : put _ _ = Some _ |- _ => apply put_maxsize in Hx
             | Hx : get _ = Some _ |- _ => apply get_maxsize in Hx
             end; simpl in *; split; congruence.
  - apply step_progress_inv in H as (sh' & g & Hstep & ->). simpl.
    inv_thread Hstep; simpl;
      repeat match goal with
             | Hx : get _ = Some _ |- _ => apply get_maxsize in Hx
             end; simpl in *; split; congruence.
  - apply step_reduce_inv in H as (sh' & r & Hstep & ->). simpl.
    inv_thread Hstep; simpl; done.
  - apply step_main_inv in H
      as [(k & p & -> & Em & Hp & ->)|[(k & -> & Em & Hp & ->)
         |[(c & m & _ & Hm & Hk & ->)|(m & _ & Hm & Hk & ->)]]]; done.
  - apply step_env_inv in H
      as [(-> & Em & ->)|[(i & code & p & -> & Hp & Hpc & _ & ->)
         |[(i & line & q & -> & Hq & ->)|(code & -> & Hr & _ & ->)]]]; done.
Qed.

Lemma run_sized tr file_names workers s :
  run tr (init file_names workers) = Some s → sized s.
Proof.
  apply (run_invariant sized); [intros; eapply step_sized; eauto|].
  unfold sized. rewrite init_input_queue. done.
Qed.

Lemma sum_list_lookup_le {A} (f : A → nat) (l : list A) (i : nat) (x : A) :
  l !! i = Some x → f x ≤ sum_list (f <$> l).
Proof.
  revert i. induction l as [|a l IH]; intros [|i] H; simplify_eq/=; [lia|].
  specialize (IH _ H). lia.
Qed.

End BoundedQueues.

(** X2: The two bounded queues never make a pump wait as long as the flag is
    not set: a pump that is about to put a failed item back into the task
    queue, or a processed item into the queue of the progress thread, finds
    a free slot.  Both queues have room for every input file, and every
    item a pump holds is missing from the queues. *)
Theorem bounded_queues_never_block (file_names : list string) (workers : nat)
    (tr : list label) (s : state) (i : nat) (p : pump) (f : string) :
  run tr (init file_names workers) = Some s →
  abort_event (sh s) = false →
  pumps s !! i = Some p →
  (pc p = PRequeue f → is_Some (step (Pump i Requeue) s))
  ∧ (pc p = PPutProcessed f → is_Some (step (Pump i PutProcessed) s)).
Proof.
  intros Hrun Ha Hp.
  destruct (run_counted _ _ _ _ Hrun) as (Hft & Hu & Hc).
  destruct (run_sized _ _ _ _ Hrun) as [Hm1 Hm2].
  assert (total_unsolicited s = 0) as Hz.
  { destruct (decide (total_unsolicited s = 0)) as [E|E]; [done|].
    rewrite (total_unsolicited_abort s Hu E) in Ha. done. }
  unfold counted in Hc. rewrite Hz in Hc.
  pose proof (sum_list_lookup_le credit _ _ _ Hp) as Hcr.
  split; intros Hpc.
  - assert (credit p = 1) as E by (unfold credit; rewrite Hpc; done).
    destruct (put_is_Some (input_queue (sh s)) f) as [q Hq]; [lia|].
    simpl. rewrite Hp. simpl. unfold pump_step. rewrite Hpc, Hq. simpl. eauto.
  - assert (credit p = 1) as E by (unfold credit; rewrite Hpc; done).
    destruct (put_is_Some (processed_files_queue (sh s)) f) as [q Hq]; [lia|].
    simpl. rewrite Hp. simpl. unfold pump_step. rewrite Hpc, Hq. simpl. eauto.
Qed.

Lemma bounded_queues_never_block_witness :
  let tr := boot 2 ++ [Pump 0 (IsSet false); Pump 0 (Take "f" IoOk);
                       Pump 1 (IsSet false); Pump 1 (Take "g" IoOk);
                       Pump 0 (Readline (fmt_line "!f")); Pump 0 AddMessage] in
  let p := set_pc (PRequeue "f")
             (got_line (fmt_line "!f") (set_stdin (mkFile [fmt_line "f"] false) pump_new)) in
  ∃ s, run tr (init ["f"; "g"] 2) = Some s
    ∧ pumps s !! 0 = Some p
    ∧ is_Some (step (Pump 0 Requeue) s).
Proof.
  intros tr p. eexists. split; [vm_compute; reflexivity|]. split; [reflexivity|].
  refine (proj1 (bounded_queues_never_block ["f"; "g"] 2 tr _ 0 p "f" _ _ _) _);
    vm_compute; reflexivity.
Defined.

Section ExitCodes.

Lemma pump_ended_stuck e sh0 p : pump_ended p = true → pump_step e sh0 p = None.
Proof.
  unfold pump_ended, pump_step. destruct (pc p); try done; destruct e; done.
Qed.

Lemma reduce_ended_stuck e sh0 r : reduce_ended r = true → reduce_step e sh0 r = None.
Proof.
  unfold reduce_ended, reduce_step. destruct (rpc r); try done; destruct e; done.
Qed.

Lemma option_Z_eqb_Some o c : option_Z_eqb o (Some c) = true → o = Some c.
Proof. destruct o as [x|]; simpl; [|done]. intros H%Z.eqb_eq. by subst. Qed.

Lemma forallb_Forall {A} (f : A → bool) (l : list A) :
  forallb f l = true → Forall (λ x, f x = true) l.
Proof.
  induction l as [|a l IH]; simpl; intros H; constructor;
    apply andb_true_iff in H as [? ?]; auto.
Qed.

Lemma step_exit_codes_ok l s s' :
  exit_codes_ok s → step l s = Some s' → exit_codes_ok s'.
Proof.
  intros Hok H.
  pose proof (step_abort_mono _ _ _ H) as Hmono.
  destruct l as [i e|e|e|e|e].
  - apply step_pump_inv in H as (p & sh' & p' & Hp & Hstep & ->).
    assert (pump_ended p = false) as Hne.
    { destruct (pump_ended p) eqn:E; [|done].
      rewrite (pump_ended_stuck _ _ _ E) in Hstep. done. }
    unfold exit_codes_ok in *. simpl in *.
    destruct (mpc s) eqn:Em; try done.
    + pose proof (Forall_lookup_1 _ _ _ _ Hok Hp) as Hx. simpl in Hx. congruence.
    + destruct Hok as (_ & Hok & _).
      pose proof (Forall_lookup_1 _ _ _ _ Hok Hp) as Hx. simpl in Hx. congruence.
    + destruct Hok as (_ & Hok).
      pose proof (Forall_lookup_1 _ _ _ _ Hok Hp) as [Hx _]. congruence.
    + intros ->. destruct Hok as (_ & Hok & _); [done|].
      pose proof (Forall_lookup_1 _ _ _ _ Hok Hp) as [Hx _]. congruence.
  - apply step_progress_inv in H as (sh' & g & Hstep & ->).
    unfold exit_codes_ok in *. simpl in *.
    destruct (mpc s); try done; intuition.
  - apply step_reduce_inv in H as (sh' & r & Hstep & ->).
    unfold exit_codes_ok in *. simpl in *.
    destruct (mpc s) eqn:Em; try done; try (intuition; fail).
    intros ->. destruct Hok as (_ & _ & Hr & _); [done|].
    rewrite (reduce_ended_stuck _ _ _ Hr) in Hstep. done.
  - simpl in H. unfold main_step in H. unfold exit_codes_ok in *.
    destruct (mpc s) eqn:Em, e; simplify_option_eq; simpl; try done.
    + destruct (abort_event (sh s)); simpl; done.
    + destruct connected; simplify_option_eq; simpl; done.
    + destruct (pumps s !! k); simplify_option_eq. simpl. done.
    + destruct (forallb pump_ended (pumps s)) eqn:E; simplify_option_eq. simpl.
      by apply forallb_Forall.
    + destruct (option_Z_eqb _ _) eqn:E; simplify_option_eq.
      apply option_Z_eqb_Some in E.
      destruct (Z.eqb_spec code 0) as [->|Hne]; simpl; [|done].
      destruct Hok as (Ha & He & Ht). split_and!; [done|done|].
      match goal with Hp : pumps s !! k = Some ?p |- _ =>
        rewrite (take_S_r _ _ _ Hp); apply Forall_app; split; [done|]; by constructor end.
    + destruct (pumps s !! k) eqn:Ek; simplify_option_eq. simpl.
      destruct Hok as (Ha & He & Ht). split; [done|].
      apply lookup_ge_None in Ek. rewrite take_ge in Ht by done.
      apply Forall_forall. intros p Hin. split.
      * eapply Forall_forall in He; eauto.
      * eapply Forall_forall in Ht; eauto.
    + destruct (reduce_ended (reduce s)) eqn:Er; simpl in *; [|done].
      destruct (option_Z_eqb _ _) eqn:E; simplify_option_eq.
      apply option_Z_eqb_Some in E. simpl.
      destruct (Z.eqb_spec code 0) as [->|Hne]; [|done].
      intros _. destruct Hok. done.
  - apply step_env_inv in H
      as [(-> & Em & ->)|[(i & code & p & -> & Hp & Hpc & Hex & ->)
         |[(i & line & q & -> & Hq & ->)|(code & -> & Hr & Hn & ->)]]];
      unfold exit_codes_ok in *; simpl in *.
    + rewrite Em in *. done.
    + assert (∀ P : pump → Prop, P (set_exit_status code p) → Forall P (pumps s) →
              Forall P (<[i := set_exit_status code p]> (pumps s))) as Hins.
      { intros P HP HF. apply Forall_insert; done. }
      destruct (mpc s) eqn:Em; try done.
      * apply Hins; [|done]. pose proof (Forall_lookup_1 _ _ _ _ Hok Hp). done.
      * destruct Hok as (Ha & He & Ht). split_and!; [done| |].
        -- apply Hins; [|done]. pose proof (Forall_lookup_1 _ _ _ _ He Hp). done.
        -- destruct (decide (i < k)) as [Hlt|Hge].
           ++ assert (take k (pumps s) !! i = Some p) as Hti
                by (rewrite lookup_take_lt by done; done).
              pose proof (Forall_lookup_1 _ _ _ _ Ht Hti) as Hx. simpl in Hx. congruence.
           ++ rewrite take_insert_ge by lia. done.
      * destruct Hok as (Ha & He).
        pose proof (Forall_lookup_1 _ _ _ _ He Hp) as [_ Hx]. congruence.
      * intros ->. destruct Hok as (Ha & He & _); [done|].
        pose proof (Forall_lookup_1 _ _ _ _ He Hp) as [_ Hx]. congruence.
    + destruct (mpc s); try done; intuition.
    + destruct (mpc s) eqn:Em; try done.
      intros ->. destruct Hok as (_ & _ & _ & Hx); [done|]. congruence.
Qed.

Lemma run_exit_codes_ok tr file_names workers s :
  run tr (init file_names workers) = Some s → exit_codes_ok s.
Proof.
  apply (run_invariant exit_codes_ok); [intros; eapply step_exit_codes_ok; eauto|done].
Qed.

End ExitCodes.

(** X3: [main] returns normally (exit status 0) only if every pump thread has
    ended, every worker has exited with status 0, the reduce thread has
    ended and smr-reduce has returned 0; the abort flag is set by then. *)
Theorem exit_zero_sound (file_names : list string) (workers : nat)
    (tr : list label) (s : state) :
  run tr (init file_names workers) = Some s → mpc s = MExited 0 →
  Forall (λ p, pump_ended p = true ∧ exit_status p = Some 0%Z) (pumps s)
  ∧ reduce_ended (reduce s) = true
  ∧ returncode (reduce_process (reduce s)) = Some 0%Z
  ∧ abort_event (sh s) = true.
Proof.
  intros Hrun Em. pose proof (run_exit_codes_ok _ _ _ _ Hrun) as H.
  unfold exit_codes_ok in H. rewrite Em in H.
  destruct (H eq_refl) as (Ha & He & Hr & Hc). done.
Qed.

Lemma exit_zero_sound_witness :
  let tr := boot 1 ++ [Pump 0 (IsSet false); Pump 0 (Take "f" IoOk);
                       Pump 0 (Readline (fmt_line "+f")); Pump 0 PutProcessed;
                       Pump 0 (IsSet false); Pump 0 TakeEmpty; Pump 0 (IsSet false);
                       Env (WorkerExit 0 0); Pump 0 (ExitStatusReady true);
                       Pump 0 SshClose; Main Joined; Main Teardown;
                       Main (RecvExitStatus 0); Main ExitCodesChecked;
                       Reduce (RIsSet true); Reduce RClosed; Env (ReducerExit 0);
                       Main (ReduceJoined 0)] in
  ∃ s, run tr (init ["f"] 1) = Some s ∧ mpc s = MExited 0
    ∧ Forall (λ p, pump_ended p = true ∧ exit_status p = Some 0%Z) (pumps s)
    ∧ reduce_ended (reduce s) = true
    ∧ returncode (reduce_process (reduce s)) = Some 0%Z
    ∧ abort_event (sh s) = true.
Proof.
  intros tr. eexists. split; [vm_compute; reflexivity|]. split; [reflexivity|].
  eapply (exit_zero_sound ["f"] 1 tr); [vm_compute; reflexivity|reflexivity].
Defined.


Section SshClose.

Lemma pump_step_closing_ok e sh0 p sh' p' :
  closing_ok (abort_event sh0) p → pump_step e sh0 p = Some (sh', p') →
  closing_ok (abort_event sh') p'.
Proof.
  unfold closing_ok, exit_status_ready. intros [H1 H2] H.
  inv_pump H; simpl in *;
    repeat match goal with
           | Hx : Bool.eqb _ _ = true |- _ => apply Bool.eqb_prop in Hx
           | Hx : pc p = _ |- _ => rewrite Hx in *
           end;
    split; try done; try (intros Hc; specialize (H1 Hc); done);
    try (by left);
    try (right; unfold exit_status_ready in *; by destruct (exit_status p)).
Qed.

Lemma closing_ok_mono (a a' : bool) p :
  (a = true → a' = true) → closing_ok a p → closing_ok a' p.
Proof.
  unfold closing_ok. intros Hm [H1 H2]. split; [done|].
  destruct (pc p); try done; destruct H2; auto.
Qed.

Lemma step_closing_ok l s s' :
  started_ok s →
  Forall (closing_ok (abort_event (sh s))) (pumps s) → step l s = Some s' →
  Forall (closing_ok (abort_event (sh s'))) (pumps s').
Proof.
  intros Hst Hc H.
  pose proof (step_abort_mono _ _ _ H) as Hmono.
  assert (Forall (closing_ok (abort_event (sh s'))) (pumps s)) as Hc'.
  { eapply Forall_impl; [exact Hc|]. intros p. by apply closing_ok_mono. }
  destruct l as [i e|e|e|e|e].
  - apply step_pump_inv in H as (p & sh' & p' & Hp & Hstep & ->). simpl in *.
    apply Forall_insert; [done|].
    eapply pump_step_closing_ok; [|exact Hstep]. eapply Forall_lookup_1; eauto.
  - apply step_progress_inv in H as (sh' & g & Hstep & ->). done.
  - apply step_reduce_inv in H as (sh' & r & Hstep & ->). done.
  - apply step_main_inv in H
      as [(k & p & -> & Em & Hp & ->)|[(k & -> & Em & Hp & ->)
         |[(c & m & _ & Hm & Hk & ->)|(m & _ & Hm & Hk & ->)]]]; try done.
    simpl in *. apply Forall_insert; [done|].
    rewrite (started_ok_next_worker s k p Hst Em Hp). done.
  - apply step_env_inv in H
      as [(-> & Em & ->)|[(i & code & p & -> & Hp & Hpc & _ & ->)
         |[(i & line & q & -> & Hq & ->)|(code & -> & Hr & _ & ->)]]]; try done.
    simpl in *. apply Forall_insert; [done|].
    pose proof (Forall_lookup_1 _ _ _ _ Hc' Hp) as [H1 H2].
    split; [exact H1|]. simpl. destruct (pc p); try done; by right.
Qed.

End SshClose.

(** X4: A pump closes the ssh connection of its session only as the last thing
    it does, and only when the abort flag is set or the exit status of the
    remote worker has arrived. *)
Theorem ssh_closed_after_exit_or_abort (file_names : list string) (workers : nat)
    (tr : list label) (s : state) (i : nat) (p : pump) :
  run tr (init file_names workers) = Some s →
  pumps s !! i = Some p → ssh_closed p = true →
  pc p = PDone ∧ (abort_event (sh s) = true ∨ is_Some (exit_status p)).
Proof.
  intros Hrun Hp Hc.
  assert (started_ok s ∧ Forall (closing_ok (abort_event (sh s))) (pumps s)) as [_ HF].
  { revert Hrun. apply (run_invariant (λ s, started_ok s
        ∧ Forall (closing_ok (abort_event (sh s))) (pumps s))).
    - intros l s0 s1 [H1 H2] Hs. split; [eapply step_started_ok; eauto|].
      eapply step_closing_ok; eauto.
    - split; [apply init_started_ok|]. simpl. apply Forall_replicate. done. }
  destruct (Forall_lookup_1 _ _ _ _ HF Hp) as [H1 H2].
  specialize (H1 Hc). rewrite H1 in H2. split; [done|].
  destruct H2 as [?|H2]; [by left|right]. by destruct (exit_status p).
Qed.

Lemma ssh_closed_after_exit_or_abort_witness :
  let tr := boot 1 ++ [Pump 0 (IsSet false); Pump 0 (Take "f" IoOk);
                       Pump 0 (Readline ""); Pump 0 (IsSet false);
                       Pump 0 (ExitStatusReady false); Env (WorkerExit 0 1);
                       Pump 0 (ExitStatusReady true); Pump 0 SshClose] in
  let p := mkPump PDone (mkFile [fmt_line "f"] false) [] false (Some 1%Z) true in
  ∃ s, run tr (init ["f"] 1) = Some s ∧ pumps s !! 0 = Some p
    ∧ pc p = PDone ∧ (abort_event (sh s) = true ∨ is_Some (exit_status p)).
Proof.
  intros tr p. eexists. split; [vm_compute; reflexivity|]. split; [reflexivity|].
  refine (ssh_closed_after_exit_or_abort ["f"] 1 tr _ 0 p _ _ _); vm_compute; reflexivity.
Defined.

Section ReduceStops.

Lemma step_reduce_left_loop l s s' :
  reduce_left_loop s → step l s = Some s' → reduce_left_loop s'.
Proof.
  unfold reduce_left_loop. intros Hl H.
  pose proof (step_abort_mono _ _ _ H) as Hmono.
  destruct l as [i e|e|e|e|e].
  - apply step_pump_inv in H as (p & sh' & p' & Hp & Hstep & ->). simpl in *.
    destruct (rpc (reduce s)); auto.
  - apply step_progress_inv in H as (sh' & g & Hstep & ->). simpl in *.
    destruct (rpc (reduce s)); auto.
  - apply step_reduce_inv in H as (sh' & r & Hstep & ->). simpl in *.
    inv_thread Hstep; simpl in *;
      repeat match goal with
             | Hx : Bool.eqb _ _ = true |- _ => apply Bool.eqb_prop in Hx
             end; try done; try congruence.
  - apply step_main_inv in H
      as [(k & p & -> & Em & Hp & ->)|[(k & -> & Em & Hp & ->)
         |[(c & m & _ & Hm' & Hk & ->)|(m & _ & Hm' & Hk & ->)]]]; simpl in *;
      destruct (rpc (reduce s)); auto.
  - apply step_env_inv in H
      as [(-> & Em & ->)|[(i & code & p & -> & Hp & Hpc & _ & ->)
         |[(i & line & q & -> & Hq & ->)|(code & -> & Hr' & Hn & ->)]]]; simpl in *;
      destruct (rpc (reduce s)); auto.
Qed.

Lemma run_reduce_left_loop tr file_names workers s :
  run tr (init file_names workers) = Some s → reduce_left_loop s.
Proof.
  apply (run_invariant reduce_left_loop); [intros; eapply step_reduce_left_loop; eauto|done].
Qed.

(** Past its loop, the reduce thread takes nothing from the output queue:
    the queue only grows. *)
Lemma step_output_stranded w l s s' :
  reduce_halted w s →
  rpc (reduce s) = RClose ∨ rpc (reduce s) = RDone → step l s = Some s' →
  (rpc (reduce s') = RClose ∨ rpc (reduce s') = RDone)
  ∧ queue (output_queue (sh s)) `prefix_of` queue (output_queue (sh s')).
Proof.
  intros (_ & Hm & _) Hr H. destruct l as [i e|e|e|e|e].
  - apply step_pump_inv in H as (p & sh' & p' & Hp & Hstep & ->). simpl.
    split; [done|]. inv_pump Hstep; done.
  - apply step_progress_inv in H as (sh' & g & Hstep & ->). simpl.
    split; [done|]. inv_thread Hstep; done.
  - apply step_reduce_inv in H as (sh' & r & Hstep & ->). simpl.
    unfold reduce_step in Hstep.
    destruct Hr as [Hr|Hr]; rewrite Hr in Hstep; destruct e; simplify_option_eq.
    split; [by right|done].
  - apply step_main_inv in H
      as [(k & p & -> & Em & Hp & ->)|[(k & -> & Em & Hp & ->)
         |[(c & m & _ & Hm' & Hk & ->)|(m & _ & Hm' & Hk & ->)]]]; simpl;
      try (split; done).
    rewrite Em in Hm. done.
  - apply step_env_inv in H
      as [(-> & Em & ->)|[(i & code & p & -> & Hp & Hpc & _ & ->)
         |[(i & line & q & -> & Hq & ->)|(code & -> & Hr' & Hn & ->)]]]; simpl;
      try (split; done).
    split; [done|]. rewrite (put_queue _ _ _ Hq). by apply prefix_app_r.
Qed.

End ReduceStops.

(** X5: The reduce thread leaves its loop only when the abort flag is set, and
    from then on nothing more is written to smr-reduce and nothing more is
    taken from the output queue: the lines that are in the queue at that
    moment, and those the workers still send, stay there. *)
Theorem reduce_thread_stops (file_names : list string) (workers : nat)
    (tr : list label) (s : state) :
  run tr (init file_names workers) = Some s →
  rpc (reduce s) = RClose ∨ rpc (reduce s) = RDone →
  abort_event (sh s) = true
  ∧ ∀ tr' s', run tr' s = Some s' →
      popen_stdin (reduce_process (reduce s')) = popen_stdin (reduce_process (reduce s))
      ∧ queue (output_queue (sh s)) `prefix_of` queue (output_queue (sh s')).
Proof.
  intros Hrun Hr.
  assert (abort_event (sh s) = true) as Ha.
  { pose proof (run_reduce_left_loop _ _ _ _ Hrun) as H. unfold reduce_left_loop in H.
    destruct Hr as [Hr|Hr]; rewrite Hr in H; done. }
  split; [done|]. intros tr' s' Hrun'.
  assert (reduce_halted (popen_stdin (reduce_process (reduce s))) s) as Hh.
  { unfold reduce_halted. split_and!; [done| |].
    - apply started_ok_reduce_running; [eapply run_started_ok; eauto|].
      destruct Hr as [Hr|Hr]; rewrite Hr; done.
    - destruct Hr as [Hr|Hr]; rewrite Hr; done. }
  split.
  - assert (reduce_halted (popen_stdin (reduce_process (reduce s))) s') as (Hw & _).
    { revert Hrun'. apply (run_invariant (reduce_halted _)); [|exact Hh].
      intros l s0 s1 H0 Hs. eapply step_reduce_halted; eauto. }
    exact Hw.
  - assert (reduce_halted (popen_stdin (reduce_process (reduce s))) s'
            ∧ (rpc (reduce s') = RClose ∨ rpc (reduce s') = RDone)
            ∧ queue (output_queue (sh s)) `prefix_of` queue (output_queue (sh s')))
      as (_ & _ & Hp); [|exact Hp].
    revert Hrun'.
    apply (run_invariant (λ s0, reduce_halted (popen_stdin (reduce_process (reduce s))) s0
             ∧ (rpc (reduce s0) = RClose ∨ rpc (reduce s0) = RDone)
             ∧ queue (output_queue (sh s)) `prefix_of` queue (output_queue (sh s0)))).
    + intros l s0 s1 (Hh0 & H0 & Hp0) Hs.
      destruct (step_output_stranded _ _ _ _ Hh0 H0 Hs) as [H1 Hp1].
      split_and!; [eapply step_reduce_halted; eauto|done|by etrans].
    + split_and!; done.
Qed.

Lemma reduce_thread_stops_witness :
  let tr := boot 1 ++ [Pump 0 (IsSet false); Pump 0 (Take "f" IoOk);
                       Env (WorkerStdout 0 (fmt_line "k v"));
                       Pump 0 (Readline (fmt_line "+f")); Pump 0 PutProcessed;
                       Pump 0 (IsSet false); Pump 0 TakeEmpty; Pump 0 (IsSet false);
                       Env (WorkerExit 0 0); Pump 0 (ExitStatusReady true);
                       Pump 0 SshClose; Main Joined; Main Teardown;
                       Reduce (RIsSet true)] in
  let tr' := [Reduce RClosed; Main (RecvExitStatus 0); Main ExitCodesChecked;
              Env (ReducerExit 0); Main (ReduceJoined 0)] in
  ∃ s s', run tr (init ["f"] 1) = Some s ∧ rpc (reduce s) = RClose
    ∧ queue (output_queue (sh s)) = [fmt_line "k v"]
    ∧ run tr' s = Some s' ∧ mpc s' = MExited 0
    ∧ abort_event (sh s) = true
    ∧ popen_stdin (reduce_process (reduce s')) = popen_stdin (reduce_process (reduce s))
    ∧ queue (output_queue (sh s)) `prefix_of` queue (output_queue (sh s')).
Proof.
  intros tr tr'. eexists. eexists. split; [vm_compute; reflexivity|].
  split; [reflexivity|]. split; [reflexivity|].
  split; [vm_compute; reflexivity|]. split; [reflexivity|].
  edestruct (reduce_thread_stops ["f"] 1 tr) as [Ha Hrest];
    [vm_compute; reflexivity|left; reflexivity|].
  split; [exact Ha|]. apply (Hrest tr'). vm_compute; reflexivity.
Defined.

Section ReduceFed.

Lemma stdout_lines_cons l tr : stdout_lines (l :: tr) = stdout_line l ++ stdout_lines tr.
Proof. reflexivity. Qed.

Lemma reduce_fed_env_other L s s' :
  reduce s' = reduce s → output_queue (sh s') = output_queue (sh s) →
  reduce_fed L s → reduce_fed (L ++ []) s'.
Proof. unfold reduce_fed. intros -> ->. by rewrite app_nil_r. Qed.

Lemma step_reduce_fed L l s s' :
  started_ok s →
  reduce_fed L s → step l s = Some s' → reduce_fed (L ++ stdout_line l) s'.
Proof.
  intros Hst Hf H. destruct l as [i e|e|e|e|e].
  - apply step_pump_inv in H as (p & sh' & p' & Hp & Hstep & ->).
    apply (reduce_fed_env_other L s); [done| |done]. simpl. inv_pump Hstep; done.
  - apply step_progress_inv in H as (sh' & g & Hstep & ->).
    apply (reduce_fed_env_other L s); [done| |done]. simpl. inv_thread Hstep; done.
  - apply step_reduce_inv in H as (sh' & r & Hstep & ->).
    unfold reduce_fed, in_flight in *. simpl. rewrite app_nil_r.
    inv_thread Hstep; simpl in *;
      repeat match goal with
             | Hx : rpc _ = _ |- _ => rewrite Hx in *
             | Hx : get _ = Some _ |- _ => apply get_queue in Hx
             | Hx : String.eqb _ _ = true |- _ => apply String.eqb_eq in Hx
             end; simpl in *; subst; try done; try congruence;
      try (rewrite <- ?app_assoc; simpl; done);
      try (by apply prefix_app_r);
      try (eexists; reflexivity).
  - simpl stdout_line. unfold reduce_fed, in_flight in *.
    apply step_main_inv in H
      as [(k & p & -> & Em & Hp & ->)|[(k & -> & Em & Hp & ->)
         |[(c & m & _ & Hm' & Hk & ->)|(m & _ & Hm' & Hk & ->)]]];
      simpl; rewrite app_nil_r; try done.
    unfold started_ok in Hst. rewrite Em in Hst. destruct Hst as (_ & Er & _).
    rewrite Er in Hf. done.
  - unfold reduce_fed, in_flight in *.
    apply step_env_inv in H
      as [(-> & Em & ->)|[(i & code & p & -> & Hp & Hpc & _ & ->)
         |[(i & line & q & -> & Hq & ->)|(code & -> & Hr' & Hn & ->)]]];
      simpl; rewrite ?app_nil_r; try done.
    rewrite (put_queue _ _ _ Hq).
    destruct (rpc (reduce s)); simpl in *; subst;
      rewrite <- ?app_assoc; simpl; try done; by apply prefix_app_r.
Qed.

Lemma run_reduce_fed tr : ∀ L s s',
  started_ok s →
  reduce_fed L s → run tr s = Some s' → reduce_fed (L ++ stdout_lines tr) s'.
Proof.
  induction tr as [|l tr IH]; intros L s s' Hst Hf Hrun.
  - simpl in Hrun. simplify_eq. unfold stdout_lines. simpl. by rewrite app_nil_r.
  - apply run_cons_inv in Hrun as (s1 & H1 & H2).
    rewrite stdout_lines_cons, app_assoc. eapply IH; [| |exact H2].
    + eapply step_started_ok; eauto.
    + eapply step_reduce_fed; eauto.
Qed.

End ReduceFed.

(** X6: smr-reduce is fed the lines of the workers' standard outputs in the
    order in which they were put into the output queue, each one at most
    once: what has been written to its standard input is a prefix of that
    sequence.  As long as the reduce thread is in its loop and has not found
    smr-reduce terminated, no line is lost: the lines written, the line the
    thread holds and the queue make up the whole sequence. *)
Theorem reducer_input_in_order (file_names : list string) (workers : nat)
    (tr : list label) (s : state) :
  run tr (init file_names workers) = Some s →
  popen_stdin (reduce_process (reduce s)) `prefix_of` stdout_lines tr
  ∧ (rpc (reduce s) ∈ [RNotStarted; RCheck; RGet] →
     stdout_lines tr
     = popen_stdin (reduce_process (reduce s)) ++ queue (output_queue (sh s)))
  ∧ (∀ x, rpc (reduce s) = RPoll x ∨ rpc (reduce s) = RWrite x →
     stdout_lines tr
     = popen_stdin (reduce_process (reduce s)) ++ x :: queue (output_queue (sh s))).
Proof.
  intros Hrun.
  assert (reduce_fed (stdout_lines tr) s) as Hf.
  { apply (run_reduce_fed tr [] _ _ (init_started_ok file_names workers)
             (eq_refl : reduce_fed [] (init file_names workers)) Hrun). }
  unfold reduce_fed, in_flight in Hf. split_and!.
  - destruct (rpc (reduce s)); try done; rewrite Hf; by apply prefix_app_r.
  - intros Hin. destruct (rpc (reduce s)); try done;
      repeat (apply elem_of_cons in Hin as [Hin|Hin]; [done|]); by apply elem_of_nil in Hin.
  - intros x [Hx|Hx]; rewrite Hx in Hf; done.
Qed.

Lemma reducer_input_in_order_witness :
  let tr := boot 2 ++ [Pump 0 (IsSet false); Pump 0 (Take "f" IoOk);
                       Env (WorkerStdout 0 (fmt_line "a 1"));
                       Pump 1 (IsSet false); Pump 1 (Take "g" IoOk);
                       Env (WorkerStdout 1 (fmt_line "b 2"));
                       Reduce (RIsSet false); Reduce (RGot (fmt_line "a 1"));
                       Reduce (RPolled None); Reduce RWritten;
                       Env (WorkerStdout 0 (fmt_line "c 3"))] in
  ∃ s, run tr (init ["f"; "g"] 2) = Some s
    ∧ stdout_lines tr = [fmt_line "a 1"; fmt_line "b 2"; fmt_line "c 3"]
    ∧ popen_stdin (reduce_process (reduce s)) = [fmt_line "a 1"]
    ∧ popen_stdin (reduce_process (reduce s)) `prefix_of` stdout_lines tr.
Proof.
  intros tr. eexists. split; [vm_compute; reflexivity|].
  split; [reflexivity|]. split; [reflexivity|].
  eapply (proj1 (reducer_input_in_order ["f"; "g"] 2 tr _ _)).
  Unshelve. vm_compute; reflexivity.
Defined.


Section ProgressStops.

Lemma step_progress_left_loop l s s' :
  started_ok s → progress_left_loop s → step l s = Some s' → progress_left_loop s'.
Proof.
  unfold progress_left_loop. intros Hst Hl H.
  pose proof (step_abort_mono _ _ _ H) as Hmono.
  destruct l as [i e|e|e|e|e].
  - apply step_pump_inv in H as (p & sh' & p' & Hp & Hstep & ->). simpl in *.
    intros Hg. destruct (Hl Hg). auto.
  - apply step_progress_inv in H as (sh' & g & Hstep & ->). simpl in *.
    pose proof (started_ok_unstarted s) as Hun.
    inv_thread Hstep; simpl in *;
      repeat match goal with
             | Hx : Bool.eqb _ _ = true |- _ => apply Bool.eqb_prop in Hx
             end; try done.
    all: intros _; split; [done|].
    all: first [ destruct (Hun 0 Hst) as (_ & _ & ?); [by left|done]
               | match goal with
                 | Hx : mpc _ = MStartWorkers ?k |- _ =>
                     destruct (Hun k Hst) as (_ & _ & ?); [right; eauto|done]
                 end ].
  - apply step_reduce_inv in H as (sh' & r & Hstep & ->). simpl in *.
    intros Hg. destruct (Hl Hg). auto.
  - apply step_main_inv in H
      as [(k & p & -> & Em & Hp & ->)|[(k & -> & Em & Hp & ->)
         |[(c & m & _ & Hm' & Hk & ->)|(m & _ & Hm' & Hk & ->)]]]; simpl in *;
      try done.
    + intros Hg. destruct (Hl Hg) as [_ Hm]. rewrite Em in Hm. done.
    + intros Hg. destruct (Hl Hg) as [Ha Hm]. split; [auto|].
      destruct m; try done. by destruct (Hk k).
    + intros Hg. destruct (Hl Hg) as [Ha Hm]. split; [auto|].
      destruct m; try done. destruct (Hk k eq_refl) as [Em _]. rewrite Em in Hm. done.
  - apply step_env_inv in H
      as [(-> & Em & ->)|[(i & code & p & -> & Hp & Hpc & _ & ->)
         |[(i & line & q & -> & Hq & ->)|(code & -> & Hr' & Hn & ->)]]]; simpl in *;
      intros Hg; destruct (Hl Hg); auto.
Qed.

Lemma run_progress_left_loop tr file_names workers s :
  run tr (init file_names workers) = Some s → progress_left_loop s.
Proof.
  intros Hrun.
  cut (started_ok s ∧ progress_left_loop s); [tauto|].
  revert Hrun. apply (run_invariant (λ s, started_ok s ∧ progress_left_loop s)).
  - intros l s0 s1 [H1 H2] Hs. split; [eapply step_started_ok; eauto|].
    eapply step_progress_left_loop; eauto.
  - split; [apply init_started_ok|done].
Qed.

(** Past its loop, the progress thread counts nothing and takes nothing
    from its queue. *)
Lemma step_processed_stranded l s s' :
  gpc (progress s) = GDone →
  match mpc s with MInit | MStartWorkers _ => False | _ => True end →
  step l s = Some s' →
  progress s' = progress s
  ∧ match mpc s' with MInit | MStartWorkers _ => False | _ => True end
  ∧ queue (processed_files_queue (sh s)) `prefix_of` queue (processed_files_queue (sh s')).
Proof.
  intros Hg Hm H. destruct l as [i e|e|e|e|e].
  - apply step_pump_inv in H as (p & sh' & p' & Hp & Hstep & ->). simpl.
    split; [done|]. split; [done|].
    inv_pump Hstep; simpl; try done.
    all: match goal with
         | Hx : put _ _ = Some _ |- _ => rewrite (put_queue _ _ _ Hx)
         end; by apply prefix_app_r.
  - apply step_progress_inv in H as (sh' & g & Hstep & ->).
    unfold progress_step in Hstep. rewrite Hg in Hstep. by destruct e.
  - apply step_reduce_inv in H as (sh' & r & Hstep & ->). simpl.
    split; [done|]. split; [done|]. inv_thread Hstep; done.
  - apply step_main_inv in H
      as [(k & p & -> & Em & Hp & ->)|[(k & -> & Em & Hp & ->)
         |[(c & m & _ & Hm' & Hk & ->)|(m & _ & Hm' & Hk & ->)]]]; simpl.
    + rewrite Em in Hm. done.
    + rewrite Em in Hm. done.
    + split; [done|]. split; [|done]. destruct m; try done. by destruct (Hk k).
    + split; [done|]. split; [|done]. destruct m; try done.
      destruct (Hk k eq_refl) as [Em _]. rewrite Em in Hm. done.
  - apply step_env_inv in H
      as [(-> & Em & ->)|[(i & code & p & -> & Hp & Hpc & _ & ->)
         |[(i & line & q & -> & Hq & ->)|(code & -> & Hr' & Hn & ->)]]]; simpl;
      split; try done.
Qed.

End ProgressStops.

(** X7: The progress thread leaves its loop only when the abort flag is set,
    and from then on the count of processed files no longer changes and
    nothing more is taken from the queue of processed files: the names that
    are in the queue at that moment, and those the pumps still put into it,
    are never counted. *)
Theorem progress_thread_stops (file_names : list string) (workers : nat)
    (tr : list label) (s : state) :
  run tr (init file_names workers) = Some s →
  gpc (progress s) = GDone →
  abort_event (sh s) = true
  ∧ ∀ tr' s', run tr' s = Some s' →
      files_processed (progress s') = files_processed (progress s)
      ∧ queue (processed_files_queue (sh s))
          `prefix_of` queue (processed_files_queue (sh s')).
Proof.
  intros Hrun Hg.
  destruct (run_progress_left_loop _ _ _ _ Hrun Hg) as [Ha Hm].
  split; [done|]. intros tr' s' Hrun'.
  assert (progress s' = progress s
          ∧ match mpc s' with MInit | MStartWorkers _ => False | _ => True end
          ∧ queue (processed_files_queue (sh s))
              `prefix_of` queue (processed_files_queue (sh s'))) as (Hp & _ & Hq).
  { revert Hrun'.
    apply (run_invariant (λ s0, progress s0 = progress s
             ∧ match mpc s0 with MInit | MStartWorkers _ => False | _ => True end
             ∧ queue (processed_files_queue (sh s))
                 `prefix_of` queue (processed_files_queue (sh s0)))).
    - intros l s0 s1 (Hp0 & Hm0 & Hq0) Hs.
      destruct (step_processed_stranded l s0 s1) as (Hp1 & Hm1 & Hq1);
        [by rewrite Hp0|done|done|].
      split_and!; [congruence|done|by etrans].
    - done. }
  rewrite Hp. done.
Qed.

Lemma progress_thread_stops_witness :
  let tr := boot 1 ++ [Pump 0 (IsSet false); Pump 0 (Take "f" IoOk);
                       Progress (GIsSet false); Progress GEmpty;
                       Pump 0 (Readline (fmt_line "+f")); Pump 0 PutProcessed;
                       Pump 0 (IsSet false); Pump 0 TakeEmpty; Pump 0 (IsSet false);
                       Env (WorkerExit 0 0); Pump 0 (ExitStatusReady true);
                       Pump 0 SshClose; Main Joined; Main Teardown;
                       Progress (GIsSet true)] in
  let tr' := [Main (RecvExitStatus 0); Main ExitCodesChecked;
              Reduce (RIsSet true); Reduce RClosed;
              Env (ReducerExit 0); Main (ReduceJoined 0)] in
  ∃ s s', run tr (init ["f"] 1) = Some s ∧ gpc (progress s) = GDone
    ∧ queue (processed_files_queue (sh s)) = ["f"]
    ∧ files_processed (progress s) = 0
    ∧ run tr' s = Some s' ∧ mpc s' = MExited 0
    ∧ abort_event (sh s) = true
    ∧ files_processed (progress s') = files_processed (progress s)
    ∧ queue (processed_files_queue (sh s))
        `prefix_of` queue (processed_files_queue (sh s')).
Proof.
  intros tr tr'. eexists. eexists. split; [vm_compute; reflexivity|].
  split; [reflexivity|]. split; [reflexivity|]. split; [reflexivity|].
  split; [vm_compute; reflexivity|]. split; [reflexivity|].
  edestruct (progress_thread_stops ["f"] 1 tr) as [Ha Hrest];
    [vm_compute; reflexivity|reflexivity|].
  split; [exact Ha|]. apply (Hrest tr'). vm_compute; reflexivity.
Defined.



Section Window.

Lemma pump_step_winding_down e sh0 p sh' p' :
  pump_step e sh0 p = Some (sh', p') → abort_event sh0 = true →
  awaiting (pc p) || stopping (pc p) = true →
  awaiting (pc p') || stopping (pc p') = true ∧ (∀ f io, e ≠ Take f io).
Proof.
  intros H Ha Hs. inv_pump H; simpl in *; try done;
    repeat match goal with
           | Hx : Bool.eqb _ _ = true |- _ => apply Bool.eqb_prop in Hx
           end; try congruence; done.
Qed.

Lemma step_keeps_winding_down i l s s' :
  started_ok s → step l s = Some s' → abort_event (sh s) = true →
  (∀ p, pumps s !! i = Some p → awaiting (pc p) || stopping (pc p) = true) →
  is_take i l = false
  ∧ ∀ p, pumps s' !! i = Some p → awaiting (pc p) || stopping (pc p) = true.
Proof.
  intros Hst H Ha Hstop. destruct l as [j e|e|e|e|e].
  - apply step_pump_inv in H as (p & sh' & q & Hp & Hstep & ->). simpl.
    destruct (decide (j = i)) as [->|Hne].
    + destruct (pump_step_winding_down _ _ _ _ _ Hstep Ha (Hstop _ Hp)) as [Hq Hne].
      split.
      * destruct e; try done. by destruct (Hne file_name io).
      * intros p' Hp'.
        rewrite list_lookup_insert_eq in Hp' by (eapply lookup_lt_Some; eauto).
        by simplify_eq.
    + split.
      * destruct e; try done. apply Nat.eqb_neq. done.
      * intros p' Hp'. rewrite list_lookup_insert_ne in Hp' by done. eauto.
  - apply step_progress_inv in H as (sh' & g & Hstep & ->). eauto.
  - apply step_reduce_inv in H as (sh' & r & Hstep & ->). eauto.
  - split; [done|].
    apply step_main_inv in H
      as [(k & p & -> & Em & Hp & ->)|[(k & -> & Em & Hp & ->)
         |[(c & m & _ & Hm & Hk & ->)|(m & _ & Hm & Hk & ->)]]]; eauto.
    simpl. intros p' Hp'. destruct (decide (k = i)) as [->|Hne].
    + specialize (Hstop _ Hp).
      rewrite (started_ok_next_worker s i p Hst Em Hp) in Hstop. done.
    + rewrite list_lookup_insert_ne in Hp' by done. eauto.
  - split; [done|].
    apply step_env_inv in H
      as [(-> & Em & ->)|[(j & code & p & -> & Hp & Hpc & _ & ->)
         |[(j & line & q & -> & Hq & ->)|(code & -> & Hr & _ & ->)]]]; eauto.
    simpl. intros p' Hp'. destruct (decide (j = i)) as [->|Hne].
    + rewrite list_lookup_insert_eq in Hp' by (eapply lookup_lt_Some; eauto).
      simplify_eq. simpl. eauto.
    + rewrite list_lookup_insert_ne in Hp' by done. eauto.
Qed.

Lemma no_take_while_winding_down i tr :
  ∀ s s', started_ok s → run tr s = Some s' → abort_event (sh s) = true →
    (∀ p, pumps s !! i = Some p → awaiting (pc p) || stopping (pc p) = true) →
    takes i tr = 0.
Proof.
  unfold takes.
  induction tr as [|l tr IH]; intros s s' Hst Hrun Ha Hstop; [reflexivity|].
  apply run_cons_inv in Hrun as (s1 & Hstep & Hrun).
  destruct (step_keeps_winding_down i l s s1 Hst Hstep Ha Hstop) as [Hl Hstop1].
  rewrite filter_cons_False by (by rewrite Hl).
  eapply IH; [eapply step_started_ok; eauto|exact Hrun| |exact Hstop1].
  eapply step_abort_mono; eauto.
Qed.

Lemma takes_once_aborted i tr :
  ∀ s s', started_ok s → run tr s = Some s' → abort_event (sh s) = true →
    takes i tr ≤ 1.
Proof.
  induction tr as [|l tr IH]; intros s s' Hst Hrun Ha; [unfold takes; simpl; lia|].
  apply run_cons_inv in Hrun as (s1 & Hstep & Hrun).
  pose proof (step_started_ok _ _ _ Hst Hstep) as Hst1.
  pose proof (step_abort_mono _ _ _ Hstep Ha) as Ha1.
  destruct (is_take i l) eqn:Ht.
  - unfold takes. rewrite filter_cons_True by done.
    destruct l as [j e| | | |]; try done. destruct e; try done.
    apply Nat.eqb_eq in Ht as <-.
    apply step_pump_inv in Hstep as (p & sh' & p' & Hp & Hps & ->).
    apply pump_step_take in Hps as [_ Haw].
    pose proof (no_take_while_winding_down i tr _ s' Hst1 Hrun Ha1) as Hz.
    unfold takes in Hz. simpl. rewrite Hz; [lia|].
    simpl. intros q Hq.
    rewrite list_lookup_insert_eq in Hq by (eapply lookup_lt_Some; eauto).
    simplify_eq. by rewrite Haw.
  - unfold takes in *. rewrite filter_cons_False by (by rewrite Ht). eauto.
Qed.

End Window.

(** X8: The window left open by the test of the flag.  Once the abort flag is
    set, every pump takes at most one more item from the task queue: the
    pump that tested the flag just before it was set still makes the
    assignment it was about to make, and none after it. *)
Theorem at_most_one_take_once_aborted (file_names : list string) (workers : nat)
    (tr1 tr2 : list label) (s1 s2 : state) (i : nat) :
  run tr1 (init file_names workers) = Some s1 →
  abort_event (sh s1) = true →
  run tr2 s1 = Some s2 →
  takes i tr2 ≤ 1.
Proof.
  intros H1 Ha H2. eapply takes_once_aborted; [|exact H2|exact Ha].
  eapply run_started_ok; eauto.
Qed.

Lemma at_most_one_take_once_aborted_witness :
  let tr1 := boot 2 ++ [Pump 0 (IsSet false); Main Ec2.KeyboardInterrupt] in
  let tr2 := [Pump 0 (Take "f" IoOk); Pump 1 (IsSet true);
              Pump 0 (Readline (fmt_line "+f")); Pump 0 PutProcessed;
              Pump 0 (IsSet true)] in
  ∃ s1 s2, run tr1 (init ["f"; "g"] 2) = Some s1 ∧ abort_event (sh s1) = true
    ∧ run tr2 s1 = Some s2 ∧ takes 0 tr2 = 1 ∧ takes 0 tr2 ≤ 1.
Proof.
  intros tr1 tr2. eexists. eexists. split; [vm_compute; reflexivity|].
  split; [reflexivity|]. split; [vm_compute; reflexivity|]. split; [reflexivity|].
  eapply (at_most_one_take_once_aborted ["f"; "g"] 2 tr1 tr2);
    vm_compute; reflexivity.
Defined.

Section Bootstrap.

Lemma replicate_new_stuck workers i e sh0 :
  (p ← replicate workers pump_new !! i; pump_step e sh0 p) = None.
Proof.
  destruct (replicate workers pump_new !! i) as [p|] eqn:E; [|done].
  apply lookup_replicate in E as [-> _]. simpl. apply pump_new_stuck.
Qed.

Lemma step_never_started file_names workers l s s' :
  never_started file_names workers s → step l s = Some s' →
  never_started file_names workers s'.
Proof.
  unfold never_started. intros (Hm & Ha & Hp & Hq & Hr & Hg) H.
  destruct l as [i e|e|e|e|e].
  - apply step_pump_inv in H as (p & sh' & p' & Hpi & Hstep & ->).
    rewrite Hp in Hpi. apply lookup_replicate in Hpi as [-> _].
    rewrite pump_new_stuck in Hstep. done.
  - apply step_progress_inv in H as (sh' & g & Hstep & ->).
    unfold progress_step in Hstep. rewrite Hg in Hstep. done.
  - apply step_reduce_inv in H as (sh' & r & Hstep & ->).
    unfold reduce_step in Hstep. rewrite Hr in Hstep. done.
  - simpl in H. unfold main_step in H.
    destruct Hm as [Hm|Hm]; rewrite Hm in H; destruct e; simplify_option_eq.
    rewrite Ha. simpl. split_and!; auto.
  - pose proof H as H'.
    apply step_env_inv in H
      as [(-> & Em & ->)|[(i & code & p & -> & Hpi & Hpc & _ & ->)
         |[(i & line & q & -> & Hqq & ->)|(code & -> & Hr' & Hn & ->)]]]; simpl.
    + split_and!; auto.
    + rewrite Hp in Hpi. apply lookup_replicate in Hpi as [-> _]. done.
    + simpl in H'. rewrite Hp in H'.
      destruct (replicate workers pump_new !! i) as [p|] eqn:E; [|done].
      apply lookup_replicate in E as [-> _]. done.
    + done.
Qed.

Lemma step_initializing file_names workers l s s' :
  initializing file_names workers s → step l s = Some s' →
  initializing file_names workers s'.
Proof.
  unfold initializing. intros Hi H.
  destruct l as [i e|e|e|e|e].
  - apply step_pump_inv in H as (p & sh' & p' & Hpi & Hstep & ->). simpl.
    intros Em. destruct (Hi Em) as (Hp & _).
    rewrite Hp in Hpi. apply lookup_replicate in Hpi as [-> _].
    rewrite pump_new_stuck in Hstep. done.
  - apply step_progress_inv in H as (sh' & g & Hstep & ->). simpl.
    intros Em. destruct (Hi Em) as (_ & _ & _ & Hg).
    unfold progress_step in Hstep. rewrite Hg in Hstep. done.
  - apply step_reduce_inv in H as (sh' & r & Hstep & ->). simpl.
    intros Em. destruct (Hi Em) as (_ & _ & Hr & _).
    unfold reduce_step in Hstep. rewrite Hr in Hstep. done.
  - apply step_main_inv in H
      as [(k & p & -> & Em & Hp & ->)|[(k & -> & Em & Hp & ->)
         |[(c & m & _ & Hm' & Hk & ->)|(m & _ & Hm' & Hk & ->)]]]; simpl; done.
  - pose proof H as H'.
    apply step_env_inv in H
      as [(-> & Em & ->)|[(i & code & p & -> & Hpi & Hpc & _ & ->)
         |[(i & line & q & -> & Hqq & ->)|(code & -> & Hr' & Hn & ->)]]]; simpl.
    + done.
    + intros Em. destruct (Hi Em) as (Hp & _).
      rewrite Hp in Hpi. apply lookup_replicate in Hpi as [-> _]. done.
    + intros Em. destruct (Hi Em) as (Hp & _).
      simpl in H'. rewrite Hp in H'.
      destruct (replicate workers pump_new !! i) as [p|] eqn:E; [|done].
      apply lookup_replicate in E as [-> _]. done.
    + intros Em. destruct (Hi Em) as (_ & _ & Hr & _). done.
Qed.

Lemma run_initializing tr file_names workers s :
  run tr (init file_names workers) = Some s → initializing file_names workers s.
Proof.
  apply (run_invariant (initializing file_names workers));
    [intros; eapply step_initializing; eauto|].
  intros _. rewrite init_input_queue. done.
Qed.

End Bootstrap.

(** X9: When an instance does not reach the running state, the job ends before
    any session exists: [main] can only exit with status 1, the abort flag
    is set, no worker is started, neither the reduce thread nor the progress
    thread runs, and every input file is still in the task queue. *)
Theorem failed_bootstrap_starts_nothing (file_names : list string) (workers : nat)
    (tr : list label) (s : state) :
  run tr (init file_names workers) = Some s →
  Env InstanceNotRunning ∈ tr →
  (mpc s = MInit ∨ mpc s = MExited 1)
  ∧ abort_event (sh s) = true
  ∧ pumps s = replicate workers pump_new
  ∧ queue (input_queue (sh s)) = file_names
  ∧ rpc (reduce s) = RNotStarted ∧ gpc (progress s) = GNotStarted.
Proof.
  intros Hrun Hin.
  apply list_elem_of_split in Hin as (t1 & t2 & ->).
  apply run_app_inv in Hrun as (s1 & H1 & H2).
  apply run_cons_inv in H2 as (s2 & Hstep & H2).
  pose proof (run_initializing _ _ _ _ H1) as Hi.
  assert (never_started file_names workers s2) as Hn.
  { apply step_env_inv in Hstep
      as [(_ & Em & ->)|[(i & code & p & ? & _)|[(i & line & q & ? & _)|(code & ? & _)]]];
      try done.
    destruct (Hi Em) as (Hp & Hq & Hr & Hg).
    unfold never_started. simpl. split_and!; auto. }
  revert H2. apply (run_invariant (never_started file_names workers)); [|exact Hn].
  intros l s0 s0' H0 Hs. eapply step_never_started; eauto.
Qed.

Lemma failed_bootstrap_starts_nothing_witness :
  let tr := [Env InstanceNotRunning; Main InitJoined] in
  ∃ s, run tr (init ["f"; "g"] 2) = Some s
    ∧ mpc s = MExited 1
    ∧ (mpc s = MInit ∨ mpc s = MExited 1)
    ∧ abort_event (sh s) = true
    ∧ pumps s = replicate 2 pump_new
    ∧ queue (input_queue (sh s)) = ["f"; "g"]
    ∧ rpc (reduce s) = RNotStarted ∧ gpc (progress s) = GNotStarted.
Proof.
  intros tr. eexists. split; [vm_compute; reflexivity|]. split; [reflexivity|].
  eapply (failed_bootstrap_starts_nothing ["f"; "g"] 2 tr); [vm_compute; reflexivity|].
  apply list_elem_of_here.
Defined.


Section DownloadLoop.

Lemma download_loop_failures R f n : ∀ tries rest,
  download_loop R f tries (replicate n false ++ true :: rest)
  = (replicate (Z.to_nat (Z.of_nat n + 1 - Z.max (R - tries) 1)) (fmt_line ("!" +:+ f)),
     Some (tries + Z.of_nat n)%Z).
Proof.
  induction n as [|n IH]; intros tries rest.
  - assert (Z.to_nat (Z.of_nat 0 + 1 - Z.max (R - tries) 1) = 0) as -> by lia.
    simpl. rewrite Z.add_0_r. reflexivity.
  - cbn [replicate app download_loop]. rewrite IH.
    replace (tries + 1 + Z.of_nat n)%Z with (tries + Z.of_nat (S n))%Z by lia.
    f_equal. destruct (Z.leb_spec R (tries + 1)).
    + assert (Z.to_nat (Z.of_nat (S n) + 1 - Z.max (R - tries) 1)
              = S (Z.to_nat (Z.of_nat n + 1 - Z.max (R - (tries + 1)) 1))) as -> by lia.
      reflexivity.
    + assert (Z.to_nat (Z.of_nat (S n) + 1 - Z.max (R - tries) 1)
              = Z.to_nat (Z.of_nat n + 1 - Z.max (R - (tries + 1)) 1)) as -> by lia.
      reflexivity.
Qed.

Lemma download_loop_never_ends R f n : ∀ tries,
  download_loop R f tries (replicate n false)
  = (replicate (Z.to_nat (Z.of_nat n + 1 - Z.max (R - tries) 1)) (fmt_line ("!" +:+ f)),
     None).
Proof.
  induction n as [|n IH]; intros tries.
  - assert (Z.to_nat (Z.of_nat 0 + 1 - Z.max (R - tries) 1) = 0) as -> by lia.
    reflexivity.
  - cbn [replicate download_loop]. rewrite IH.
    f_equal. destruct (Z.leb_spec R (tries + 1)).
    + assert (Z.to_nat (Z.of_nat (S n) + 1 - Z.max (R - tries) 1)
              = S (Z.to_nat (Z.of_nat n + 1 - Z.max (R - (tries + 1)) 1))) as -> by lia.
      reflexivity.
    + assert (Z.to_nat (Z.of_nat (S n) + 1 - Z.max (R - tries) 1)
              = Z.to_nat (Z.of_nat n + 1 - Z.max (R - (tries + 1)) 1)) as -> by lia.
      reflexivity.
Qed.


End DownloadLoop.

(** X10: What the worker writes for one line of its input.  There is no [break]
    after a report of failure: the download is tried again and again, and
    every failed attempt from the [DOWNLOAD_RETRIES]-th on writes one more
    [!file].  When the download succeeds after [n] failures and
    [config.MAP_FUNC] returns, the reports are followed by [+file] for the
    same file, and the worker goes on with the next line.  As long as the
    download fails the worker stays in the loop. *)
Theorem worker_reports_every_late_failure (DOWNLOAD_RETRIES : Z) (line : string)
    (n : nat) (rest : list bool) (m : call_outcome) :
  let report := fmt_line ("!" +:+ rstrip line) in
  process_line DOWNLOAD_RETRIES line (mkFileEnv (replicate n false ++ true :: rest) Returns)
  = (replicate (reports DOWNLOAD_RETRIES n) report ++ [fmt_line ("+" +:+ rstrip line)], None)
  ∧ process_line DOWNLOAD_RETRIES line (mkFileEnv (replicate n false) m)
    = (replicate (reports DOWNLOAD_RETRIES n) report, Some Downloading)
  ∧ ((Z.of_nat n < DOWNLOAD_RETRIES)%Z → reports DOWNLOAD_RETRIES n = 0)
  ∧ ((1 <= DOWNLOAD_RETRIES <= Z.of_nat n)%Z →
     reports DOWNLOAD_RETRIES n = S n - Z.to_nat DOWNLOAD_RETRIES).
Proof.
  intros report. unfold process_line, reports. simpl downloads. simpl map_func.
  rewrite download_loop_failures, download_loop_never_ends.
  rewrite Z.sub_0_r. split_and!; [reflexivity|reflexivity|lia|lia].
Qed.

(** A witness of what the worker writes when the download fails three
    times with [DOWNLOAD_RETRIES] equal to 2. *)
Lemma worker_reports_every_late_failure_witness :
  process_line 2 (fmt_line "f") (mkFileEnv [false; false; false; true] Returns)
  = ([fmt_line "!f"; fmt_line "!f"; fmt_line "+f"], None)
  ∧ reports 2 3 = 4 - Z.to_nat 2.
Proof.
  destruct (worker_reports_every_late_failure 2 (fmt_line "f") 3 [] Returns)
    as (H1 & _ & _ & H4).
  split; [exact H1|]. apply H4. lia.
Defined.

Section HappyPath.

Lemma process_line_well_served R x :
  well_served R x →
  process_line R (fst x) (snd x) = ([fmt_line ("+" +:+ rstrip (fst x))], None).
Proof.
  destruct x as [line [d m]]. intros (_ & Hm & n & rest & Hd & Hn). simpl in *. subst.
  destruct (worker_reports_every_late_failure R line n rest Returns) as (H1 & _ & H3 & _).
  rewrite H1, (H3 Hn). reflexivity.
Qed.

End HappyPath.

(** X11: When every download succeeds before [DOWNLOAD_RETRIES] failures and
    [config.MAP_FUNC] always returns, the worker writes exactly one status
    line per line of its input, [+file], in the order of the input, and ends
    when its input ends. *)
Theorem worker_acknowledges_each_line (DOWNLOAD_RETRIES : Z)
    (stdin : list (string * file_env)) :
  Forall (well_served DOWNLOAD_RETRIES) stdin →
  MapPy.main DOWNLOAD_RETRIES stdin
  = ((λ x, fmt_line ("+" +:+ rstrip (fst x))) <$> stdin, EndOfInput).
Proof.
  induction 1 as [|[line env] stdin Hx _ IH]; [reflexivity|].
  cbn [MapPy.main]. destruct Hx as (Hne & Hrest). simpl in Hne. rewrite Hne.
  pose proof (process_line_well_served DOWNLOAD_RETRIES (line, env)
                (conj Hne Hrest)) as Hp. simpl in Hp.
  rewrite Hp, IH. reflexivity.
Qed.

Lemma worker_acknowledges_each_line_witness :
  MapPy.main 3 [(fmt_line "a", mkFileEnv [true] Returns);
                (fmt_line "b", mkFileEnv [false; false; true] Returns)]
  = ([fmt_line "+a"; fmt_line "+b"], EndOfInput).
Proof.
  apply (worker_acknowledges_each_line 3
           [(fmt_line "a", mkFileEnv [true] Returns);
            (fmt_line "b", mkFileEnv [false; false; true] Returns)]).
  repeat constructor.
  - exists 0, []. split; [reflexivity|lia].
  - exists 2, []. split; [reflexivity|lia].
Defined.

Section Protocol.




End Protocol.



Section Framing.

Lemma readline_fmt_line f rest :
  no_linebreak f = true → readline (fmt_line f +:+ rest) = (fmt_line f, rest).
Proof.
  induction f as [|c r IH]; intros H; [reflexivity|].
  simpl in H. apply andb_true_iff in H as [Hc Hr].
  change (fmt_line (String c r) +:+ rest) with (String c (fmt_line r +:+ rest)).
  cbn [readline]. apply negb_true_iff in Hc. rewrite Hc, (IH Hr). reflexivity.
Qed.

Lemma is_empty_fmt_line f : is_empty (fmt_line f) = false.
Proof. destruct f; reflexivity. Qed.

Lemma append_empty_r (s : string) : s +:+ "" = s.
Proof.
  induction s as [|c r IH]; [reflexivity|].
  change (String c r +:+ "") with (String c (r +:+ "")). by rewrite IH.
Qed.

Lemma stream_cons l ls : stream (l :: ls) = l +:+ stream ls.
Proof.
  unfold stream. destruct ls as [|l' ls]; simpl; [|reflexivity].
  by rewrite append_empty_r.
Qed.

End Framing.

(** X13: The assignment lines a pump writes are read back one by one by
    [iter(sys.stdin.readline, "")] in the worker, provided no file name
    contains a line break: reading the stream of the lines written for the
    files [fs] yields these lines in order, as soon as [readline] may be
    called once more than there are files. *)
Theorem assignments_read_back (fs : list string) (fuel : nat) :
  Forall (λ f, no_linebreak f = true) fs → length fs < fuel →
  iter_readline fuel (stream (fmt_line <$> fs)) = fmt_line <$> fs.
Proof.
  intros HF. revert fuel. induction HF as [|f fs Hf _ IH]; intros fuel Hlen.
  - destruct fuel; [simpl in Hlen; lia|]. reflexivity.
  - destruct fuel as [|fuel]; [simpl in Hlen; lia|].
    rewrite fmap_cons, stream_cons. cbn [iter_readline].
    rewrite (readline_fmt_line _ _ Hf), is_empty_fmt_line.
    rewrite IH by (simpl in Hlen; lia). reflexivity.
Qed.

Lemma assignments_read_back_witness :
  iter_readline 3 (stream (fmt_line <$> ["s3/a.gz"; "s3/b.gz"]))
  = fmt_line <$> ["s3/a.gz"; "s3/b.gz"].
Proof.
  apply (assignments_read_back ["s3/a.gz"; "s3/b.gz"] 3).
  - repeat constructor.
  - simpl. lia.
Defined.


Section WaitForInstance.

Lemma first_status_app a st rest :
  first_status (replicate a None ++ Some st :: rest) = Some (st, rest).
Proof. induction a as [|a IH]; simpl; [reflexivity|exact IH]. Qed.

Lemma first_status_inv us st rest :
  first_status us = Some (st, rest) → ∃ a, us = replicate a None ++ Some st :: rest.
Proof.
  induction us as [|[u|] us IH]; simpl; intros H; simplify_eq.
  - by exists 0.
  - destruct (IH H) as [a ->]. by exists (S a).
Qed.

Lemma is_pending_true status : is_pending status = true → status = Some "pending".
Proof. destruct status as [st|]; simpl; [|done]. intros H%String.eqb_eq. by subst. Qed.

Lemma while_pending_other status us :
  is_pending status = false → while_pending status us = Some (status, us).
Proof. intros H. destruct us; simpl; rewrite H; reflexivity. Qed.

Lemma while_pending_app b status rest :
  is_pending status = false →
  while_pending (Some "pending") (replicate b (Some "pending") ++ status :: rest)
  = Some (status, rest).
Proof.
  intros Hs. induction b as [|b IH]; simpl.
  - destruct rest; simpl; rewrite Hs; reflexivity.
  - exact IH.
Qed.

Lemma while_pending_inv us : ∀ status status' rest,
  while_pending status us = Some (status', rest) →
  is_pending status' = false
  ∧ ∃ b, status :: us = replicate b (Some "pending") ++ status' :: rest.
Proof.
  induction us as [|u us IH]; intros status status' rest H.
  - simpl in H. destruct (is_pending status) eqn:E; simplify_eq.
    split; [done|]. by exists 0.
  - cbn [while_pending] in H. destruct (is_pending status) eqn:E.
    + apply is_pending_true in E as ->.
      destruct (IH _ _ _ H) as [Hs [b Hb]]. split; [done|].
      exists (S b). simpl. by rewrite Hb.
    + simplify_eq. split; [done|]. by exists 0.
Qed.

End WaitForInstance.

(** X14: [wait_for_instance] returns [True] exactly when the updates it reads
    are: any number of times no status, then any number of times [pending],
    then [running].  An update without a status is waited out before the
    first status has been seen, but once the instance has been [pending] it
    ends the wait, and the function returns [False]. *)
Theorem wait_for_instance_running (instance : ec2_instance)
    (us rest : list (option string)) :
  (snd (wait_for_instance instance us) = Some (true, rest)
   ↔ ∃ a b, us = replicate a None ++ replicate b (Some "pending")
                 ++ Some "running" :: rest)
  ∧ (∀ a b, us = replicate a None ++ replicate (S b) (Some "pending") ++ None :: rest →
       snd (wait_for_instance instance us) = Some (false, rest)).
Proof.
  split; [split|].
  - unfold wait_for_instance.
    destruct (first_status us) as [[st r]|] eqn:E1; [|done].
    destruct (while_pending (Some st) r) as [[st' r']|] eqn:E2; [|done].
    destruct (is_running st') eqn:E3; simpl; intros H; simplify_eq.
    destruct st' as [st'|]; [|done]. apply String.eqb_eq in E3 as ->.
    apply first_status_inv in E1 as [a ->].
    apply while_pending_inv in E2 as [_ [b Hb]].
    exists a, b. by rewrite <- Hb.
  - intros (a & b & ->). unfold wait_for_instance.
    destruct b as [|b]; simpl replicate; simpl app.
    + rewrite first_status_app.
      rewrite (while_pending_other (Some "running") rest eq_refl). reflexivity.
    + rewrite first_status_app.
      rewrite (while_pending_app b (Some "running") rest eq_refl). reflexivity.
  - intros a b ->. unfold wait_for_instance. simpl replicate. simpl app.
    rewrite first_status_app.
    rewrite (while_pending_app b None rest eq_refl). reflexivity.
Qed.

Lemma wait_for_instance_running_witness :
  let instance := mkInstance "i-1" "10.0.0.1" in
  wait_for_instance instance [None; Some "pending"; Some "pending"; Some "running"]
  = (["getting status for instance i-1 ..."; "waiting for instance i-1 ...";
      "New instance i-1 started: 10.0.0.1"], Some (true, []))
  ∧ snd (wait_for_instance instance [None; Some "pending"; None; Some "running"])
    = Some (false, [Some "running"]).
Proof.
  intros instance. split; [reflexivity|].
  apply (proj2 (wait_for_instance_running instance
                  [None; Some "pending"; None; Some "running"] [Some "running"]) 1 0).
  reflexivity.
Defined.

Section InitializeInstance.

Lemma run_commands_closed instance cs :
  run_commands false instance cs
  = ([], false, match cs with [] => false | _ => true end).
Proof. destruct cs; reflexivity. Qed.

Lemma run_commands_open instance cs :
  ∀ printed ssh_open raised,
    run_commands true instance cs = (printed, ssh_open, raised) →
    (ssh_open = true ↔ all_succeed cs) ∧ (ssh_open = true → raised = false).
Proof.
  unfold all_succeed.
  induction cs as [|c cs IH]; intros printed o raised H; simpl in H.
  - simplify_eq. split; [|done]. split; [constructor|done].
  - destruct (Z.eqb_spec (exit_code c) 0) as [E|E].
    + destruct (run_commands true instance cs) as [[more o'] raised'] eqn:Er.
      simplify_eq. destruct (IH _ _ _ eq_refl) as [H1 H2]. split; [|done].
      rewrite H1. split; [by constructor|by inversion 1].
    + rewrite run_commands_closed in H. simplify_eq.
      split; [|done]. split; [done|]. by inversion 1.
Qed.

End InitializeInstance.

Ltac init_case :=
  split_and!; try done;
  try (intros [? ?]; done);
  try (split; [done|intros [? ?]; done]);
  try (split; [solve [eauto]|done]).

(** X15: [initialize_instance_thread] sets the abort flag only when the instance
    does not reach the running state.  A set-up command that exits with a
    non-zero status is not reported to [main]: [run_command] closes the ssh
    connection and returns [False], nobody looks at this value, and the next
    use of the connection raises an exception that ends the thread with the
    flag unset.  The thread reaches its end only if every command exits with
    status 0 and the copy of the configuration succeeds. *)
Theorem setup_failure_leaves_flag_unset (instance : ec2_instance) (env : init_env) :
  let '(_, abort_set, e) := initialize_instance_thread instance env in
  (abort_set = true ↔ e = NotRunning)
  ∧ (e = NotRunning ↔ ∃ rest, snd (wait_for_instance instance (updates env))
                              = Some (false, rest))
  ∧ (e = Initialized →
     all_succeed (AWS_EC2_INITIALIZE_SMR_COMMANDS env ++ pip_commands env)
     ∧ sftp_put_ok env = true)
  ∧ ((∃ rest, snd (wait_for_instance instance (updates env)) = Some (true, rest)) →
     existsb (λ ok : bool, ok) (connects env) = true →
     ¬ all_succeed (AWS_EC2_INITIALIZE_SMR_COMMANDS env ++ pip_commands env) →
     e = Died ∧ abort_set = false).
Proof.
  unfold initialize_instance_thread.
  destruct (wait_for_instance instance (updates env)) as [printed [[[|] rest]|]] eqn:Ew;
    simpl snd; [|init_case..].
  destruct (existsb (λ ok : bool, ok) (connects env)) eqn:Ec; [|init_case].
  destruct (run_commands true instance (AWS_EC2_INITIALIZE_SMR_COMMANDS env))
    as [[p1 open1] raised1] eqn:E1.
  destruct (run_commands_open _ _ _ _ _ E1) as [Ho1 Hr1].
  destruct raised1; [init_case|].
  destruct open1.
  - destruct (run_commands true instance (pip_commands env))
      as [[p2 open2] raised2] eqn:E2.
    destruct (run_commands_open _ _ _ _ _ E2) as [Ho2 Hr2].
    destruct raised2; [init_case|].
    destruct open2; simpl; [|init_case].
    destruct (sftp_put_ok env) eqn:Es; [|init_case].
    assert (all_succeed (AWS_EC2_INITIALIZE_SMR_COMMANDS env ++ pip_commands env)) as Hall.
    { apply Forall_app. split; [by apply Ho1|by apply Ho2]. }
    init_case.
  - rewrite run_commands_closed.
    destruct (pip_commands env) eqn:Ep; simpl; init_case.
Qed.

Lemma setup_failure_leaves_flag_unset_witness :
  let instance := mkInstance "i-1" "10.0.0.1" in
  let env := mkInitEnv [Some "pending"; Some "running"] [false; true]
               [mkCommandRun "sudo apt-get update" [] 0;
                mkCommandRun "sudo pip install smr" [fmt_line "no network"] 1]
               None true in
  initialize_instance_thread instance env
  = (["getting status for instance i-1 ..."; "waiting for instance i-1 ...";
      "New instance i-1 started: 10.0.0.1";
      "waiting for ssh on instance i-1 10.0.0.1 ...";
      "instance i-1 successfully ran sudo apt-get update";
      "instance i-1 stderr: no network";
      "instance i-1 invalid exit code of sudo pip install smr: 1"],
     false, Died).
Proof.
  intros instance env.
  pose proof (setup_failure_leaves_flag_unset instance env) as H.
  destruct (initialize_instance_thread instance env) as [[printed abort_set] e] eqn:E.
  destruct H as (_ & _ & _ & H).
  destruct H as [-> ->].
  - eexists. reflexivity.
  - reflexivity.
  - intros Hall. apply Forall_app in Hall as [Hall _].
    apply Forall_cons in Hall as [_ Hall]. apply Forall_cons in Hall as [Hall _].
    discriminate Hall.
  - vm_compute in E. by simplify_eq.
Defined.

Section WorkerCommand.

Lemma slice_1_m1_middle {A} (x y : A) (l : list A) : slice_1_m1 (x :: l ++ [y]) = l.
Proof.
  unfold slice_1_m1. simpl length. rewrite length_app. simpl.
  replace (length l + 1 - 0) with (S (length l)) by lia. simpl.
  rewrite take_app_length. reflexivity.
Qed.

End WorkerCommand.

(** X16: [start_worker] hands smr-map the arguments of the master without the
    name of the program and with the last argument replaced by the path of
    the configuration on the instance.  The first argument of smr-map, which
    it takes for its configuration file, is that path only when the master
    was given a single argument; otherwise it is the first argument of the
    master. *)
Theorem worker_gets_master_arguments (prog last remote : string) (args : list string) :
  worker_argv (prog :: args ++ [last]) remote = args ++ [remote]
  ∧ worker_argv [prog; last] remote = [remote]
  ∧ worker_command [prog; last] remote = "smr-map " +:+ remote
  ∧ ∀ first more, args = first :: more →
      head (worker_argv (prog :: args ++ [last]) remote) = Some first.
Proof.
  unfold worker_command, worker_argv. split_and!.
  - by rewrite slice_1_m1_middle.
  - reflexivity.
  - reflexivity.
  - intros first more ->. by rewrite slice_1_m1_middle.
Qed.

Lemma worker_gets_master_arguments_witness :
  worker_command ["smr-ec2"; "job.py"; "--workers"; "4"] "/tmp/smr_config.py"
  = "smr-map job.py --workers /tmp/smr_config.py"
  ∧ head (worker_argv ["smr-ec2"; "job.py"; "--workers"; "4"] "/tmp/smr_config.py")
    = Some "job.py".
Proof.
  split; [reflexivity|].
  apply (proj2 (proj2 (proj2
    (worker_gets_master_arguments "smr-ec2" "4" "/tmp/smr_config.py"
       ["job.py"; "--workers"]))) "job.py" ["--workers"]).
  reflexivity.
Defined.

Section Suffix.

Lemma string_length_app (a b : string) :
  String.length (a +:+ b) = String.length a + String.length b.
Proof. induction a as [|c r IH]; simpl; [reflexivity|]. by rewrite IH. Qed.

Lemma substring_skip (a b : string) (k n : nat) :
  substring (String.length a + k) n (a +:+ b) = substring k n b.
Proof. induction a as [|c r IH]; simpl; [reflexivity|exact IH]. Qed.

Lemma substring_0_length (b : string) : substring 0 (String.length b) b = b.
Proof. induction b as [|c r IH]; simpl; [reflexivity|]. by rewrite IH. Qed.

Lemma substring_0_app (a b : string) : substring 0 (String.length a) (a +:+ b) = a.
Proof.
  induction a as [|c r IH]; simpl; [by destruct b|]. by rewrite IH.
Qed.

Lemma endswith_app (a suffix : string) : endswith (a +:+ suffix) suffix = true.
Proof.
  unfold endswith. rewrite string_length_app.
  apply andb_true_iff. split; [apply Nat.leb_le; lia|].
  replace (String.length a + String.length suffix - String.length suffix)
    with (String.length a + 0) by lia.
  rewrite substring_skip, substring_0_length. apply String.eqb_refl.
Qed.

Lemma drop_last_app (a suffix : string) :
  drop_last (String.length suffix) (a +:+ suffix) = a.
Proof.
  unfold drop_last. rewrite string_length_app.
  replace (String.length a + String.length suffix - String.length suffix)
    with (String.length a) by lia.
  apply substring_0_app.
Qed.

End Suffix.

(** X17: [get_config_module] removes the suffix of the name of the configuration
    file: a name that ends in [.py] loses these three characters, a name
    that ends in [.pyc] these four, and only the last suffix is removed. *)
Theorem config_suffix_removed (name : string) :
  module_path (name +:+ ".py") = name
  ∧ module_path (name +:+ ".pyc") = name.
Proof.
  unfold module_path. split.
  - rewrite endswith_app. apply (drop_last_app name ".py").
  - assert (endswith (name +:+ ".pyc") ".py" = false) as ->.
    { unfold endswith. rewrite string_length_app. apply andb_false_iff. right.
      replace (String.length name + String.length ".pyc" - String.length ".py")
        with (String.length name + 1) by (simpl; lia).
      rewrite substring_skip. reflexivity. }
    rewrite endswith_app. apply (drop_last_app name ".pyc").
Qed.

Section Defaults.

Context {V : Type}.

Lemma set_default_lookup (k k' : string) (v : V) (config : gmap string V) :
  set_default k v config !! k'
  = match config !! k' with
    | Some x => Some x
    | None => if startswith k "_" then None
              else if decide (k = k') then Some v else None
    end.
Proof.
  unfold set_default. destruct (startswith k "_") eqn:Eu.
  - by destruct (config !! k').
  - destruct (config !! k) eqn:Ek.
    + destruct (config !! k') eqn:Ek'; [done|].
      destruct (decide (k = k')) as [->|]; [congruence|done].
    + destruct (decide (k = k')) as [->|Hne].
      * rewrite lookup_insert_eq, Ek. done.
      * rewrite lookup_insert_ne by done. by destruct (config !! k').
Qed.

End Defaults.

(** X18: The settings after [get_config_module] has filled in the defaults: a
    setting of the configuration module is kept as it is; a setting the
    module does not have gets the value of [default_config], unless its name
    begins with an underscore, in which case it stays undefined. *)
Theorem defaults_fill_missing_settings {V : Type} (default_config config : gmap string V)
    (k : string) :
  fill_defaults default_config config !! k
  = match config !! k with
    | Some v => Some v
    | None => if startswith k "_" then None else default_config !! k
    end.
Proof.
  unfold fill_defaults.
  apply (map_fold_weak_ind (λ r m, r !! k = match config !! k with
                                     | Some v => Some v
                                     | None => if startswith k "_" then None else m !! k
                                     end)).
  - rewrite lookup_empty. destruct (config !! k); [done|]. by destruct (startswith k "_").
  - intros i x m r Hi IH. rewrite set_default_lookup, IH.
    destruct (config !! k) as [v|]; [done|].
    destruct (decide (i = k)) as [->|Hne].
    + rewrite lookup_insert_eq, Hi. by destruct (startswith k "_").
    + rewrite lookup_insert_ne by done.
      destruct (startswith k "_"); [by destruct (startswith i "_")|].
      destruct (m !! k); [done|]. by destruct (startswith i "_").
Qed.

Section AfterLoop.

Lemma pump_step_frozen e sh0 p sh' p' :
  pump_step e sh0 p = Some (sh', p') → leaving (pc p) = true →
  leaving (pc p') = true
  ∧ stdin p' = stdin p ∧ stderr_read p' = stderr_read p
  ∧ write_shut p' = write_shut p ∧ (∀ f io, e ≠ Take f io).
Proof. intros H Hl. inv_pump H; simpl in *; done. Qed.

Lemma step_frozen i l s s' p :
  started_ok s →
  step l s = Some s' → pumps s !! i = Some p → leaving (pc p) = true →
  is_take i l = false
  ∧ ∃ p', pumps s' !! i = Some p' ∧ leaving (pc p') = true
          ∧ stdin p' = stdin p ∧ stderr_read p' = stderr_read p
          ∧ write_shut p' = write_shut p.
Proof.
  intros Hst H Hp Hl. destruct l as [j e|e|e|e|e].
  - apply step_pump_inv in H as (q & sh' & q' & Hq & Hstep & ->). simpl.
    destruct (decide (j = i)) as [->|Hne].
    + assert (q = p) as -> by congruence.
      destruct (pump_step_frozen _ _ _ _ _ Hstep Hl) as (H1 & H2 & H3 & H4 & H5).
      split.
      * destruct e; try done. by destruct (H5 file_name io).
      * exists q'. rewrite list_lookup_insert_eq by (eapply lookup_lt_Some; eauto). done.
    + split.
      * destruct e; try done. apply Nat.eqb_neq. done.
      * exists p. rewrite list_lookup_insert_ne by done. done.
  - apply step_progress_inv in H as (sh' & g & Hstep & ->). eauto 10.
  - apply step_reduce_inv in H as (sh' & r & Hstep & ->). eauto 10.
  - split; [done|].
    apply step_main_inv in H
      as [(k & q & -> & Em & Hq & ->)|[(k & -> & Em & Hq & ->)
         |[(c & m & _ & Hm & Hk & ->)|(m & _ & Hm & Hk & ->)]]]; eauto 10.
    simpl. destruct (decide (k = i)) as [->|Hne].
    + rewrite (started_ok_next_worker s i p Hst Em Hp) in Hl. done.
    + exists p. rewrite list_lookup_insert_ne by done. done.
  - split; [done|].
    apply step_env_inv in H
      as [(-> & Em & ->)|[(j & code & q & -> & Hq & Hpc & _ & ->)
         |[(j & line & q & -> & Hq & ->)|(code & -> & Hr & _ & ->)]]]; eauto 10.
    simpl. destruct (decide (j = i)) as [->|Hne].
    + assert (q = p) as -> by congruence. exists (set_exit_status code p).
      rewrite list_lookup_insert_eq by (eapply lookup_lt_Some; eauto). done.
    + exists p. rewrite list_lookup_insert_ne by done. done.
Qed.

Lemma run_frozen i tr : ∀ s s' p,
  started_ok s →
  run tr s = Some s' → pumps s !! i = Some p → leaving (pc p) = true →
  takes i tr = 0
  ∧ ∃ p', pumps s' !! i = Some p' ∧ leaving (pc p') = true
          ∧ stdin p' = stdin p ∧ stderr_read p' = stderr_read p
          ∧ write_shut p' = write_shut p.
Proof.
  unfold takes.
  induction tr as [|l tr IH]; intros s s' p Hst Hrun Hp Hl.
  - simpl in Hrun. simplify_eq. split; [done|]. eauto 10.
  - apply run_cons_inv in Hrun as (s1 & Hstep & Hrun).
    destruct (step_frozen i l s s1 p Hst Hstep Hp Hl)
      as (Ht & p1 & Hp1 & Hl1 & E1 & E2 & E3).
    rewrite filter_cons_False by (by rewrite Ht).
    destruct (IH s1 s' p1 (step_started_ok _ _ _ Hst Hstep) Hrun Hp1 Hl1)
      as (Hz & p' & Hp' & Hl' & E1' & E2' & E3').
    split; [done|]. exists p'. split_and!; congruence.
Qed.

Lemma pump_step_shut_ok e sh0 p sh' p' :
  shut_ok p → pump_step e sh0 p = Some (sh', p') → shut_ok p'.
Proof.
  unfold shut_ok. intros Ho H.
  inv_pump H; simpl in *; intros Hor; try done;
    try (apply Ho; tauto);
    try (destruct Hor as [?|?]; try done; try congruence; apply Ho; tauto).
Qed.

Lemma step_shut_ok l s s' :
  started_ok s → Forall shut_ok (pumps s) → step l s = Some s' →
  Forall shut_ok (pumps s').
Proof.
  intros Hst Hc H. destruct l as [i e|e|e|e|e].
  - apply step_pump_inv in H as (p & sh' & p' & Hp & Hstep & ->). simpl in *.
    apply Forall_insert; [done|].
    eapply pump_step_shut_ok; [|exact Hstep]. eapply Forall_lookup_1; eauto.
  - apply step_progress_inv in H as (sh' & g & Hstep & ->). done.
  - apply step_reduce_inv in H as (sh' & r & Hstep & ->). done.
  - apply step_main_inv in H
      as [(k & p & -> & Em & Hp & ->)|[(k & -> & Em & Hp & ->)
         |[(c & m & _ & Hm & Hk & ->)|(m & _ & Hm & Hk & ->)]]]; try done.
    simpl in *. apply Forall_insert; [done|].
    rewrite (started_ok_next_worker s k p Hst Em Hp).
    unfold shut_ok. simpl. intros [?|?]; done.
  - apply step_env_inv in H
      as [(-> & Em & ->)|[(i & code & p & -> & Hp & Hpc & _ & ->)
         |[(i & line & q & -> & Hq & ->)|(code & -> & Hr & _ & ->)]]]; try done.
    simpl in *. apply Forall_insert; [done|].
    exact (Forall_lookup_1 _ _ _ _ Hc Hp).
Qed.

Lemma run_shut_ok tr file_names workers s :
  run tr (init file_names workers) = Some s → Forall shut_ok (pumps s).
Proof.
  intros Hrun.
  cut (started_ok s ∧ Forall shut_ok (pumps s)); [tauto|].
  revert Hrun. apply (run_invariant (λ s, started_ok s ∧ Forall shut_ok (pumps s))).
  - intros l s0 s1 [H1 H2] Hs. split; [eapply step_started_ok; eauto|].
    eapply step_shut_ok; eauto.
  - split; [apply init_started_ok|]. simpl. apply Forall_replicate.
    unfold shut_ok. simpl. intros [?|?]; done.
Qed.

End AfterLoop.

(** X19: A pump that has shut its channel down for writing or closed its
    assignment endpoint has left its loop, and a pump that has left its
    loop is done with its session: in every continuation it takes no item,
    writes no assignment and reads no status line.  An assignment that is
    unanswered at that moment stays unanswered: this pump never puts the
    item back into the task queue. *)
Theorem pump_done_after_loop (file_names : list string) (workers : nat)
    (tr tr' : list label) (s s' : state) (i : nat) (p : pump) :
  run tr (init file_names workers) = Some s →
  pumps s !! i = Some p →
  leaving (pc p) = true ∨ write_shut p = true ∨ closed (stdin p) = true →
  run tr' s = Some s' →
  leaving (pc p) = true
  ∧ takes i tr' = 0
  ∧ ∃ p', pumps s' !! i = Some p' ∧ leaving (pc p') = true
          ∧ stdin p' = stdin p ∧ stderr_read p' = stderr_read p
          ∧ outstanding p' = outstanding p.
Proof.
  intros Hrun Hp Hor Hrun'.
  assert (leaving (pc p) = true) as Hl.
  { destruct Hor as [?|Hor]; [done|].
    pose proof (run_shut_ok _ _ _ _ Hrun) as HF.
    apply (Forall_lookup_1 _ _ _ _ HF Hp). tauto. }
  split; [done|].
  destruct (run_frozen i tr' s s' p (run_started_ok _ _ _ _ Hrun) Hrun' Hp Hl)
    as (Hz & p' & Hp' & Hl' & E1 & E2 & _).
  split; [done|]. exists p'. split_and!; try done.
  unfold outstanding. by rewrite E1, E2.
Qed.

Lemma pump_done_after_loop_witness :
  let tr := boot 1 ++ [Pump 0 (IsSet false); Pump 0 (Take "f" IoOk);
                       Pump 0 (Readline "")] in
  let tr' := [Pump 0 (IsSet false); Env (WorkerExit 0 1);
              Pump 0 (ExitStatusReady true); Pump 0 SshClose; Main Joined] in
  let p := mkPump PAfterLoop (mkFile [fmt_line "f"] false) [] false None false in
  ∃ s s', run tr (init ["f"; "g"] 1) = Some s ∧ pumps s !! 0 = Some p
    ∧ outstanding p = Some "f" ∧ run tr' s = Some s'
    ∧ queue (input_queue (sh s')) = ["g"]
    ∧ takes 0 tr' = 0
    ∧ ∃ p', pumps s' !! 0 = Some p' ∧ leaving (pc p') = true
            ∧ stdin p' = stdin p ∧ stderr_read p' = stderr_read p
            ∧ outstanding p' = outstanding p.
Proof.
  intros tr tr' p. eexists. eexists. split; [vm_compute; reflexivity|].
  split; [reflexivity|]. split; [reflexivity|].
  split; [vm_compute; reflexivity|]. split; [reflexivity|].
  refine (proj2 (pump_done_after_loop ["f"; "g"] 1 tr tr' _ _ 0 p _ _ _ _)).
  - vm_compute; reflexivity.
  - reflexivity.
  - left. reflexivity.
  - vm_compute; reflexivity.
Defined.

Section NeverStuck.

Lemma pump_put_has_room file_names workers tr s i p :
  run tr (init file_names workers) = Some s →
  abort_event (sh s) = false →
  pumps s !! i = Some p → credit p = 1 →
  ∀ f, is_Some (put (input_queue (sh s)) f)
       ∧ is_Some (put (processed_files_queue (sh s)) f).
Proof.
  intros Hrun Ha Hp Hcr f.
  destruct (run_counted _ _ _ _ Hrun) as (Hft & Hu & Hc).
  destruct (run_sized _ _ _ _ Hrun) as [Hm1 Hm2].
  assert (total_unsolicited s = 0) as Hz.
  { destruct (decide (total_unsolicited s = 0)) as [E|E]; [done|].
    rewrite (total_unsolicited_abort s Hu E) in Ha. done. }
  unfold counted in Hc. rewrite Hz in Hc.
  pose proof (sum_list_lookup_le credit _ _ _ Hp) as Hle.
  split; apply put_is_Some; lia.
Qed.

End NeverStuck.

(** X20: No pump waits for the master while the abort flag is not set.  A
    pump that has been started and has not ended can always take its next
    step, as soon as its worker answers where the step is a read of the
    status stream: the tests of the flag and of the exit status, the call of
    [write_file_to_descriptor] (with or without an item in the queue), the
    two puts on the bounded queues and the closing of the connection are
    always enabled. *)
Theorem pump_never_stuck (file_names : list string) (workers : nat)
    (tr : list label) (s : state) (i : nat) (p : pump) :
  run tr (init file_names workers) = Some s →
  abort_event (sh s) = false →
  pumps s !! i = Some p → pc p ≠ NotStarted → pump_ended p = false →
  ∃ e s', step (Pump i e) s = Some s'.
Proof.
  intros Hrun Ha Hp Hns Hne.
  assert (∀ e, is_Some (pump_step e (sh s) p) → ∃ e s', step (Pump i e) s = Some s') as Hok.
  { intros e [[sh' p'] He]. exists e. simpl. rewrite Hp. simpl. rewrite He. simpl. eauto. }
  assert (∃ e, is_Some (call_wfd e (sh s) p)) as [ew [[[r sh1] p1] Hw]].
  { unfold call_wfd. destruct (get (input_queue (sh s))) as [[f q]|] eqn:Eg.
    - exists (Take f IoOk). rewrite String.eqb_refl.
      destruct (write_file_to_descriptor _ _ _) as [[r q'] d]. eauto.
    - exists TakeEmpty.
      destruct (write_file_to_descriptor _ _ _) as [[r q'] d]. eauto. }
  unfold pump_ended in Hne.
  destruct (pc p) eqn:Epc; try done.
  - apply (Hok (IsSet false)). unfold pump_step. rewrite Epc, Ha. simpl. eauto.
  - apply (Hok ew). unfold pump_step. rewrite Epc, Hw. simpl. eauto.
  - apply (Hok AbortSetExit). unfold pump_step. rewrite Epc. eauto.
  - apply (Hok (Readline "")). unfold pump_step. rewrite Epc. simpl. eauto.
  - destruct (pump_put_has_room _ _ _ _ _ _ Hrun Ha Hp) with (f := file_name)
      as [_ [q Hq]]; [unfold credit; by rewrite Epc|].
    apply (Hok PutProcessed). unfold pump_step. rewrite Epc, Hq. simpl. eauto.
  - apply (Hok AddMessage). unfold pump_step. rewrite Epc. eauto.
  - destruct (pump_put_has_room _ _ _ _ _ _ Hrun Ha Hp) with (f := file_name)
      as [[q Hq] _]; [unfold credit; by rewrite Epc|].
    apply (Hok Requeue). unfold pump_step. rewrite Epc, Hq. simpl. eauto.
  - apply (Hok AddMessage). unfold pump_step. rewrite Epc. eauto.
  - apply (Hok (IsSet false)). unfold pump_step. rewrite Epc, Ha. simpl. eauto.
  - apply (Hok ew). unfold pump_step. rewrite Epc, Hw. simpl. eauto.
  - apply (Hok (ExitStatusReady (exit_status_ready p))). unfold pump_step.
    rewrite Epc, Bool.eqb_reflx. eauto.
  - apply (Hok (IsSet false)). unfold pump_step. rewrite Epc, Ha. simpl. eauto.
  - apply (Hok (ExitStatusReady (exit_status_ready p))). unfold pump_step.
    rewrite Epc, Bool.eqb_reflx. eauto.
  - apply (Hok SshClose). unfold pump_step. rewrite Epc. eauto.
Qed.

Lemma pump_never_stuck_witness :
  let tr := boot 1 ++ [Pump 0 (IsSet false); Pump 0 (Take "f" IoOk);
                       Pump 0 (Readline (fmt_line "+f"))] in
  let p := mkPump (PPutProcessed "f") (mkFile [fmt_line "f"] false) [fmt_line "+f"]
             false None false in
  ∃ s, run tr (init ["f"] 1) = Some s ∧ pumps s !! 0 = Some p
    ∧ ∃ e s', step (Pump 0 e) s = Some s'.
Proof.
  intros tr p. eexists. split; [vm_compute; reflexivity|]. split; [reflexivity|].
  refine (pump_never_stuck ["f"] 1 tr _ 0 p _ _ _ _ _).
  - vm_compute; reflexivity.
  - reflexivity.
  - reflexivity.
  - discriminate.
  - reflexivity.
Defined.
